(** * The Liferay AMD module loader: a shallow embedding and its properties

    The development follows the loader bundle of the repository
    (PathResolver, EventEmitter, ConfigParser, DependencyBuilder,
    URLBuilder and Loader) component by component.  JavaScript objects
    used as dictionaries are finite maps, arrays are lists, exceptions
    are an explicit outcome, and the descriptors that the code mutates
    in place live in one shared registry keyed by module name. *)

From Stdlib Require Import ZArith String Ascii.
From stdpp Require Import gmap strings list.

(** ** JavaScript values and string primitives *)

Module JS.

(** The values a module implementation can be. *)
Inductive value :=
| VUndefined
| VNull
| VBool (b : bool)
| VNum (z : Z)
| VStr (s : string)
| VFun (id : nat)
| VObj (props : list (string * Z)).

(** JavaScript truthiness, as used by [c || t] and [!u]. *)
Definition truthy (v : value) : bool :=
  match v with
  | VUndefined | VNull => false
  | VBool b => b
  | VNum z => negb (Z.eqb z 0)
  | VStr s => negb (String.eqb s "")
  | VFun _ | VObj _ => true
  end.

(** Truthiness of an optional string property ([e.path ? ...]):
    a missing property and the empty string are both falsy. *)
Definition truthyStr (o : option string) : bool :=
  match o with
  | Some s => negb (String.eqb s "")
  | None => false
  end.

(** [s.split("/")]: never the empty array. *)
Fixpoint split (s : string) : list string :=
  match s with
  | EmptyString => [EmptyString]
  | String c s' =>
      if Ascii.eqb c "/" then EmptyString :: split s'
      else match split s' with
           | [] => [String c EmptyString]
           | x :: xs => String c x :: xs
           end
  end.

(** A string without a slash: one segment of a path. *)
Fixpoint segment (s : string) : bool :=
  match s with
  | EmptyString => true
  | String c s' => negb (Ascii.eqb c "/") && segment s'
  end.

(** [a.join(sep)] on an array of strings. *)
Fixpoint join (sep : string) (l : list string) : string :=
  match l with
  | [] => ""
  | [x] => x
  | x :: xs => x +:+ sep +:+ join sep xs
  end.

(** [s.indexOf(needle)]: position of the first occurrence, or -1. *)
Definition indexOf (needle s : string) : Z :=
  match String.index 0 needle s with
  | Some i => Z.of_nat i
  | None => (-1)%Z
  end.

(** [s.length]. *)
Definition strlen (s : string) : Z := Z.of_nat (String.length s).

(** [s.charAt(i)]: the empty string when [i] is out of range. *)
Definition charAt (i : Z) (s : string) : string :=
  if (i <? 0)%Z then ""
  else match String.get (Z.to_nat i) s with
       | Some c => String c EmptyString
       | None => ""
       end.

(** [a.splice(-1)] and [a.splice(-1, 1)] leave the array without its
    last element; on the empty array they do nothing. *)
Definition dropLast {A} (l : list A) : list A := removelast l.

End JS.

(** ** PathResolver *)

Module PathResolver.
Import JS.

(** The body of the [for] loop of [resolvePath], by recursion on
    [o.slice(i)]: [n] is the accumulating base.  On [".."] with an empty
    base the rest of the array, from the current segment on, is
    concatenated and the loop is left. *)
Fixpoint walk (n : list string) (rest : list string) : list string :=
  match rest with
  | [] => n
  | s :: rest' =>
      if decide (s = ".") then walk n rest'
      else if decide (s = "..") then
        match n with
        | [] => n ++ rest
        | _ => walk (dropLast n) rest'
        end
      else walk (n ++ [s]) rest'
  end.

(** [resolvePath(e, t)].  [r = o.splice(-1)] is a one-element array
    (a split is never empty); pushed onto [n] and joined, it contributes
    its single element. *)
Definition resolvePath (e t : string) : string :=
  if decide (t = "exports") then t
  else
    let n := dropLast (split e) in
    let o := split t in
    let r := List.last o "" in
    let o := dropLast o in
    join "/" (walk n o ++ [r]).

End PathResolver.

(** ** EventEmitter *)

Module EventEmitter.

(** Callbacks are JavaScript functions, compared by identity in [off];
    a callback is known here by an identifier. *)
Definition callback := nat.

Inductive warning :=
| OffNotRemoved (cb : callback)
| OffNoListeners (event : string)
| EmitNoListeners (event : string).

(** [this._events] and the console. *)
Record t := mk {
  _events : gmap string (list callback);
  console : list warning
}.

Definition empty : t := {| _events := ∅; console := [] |}.

Definition warn (w : warning) (em : t) : t :=
  {| _events := _events em; console := console em ++ [w] |}.

(** [on(e, t)]. *)
Definition on (e : string) (cb : callback) (em : t) : t :=
  let n := default [] (_events em !! e) in
  {| _events := <[e := n ++ [cb]]> (_events em); console := console em |}.

(** [n.indexOf(t)]. *)
Fixpoint indexOf (cb : callback) (n : list callback) : option nat :=
  match n with
  | [] => None
  | x :: n' => if decide (x = cb) then Some 0 else S <$> indexOf cb n'
  end.

(** [off(e, t)]: the first occurrence of the callback is spliced out. *)
Definition off (e : string) (cb : callback) (em : t) : t :=
  match _events em !! e with
  | Some n =>
      match indexOf cb n with
      | Some o => {| _events := <[e := delete o n]> (_events em);
                     console := console em |}
      | None => warn (OffNotRemoved cb) em
      end
  | None => warn (OffNoListeners e) em
  end.

(** A call of a callback either returns or throws; both leave an
    emitter behind. *)
Inductive completion :=
| Returns (em : t)
| Throws (em : t).

Section Emit.
Context {payload : Type}.

(** What a callback does to the emitter when it is called with a
    payload: any sequence of [on], [off] and further emissions, ended
    by a return or by an exception. *)
Variable behaviour : callback → payload → t → completion.

(** The loop of [emit] over the copy [n = n.slice(0)]: every element is
    called in turn, the emitter the callbacks act on is threaded
    through, and the calls made are recorded.  An exception leaves the
    loop.  The boolean tells whether the emission returned. *)
Fixpoint emitLoop (n : list callback) (p : payload) (em : t)
    (called : list callback) : t * list callback * bool :=
  match n with
  | [] => (em, called, true)
  | r :: n' =>
      match behaviour r p em with
      | Returns em' => emitLoop n' p em' (called ++ [r])
      | Throws em' => (em', called ++ [r], false)
      end
  end.

(** [emit(e, t)]: the emitter afterwards, the callbacks this emission
    invoked in the order of the calls, and whether it returned. *)
Definition emit (e : string) (p : payload) (em : t)
    : t * list callback * bool :=
  match _events em !! e with
  | Some n => emitLoop n p em []
  | None => (warn (EmitNoListeners e) em, [], true)
  end.
End Emit.

(** A callback body built from the emitter's own operations. *)
Inductive op :=
| On (event : string) (cb : callback)
| Off (event : string) (cb : callback).

Definition runOp (o : op) (em : t) : t :=
  match o with
  | On e cb => on e cb em
  | Off e cb => off e cb em
  end.

Definition runOps (body : list op) (em : t) : completion :=
  Returns (foldl (λ em o, runOp o em) em body).

End EventEmitter.

(** ** Module descriptors and the outcome of a call *)

(** [condition.test] is a predicate (a function, or a string handed to
    [eval]); a descriptor records the boolean it evaluates to. *)
Record Condition := {
  trigger : string;
  test : bool
}.

(** A factory is called with the implementations of the dependencies;
    besides its return value it leaves the last [exports] placeholder it
    was given in some final state. *)
Definition Factory := list JS.value → JS.value * JS.value.

Record ModuleDesc := {
  name : string;
  dependencies : list string;
  path : option string;
  fullPath : option string;
  condition : option Condition;
  pendingImplementation : option Factory;
  implementation : JS.value;
  mark : bool;
  tmpMark : bool;
  conditionalMark : bool;
  load : bool
}.

Definition set_name (v : string) (m : ModuleDesc) : ModuleDesc :=
  {| name := v; dependencies := dependencies m; path := path m;
     fullPath := fullPath m; condition := condition m;
     pendingImplementation := pendingImplementation m;
     implementation := implementation m; mark := mark m;
     tmpMark := tmpMark m; conditionalMark := conditionalMark m;
     load := load m |}.

Definition set_dependencies (v : list string) (m : ModuleDesc) : ModuleDesc :=
  {| name := name m; dependencies := v; path := path m;
     fullPath := fullPath m; condition := condition m;
     pendingImplementation := pendingImplementation m;
     implementation := implementation m; mark := mark m;
     tmpMark := tmpMark m; conditionalMark := conditionalMark m;
     load := load m |}.

Definition set_pendingImplementation (v : option Factory) (m : ModuleDesc)
    : ModuleDesc :=
  {| name := name m; dependencies := dependencies m; path := path m;
     fullPath := fullPath m; condition := condition m;
     pendingImplementation := v;
     implementation := implementation m; mark := mark m;
     tmpMark := tmpMark m; conditionalMark := conditionalMark m;
     load := load m |}.

Definition set_implementation (v : JS.value) (m : ModuleDesc) : ModuleDesc :=
  {| name := name m; dependencies := dependencies m; path := path m;
     fullPath := fullPath m; condition := condition m;
     pendingImplementation := pendingImplementation m;
     implementation := v; mark := mark m;
     tmpMark := tmpMark m; conditionalMark := conditionalMark m;
     load := load m |}.

Definition set_mark (v : bool) (m : ModuleDesc) : ModuleDesc :=
  {| name := name m; dependencies := dependencies m; path := path m;
     fullPath := fullPath m; condition := condition m;
     pendingImplementation := pendingImplementation m;
     implementation := implementation m; mark := v;
     tmpMark := tmpMark m; conditionalMark := conditionalMark m;
     load := load m |}.

Definition set_tmpMark (v : bool) (m : ModuleDesc) : ModuleDesc :=
  {| name := name m; dependencies := dependencies m; path := path m;
     fullPath := fullPath m; condition := condition m;
     pendingImplementation := pendingImplementation m;
     implementation := implementation m; mark := mark m;
     tmpMark := v; conditionalMark := conditionalMark m;
     load := load m |}.

Definition set_conditionalMark (v : bool) (m : ModuleDesc) : ModuleDesc :=
  {| name := name m; dependencies := dependencies m; path := path m;
     fullPath := fullPath m; condition := condition m;
     pendingImplementation := pendingImplementation m;
     implementation := implementation m; mark := mark m;
     tmpMark := tmpMark m; conditionalMark := v;
     load := load m |}.

Definition set_load (v : bool) (m : ModuleDesc) : ModuleDesc :=
  {| name := name m; dependencies := dependencies m; path := path m;
     fullPath := fullPath m; condition := condition m;
     pendingImplementation := pendingImplementation m;
     implementation := implementation m; mark := mark m;
     tmpMark := tmpMark m; conditionalMark := conditionalMark m;
     load := v |}.

(** What the code throws: the [Error] of [_visit], whose message names a
    module; the [TypeError] of a property read on [undefined]; the string
    thrown by [_checkModuleDependencies]. *)
Inductive exn :=
| CycleError (module : string)
| TypeError
| Thrown (message : string).

Definition cycleMessage (module : string) : string :=
  "Error processing module: " +:+ module +:+
  ". The provided configuration is not Directed Acyclic Graph.".

(** A call on a state [S] returns a value, throws, or (in the model
    only) exhausts the recursion budget it was given. *)
Inductive outcome (S A : Type) :=
| Normal (a : A) (s : S)
| Throw (e : exn) (s : S)
| OutOfFuel.
Arguments Normal {S A} a s.
Arguments Throw {S A} e s.
Arguments OutOfFuel {S A}.

Definition M (S A : Type) := S → outcome S A.

Definition throw {S A} (e : exn) : M S A := λ s, Throw e s.

#[export] Instance M_ret {S} : MRet (M S) := λ A a s, Normal a s.

#[export] Instance M_bind {S} : MBind (M S) := λ A B k c s,
  match c s with
  | Normal a s' => k a s'
  | Throw e s' => Throw e s'
  | OutOfFuel => OutOfFuel
  end.

(** A [for] loop over an array that the body does not change. *)
Fixpoint forEach {S A} (body : A → M S unit) (l : list A) : M S unit :=
  match l with
  | [] => mret tt
  | x :: l' => body x ;; forEach body l'
  end.

(** ** ConfigParser *)

Module ConfigParser.

(** The settings the loader reads from [this._config]. *)
Record Config := {
  basePath : string;
  url : string;
  combine : bool
}.

(** [this._config], [this._modules] and [this._conditionalModules]. *)
Record t := mk {
  _config : Config;
  _modules : gmap string ModuleDesc;
  _conditionalModules : gmap string (list string)
}.

Definition with_modules (ms : gmap string ModuleDesc) (cp : t) : t :=
  {| _config := _config cp; _modules := ms;
     _conditionalModules := _conditionalModules cp |}.

(** [resolvePath(e)]: every dependency is rewritten in place, relative
    to the module's own name. *)
Definition resolvePath (e : ModuleDesc) : ModuleDesc :=
  set_dependencies
    (map (PathResolver.resolvePath (name e)) (dependencies e)) e.

(** [_registerConditionalModule(e)]. *)
Definition _registerConditionalModule (e : ModuleDesc) (cp : t) : t :=
  match condition e with
  | Some c =>
      let t := default [] (_conditionalModules cp !! trigger c) in
      {| _config := _config cp; _modules := _modules cp;
         _conditionalModules :=
           <[trigger c := t ++ [name e]]> (_conditionalModules cp) |}
  | None => cp
  end.

(** [addModule(e)]: the object stored under [e.name] is the object whose
    dependencies [resolvePath] then rewrites, so the registry holds the
    rewritten descriptor. *)
Definition addModule (e : ModuleDesc) (cp : t) : t :=
  let e' := resolvePath e in
  _registerConditionalModule e' (with_modules (<[name e := e']> (_modules cp)) cp).

(** [_parseModules(e)]: the keys of the [modules] object in their
    enumeration order; each raw descriptor is stamped with its key. *)
Definition _parseModules (raw : list (string * ModuleDesc)) (cp : t) : t :=
  foldl (λ cp kv, addModule (set_name kv.1 kv.2) cp) cp raw.

(** The constructor, from the configuration object. *)
Definition new (cfg : Config) (raw : list (string * ModuleDesc)) : t :=
  _parseModules raw
    {| _config := cfg; _modules := ∅; _conditionalModules := ∅ |}.

End ConfigParser.

(** ** DependencyBuilder *)

Module DependencyBuilder.

(** The builder holds the parser it was constructed with (and through it
    the shared registry), its work queue and its result array. *)
Record t := mk {
  _configParser : ConfigParser.t;
  _queue : list string;
  _result : list string
}.

Definition new (cp : ConfigParser.t) : t :=
  {| _configParser := cp; _queue := []; _result := [] |}.

Definition getModules (b : t) : gmap string ModuleDesc :=
  ConfigParser._modules (_configParser b).

Definition getConditionalModules (b : t) : gmap string (list string) :=
  ConfigParser._conditionalModules (_configParser b).

(** An assignment to a property of the descriptor registered under [k]:
    the builder reaches every descriptor through the registry, so the
    object it writes to is the one registered there. *)
Definition update (f : ModuleDesc → ModuleDesc) (k : string) : M t unit :=
  λ b, Normal tt
    {| _configParser :=
         ConfigParser.with_modules (alter f k (getModules b)) (_configParser b);
       _queue := _queue b; _result := _result b |}.

(** [this._queue.push(x)]. *)
Definition push (x : string) : M t unit :=
  λ b, Normal tt
    {| _configParser := _configParser b;
       _queue := _queue b ++ [x]; _result := _result b |}.

(** [this._result.unshift(x)]. *)
Definition unshift (x : string) : M t unit :=
  λ b, Normal tt
    {| _configParser := _configParser b;
       _queue := _queue b; _result := x :: _result b |}.

(** [this._queue = e.slice(0)]. *)
Definition seed (e : list string) (b : t) : t :=
  {| _configParser := _configParser b; _queue := e; _result := _result b |}.

(** [_testConditionalModule]: the predicate is evaluated. *)
Definition _testConditionalModule (c : Condition) : bool := test c.

(** One turn of the loop of [_processConditionalModules]: [r = n[t[o]]],
    then the guarded push.  The condition is only read when the name is
    not in the queue yet. *)
Definition considerConditional (dep : string) : M t unit :=
  λ b, match getModules b !! dep with
       | None => Throw TypeError b
       | Some r =>
           if decide (name r ∈ _queue b) then Normal tt b
           else match condition r with
                | None => Throw TypeError b
                | Some c =>
                    if _testConditionalModule c then push (name r) b
                    else Normal tt b
                end
       end.

(** [_processConditionalModules(e)], for the descriptor registered
    under [k]. *)
Definition _processConditionalModules (k : string) : M t unit :=
  λ b, match getModules b !! k with
       | None => Throw TypeError b
       | Some e =>
           match getConditionalModules b !! name e with
           | Some t =>
               if conditionalMark e then Normal tt b
               else (forEach considerConditional t ;;
                     update (set_conditionalMark true) k) b
           | None => Normal tt b
           end
       end.

(** [_visit(e)], for the descriptor registered under [k]; a name with no
    descriptor stands for [undefined], whose first property read throws.
    The conditional step writes neither [mark] nor [name] nor
    [dependencies], so these are read from [e] as it was on entry.
    [fuel] bounds the depth of the recursion. *)
Fixpoint _visit (fuel : nat) (k : string) : M t unit :=
  match fuel with
  | 0 => λ _, OutOfFuel
  | S fuel' =>
      λ b, match getModules b !! k with
           | None => Throw TypeError b
           | Some e =>
               if tmpMark e then Throw (CycleError (name e)) b
               else
                 (_processConditionalModules k ;;
                  if mark e then mret tt
                  else
                    update (set_tmpMark true) k ;;
                    forEach (λ o, if decide (o = "exports") then mret tt
                                  else _visit fuel' o)
                            (dependencies e) ;;
                    update (λ m, set_tmpMark false (set_mark true m)) k ;;
                    unshift (name e)) b
           end
  end.

(** The loop of [_resolveDependencies] from index [i]; the queue may grow
    while it runs.  [fuel] bounds the number of turns, [depth] the
    recursion of each visit. *)
Fixpoint resolveFrom (fuel depth i : nat) : M t unit :=
  match fuel with
  | 0 => λ _, OutOfFuel
  | S fuel' =>
      λ b, match _queue b !! i with
           | None => Normal tt b
           | Some k =>
               match getModules b !! k with
               | None => Throw TypeError b
               | Some n =>
                   ((if mark n then mret tt else _visit depth k) ;;
                    resolveFrom fuel' depth (S i)) b
               end
           end
  end.

(** A visit nests at most once per registered module, and the queue
    holds the request and at most every registered name once more. *)
Definition depthBudget (b : t) : nat := S (size (getModules b)).

Definition turnBudget (b : t) : nat :=
  S (length (_queue b) + size (getModules b)).

Definition _resolveDependencies : M t unit :=
  λ b, resolveFrom (turnBudget b) (depthBudget b) 0 b.

Definition clearMarks (n : ModuleDesc) : ModuleDesc :=
  set_tmpMark false (set_mark false (set_conditionalMark false n)).

(** [_cleanup()]. *)
Definition _cleanup (b : t) : t :=
  {| _configParser :=
       ConfigParser.with_modules (clearMarks <$> getModules b) (_configParser b);
     _queue := []; _result := [] |}.

(** [resolveDependencies(e)]: [try ... finally], so the cleanup runs on
    the way out whether the pass returned or threw. *)
Definition resolveDependencies (e : list string) : M t (list string) :=
  λ b, match _resolveDependencies (seed e b) with
       | Normal _ b' => Normal (rev (_result b')) (_cleanup b')
       | Throw x b' => Throw x (_cleanup b')
       | OutOfFuel => OutOfFuel
       end.

End DependencyBuilder.

(** ** URLBuilder *)

Module URLBuilder.
Import JS.

(** [_getModulePath(e)]. *)
Definition _getModulePath (e : ModuleDesc) : string :=
  if truthyStr (path e) then default "" (path e)
  else if negb (indexOf ".js" (name e) =? strlen (name e) - 3)%Z
       then name e +:+ ".js"
       else name e.

(** [basePath], with a slash appended unless its last character is one. *)
Definition slashed (i : string) : string :=
  if decide (charAt (strlen i - 1) i = "/") then i else i +:+ "/".

(** The loop of [build]: [t] collects the paths to combine, [n] the URLs;
    every module met is flagged [load]. *)
Fixpoint buildLoop (cfg : ConfigParser.Config) (i : string) (e : list string)
    (t n : list string) : M (gmap string ModuleDesc) (list string * list string) :=
  match e with
  | [] => mret (t, n)
  | x :: e' =>
      λ o, match o !! x with
           | None => Throw TypeError o
           | Some u =>
               let '(t', n') :=
                 if truthyStr (fullPath u) then (t, n ++ [default "" (fullPath u)])
                 else if ConfigParser.combine cfg then (t ++ [_getModulePath u], n)
                 else (t, n ++ [ConfigParser.url cfg +:+ i +:+ _getModulePath u]) in
               buildLoop cfg i e' t' n' (alter (set_load true) x o)
           end
  end.

(** [build(e)]: the URLs, and the registry with the [load] flags set. *)
Definition build (e : list string) : M ConfigParser.t (list string) :=
  λ cp,
    let r := ConfigParser._config cp in
    let i := slashed (ConfigParser.basePath r) in
    match buildLoop r i e [] [] (ConfigParser._modules cp) with
    | Normal (t, n) o =>
        Normal (match t with
                | [] => n
                | _ => n ++ [ConfigParser.url r +:+ "?" +:+ i +:+ join ("&" +:+ i) t]
                end)
               (ConfigParser.with_modules o cp)
    | Throw x o => Throw x (ConfigParser.with_modules o cp)
    | OutOfFuel => OutOfFuel
    end.

End URLBuilder.

(** ** Loader *)

Module Loader.
Import JS.

(** The loader shares one parser between its dependency builder and its
    URL builder; the builder's record carries it. *)
Definition getModules (cp : ConfigParser.t) : gmap string ModuleDesc :=
  ConfigParser._modules cp.


(** The loop of [_checkModuleDependencies]; the first dependency without
    an implementation ends it with [false]. *)
Fixpoint checkLoop (o : list string) : M ConfigParser.t bool :=
  match o with
  | [] => mret true
  | i :: o' =>
      if decide (i = "exports") then checkLoop o'
      else λ cp,
        match getModules cp !! i with
        | None => Throw (Thrown ("Dependency " +:+ i +:+ " not registered as module.")) cp
        | Some s => if truthy (implementation s) then checkLoop o' cp
                    else Normal false cp
        end
  end.

Definition _checkModuleDependencies (e : ModuleDesc) : M ConfigParser.t bool :=
  checkLoop (dependencies e).

(** [_filterModulesNoImpl(e)]. *)
Definition _filterModulesNoImpl (e : list string) (cp : ConfigParser.t)
    : list string :=
  List.filter (λ x, match getModules cp !! x with
                    | Some r => negb (truthy (implementation r))
                    | None => true
                    end) e.


(** The arguments [_registerModule] collects for the factory: a fresh
    empty object for ["exports"], the implementation of every other
    dependency.  The boolean tells whether an [exports] placeholder was
    made. *)
Fixpoint factoryArgs (deps : list string) (n : list value) (t : bool)
    : M ConfigParser.t (list value * bool) :=
  match deps with
  | [] => mret (n, t)
  | u :: deps' =>
      if decide (u = "exports") then factoryArgs deps' (n ++ [VObj []]) true
      else λ cp,
        match getModules cp !! u with
        | None => Throw TypeError cp
        | Some a => factoryArgs deps' (n ++ [implementation a]) t cp
        end
  end.

(** The event [_registerModule] emits. *)
Definition moduleRegister : string := "moduleRegister".

(** The tail of [_registerModule], once the arguments are collected:
    the factory runs, the implementation is [c || t], the descriptor goes
    through [addModule].  Returned: the event and its payload. *)
Definition applyFactory (e : ModuleDesc) (args : list value * bool)
    : M ConfigParser.t (string * ModuleDesc) :=
  match pendingImplementation e with
  | None => throw TypeError
  | Some factory =>
      let '(c, exports) := factory (fst args) in
      let impl := if truthy c then c
                  else if snd args then exports else VUndefined in
      let e' := set_implementation impl e in
      λ cp, let cp' := ConfigParser.addModule e' cp in
            Normal (moduleRegister, default e' (getModules cp' !! name e')) cp'
  end.

(** [_registerModule(e)]; the listeners of ["moduleRegister"] read the
    registry and do not write it. *)
Definition _registerModule (e : ModuleDesc)
    : M ConfigParser.t (string * ModuleDesc) :=
  args ← factoryArgs (dependencies e) [] false;
  applyFactory e args.

(** How the executor of [define] ends when it does not throw: the module
    was registered at once, or its registration waits for its
    dependencies. *)
Inductive defined :=
| Registered (s : ModuleDesc)
| Deferred (s : ModuleDesc).

(** [define(e, t, n, o)]: the part that runs inside the call.  [o] is the
    descriptor passed as fourth argument, or a fresh object. *)
Definition blank : ModuleDesc :=
  {| name := ""; dependencies := []; path := None; fullPath := None;
     condition := None; pendingImplementation := None;
     implementation := VUndefined; mark := false; tmpMark := false;
     conditionalMark := false; load := false |}.

Definition defineDescriptor (e : string) (t : list string) (n : Factory)
    (o : option ModuleDesc) : ModuleDesc :=
  let s := default blank o in
  ConfigParser.resolvePath
    (set_pendingImplementation (Some n) (set_dependencies t (set_name e s))).

Definition define (e : string) (t : list string) (n : Factory)
    (o : option ModuleDesc) : M ConfigParser.t defined :=
  let s := defineDescriptor e t n o in
  u ← _checkModuleDependencies s;
  if u : bool then ev ← _registerModule s; mret (Registered (snd ev))
  else mret (Deferred s).

(** [_resolveDependencies(e)]: the names without a descriptor are left
    out, the rest goes to the dependency builder; what the builder throws
    is caught and rejects the promise. *)
Definition _resolveDependencies (e : list string)
    : M DependencyBuilder.t (list string) :=
  λ b, let r := DependencyBuilder.getModules b in
       let i := List.filter (λ x, bool_decide (is_Some (r !! x))) e in
       DependencyBuilder.resolveDependencies i b.



(** How the promise chain of [require] settles: fulfilled once the
    modules are loaded and implemented, or rejected with a reason. *)
Inductive settled :=
| Fulfilled
| Rejected (reason : exn).




(** The promise [_waitForImplementation(e)] returns, as its executor
    leaves it: resolved with the descriptor, waiting with a listener of
    ["moduleRegister"] that closes over it, or rejected with what the
    executor threw. *)
Inductive waiting :=
| Resolved (e : ModuleDesc)
| Listening (e : ModuleDesc)
| Failed (x : exn).

(** [_waitForImplementation(e)]; [None] stands for [undefined], whose
    [implementation] cannot be read. *)
Definition _waitForImplementation (e : option ModuleDesc) : waiting :=
  match e with
  | None => Failed TypeError
  | Some d => if truthy (implementation d) then Resolved d else Listening d
  end.

(** The property key an array element gives: a read past the end of the
    array is [undefined], which names the property ["undefined"]. *)
Definition propertyKey (x : option string) : string := default "undefined" x.

(** [_waitForImplementations(e)], the part its executor runs at once:
    resolved with [e] when no module of [e] lacks an implementation;
    otherwise the promises handed to [Promise.all], one for every index
    [s < e.length], each waiting for the module registered under
    [o[s]]. *)
Definition _waitForImplementations (e : list string) (cp : ConfigParser.t)
    : list string + list waiting :=
  let o := _filterModulesNoImpl e cp in
  match o with
  | [] => inl e
  | _ => inr (map (λ s, _waitForImplementation
                          (getModules cp !! propertyKey (o !! s)))
                  (seq 0 (length e)))
  end.

End Loader.

(** ** Serial and chunked iteration *)

Module Util.

(** How the promise an asynchronous process returns settles. *)
Inductive fate :=
| Fulfils
| Rejects
| Never.

(** How the promise a call returns ends up. *)
Inductive settled :=
| Fulfilled
| Rejected
| Pending.

(** The numbers [Math.floor(a / b)] can be for integers [a] and [b]. *)
Inductive num :=
| Fin (z : Z)
| PosInf
| NegInf
| NaN.

Definition floorDiv (a b : Z) : num :=
  if (b =? 0)%Z then
    if (0 <? a)%Z then PosInf else if (a <? 0)%Z then NegInf else NaN
  else Fin (a / b)%Z.

(** [i < n]. *)
Definition less (i : Z) (n : num) : bool :=
  match n with
  | Fin z => (i <? z)%Z
  | PosInf => true
  | NegInf | NaN => false
  end.

(** [a.slice(from, to)], with the clamping of JavaScript: a negative
    index counts from the end. *)
Definition slice {A} (from to : Z) (a : list A) : list A :=
  let len := Z.of_nat (length a) in
  let clamp i := if (i <? 0)%Z then Z.max (len + i) 0 else Z.min i len in
  let k := clamp from in
  take (Z.to_nat (clamp to - k)) (drop (Z.to_nat k) a).

Definition rejects (f : fate) : bool :=
  match f with Rejects => true | _ => false end.

Definition fulfils (f : fate) : bool :=
  match f with Fulfils => true | _ => false end.

(** [Promise.all] over the promises of a chunk: rejected as soon as one
    of them is, fulfilled when all of them are. *)
Definition all (fates : list fate) : settled :=
  if existsb rejects fates then Rejected
  else if forallb fulfils fates then Fulfilled
  else Pending.

Section Iteration.
Context {T : Type}.

Variable process : T → fate.

(** [iterateSerially(values, asyncProcess)]: the values the process was
    started on, in the order of the calls, and how the returned promise
    settles. *)
Fixpoint iterateSerially (values : list T) : list T * settled :=
  match values with
  | [] => ([], Fulfilled)
  | v :: rest =>
      match process v with
      | Fulfils => let '(started, how) := iterateSerially rest in
                   (v :: started, how)
      | Rejects => ([v], Rejected)
      | Never => ([v], Pending)
      end
  end.

Definition chunksCount (items : list T) (chunkSize : Z) : num :=
  floorDiv (Z.of_nat (length items) + chunkSize - 1) chunkSize.

Definition chunkAt (items : list T) (chunkSize chunkIndex : Z) : list T :=
  slice (chunkIndex * chunkSize)
        (Z.min (Z.of_nat (length items)) ((chunkIndex + 1) * chunkSize))
        items.

(** [runInChunks(items, chunkSize, chunkIndex, callback)] for integer
    sizes and indices: the chunks the callback was mapped over, in
    order, and how the returned promise settles.  [fuel] bounds the
    number of chunks; [None] when it does not suffice. *)
Fixpoint runInChunks (fuel : nat) (items : list T)
    (chunkSize chunkIndex : Z) : option (list (list T) * settled) :=
  match fuel with
  | 0 => None
  | S fuel' =>
      let chunk := chunkAt items chunkSize chunkIndex in
      match all (map process chunk) with
      | Fulfilled =>
          let chunkIndex := (chunkIndex + 1)%Z in
          if less chunkIndex (chunksCount items chunkSize) then
            match runInChunks fuel' items chunkSize chunkIndex with
            | Some (chunks, how) => Some (chunk :: chunks, how)
            | None => None
            end
          else Some ([chunk], Fulfilled)
      | how => Some ([chunk], how)
      end
  end.
End Iteration.

End Util.

(** ** Vocabulary of the statements *)

(** Partial correctness of a call: what holds of a return and of a
    throw. *)
Definition wlp {S A} (c : M S A) (Q : A → S → Prop) (E : exn → S → Prop)
    (s : S) : Prop :=
  match c s with
  | Normal a s' => Q a s'
  | Throw e s' => E e s'
  | OutOfFuel => True
  end.

(** Total correctness: the call moreover ends within its budget. *)
Definition wp {S A} (c : M S A) (Q : A → S → Prop) (E : exn → S → Prop)
    (s : S) : Prop :=
  match c s with
  | Normal a s' => Q a s'
  | Throw e s' => E e s'
  | OutOfFuel => False
  end.

(** The dependency graph a registry [G] and a conditional index [C]
    describe. *)
Module Graph.
Section Graph.
Variable G : gmap string ModuleDesc.
Variable C : gmap string (list string).

Definition registered (k : string) : Prop := is_Some (G !! k).

(** [d] is a dependency of [k] other than the ["exports"] slot. *)
Definition depends (k d : string) : Prop :=
  ∃ e, G !! k = Some e ∧ d ∈ dependencies e ∧ d ≠ "exports".

(** [b] is listed under the trigger [k] and its test holds. *)
Definition activates (k b : string) : Prop :=
  ∃ e t r c, G !! k = Some e ∧ C !! name e = Some t ∧ b ∈ t ∧
             G !! b = Some r ∧ condition r = Some c ∧ test c = true.

Definition step (k x : string) : Prop := depends k x ∨ activates k x.

(** Reachable from a request, through dependencies and activations. *)
Definition reachable (req : list string) (x : string) : Prop :=
  ∃ r, r ∈ req ∧ rtc step r x.

Definition onCycle (k : string) : Prop := tc depends k k.

Definition acyclic : Prop := ∀ k, ¬ onCycle k.

(** An output list is dependency-first. *)
Definition dependencyFirst (l : list string) : Prop :=
  ∀ i m d, l !! i = Some m → depends m d →
           ∃ j, j < i ∧ l !! j = Some d.

(** Every descriptor is registered under its own name. *)
Definition namesOk : bool :=
  forallb (λ kv, bool_decide (name kv.2 = kv.1)) (map_to_list G).

(** Every dependency other than ["exports"] is registered. *)
Definition closedOk : bool :=
  forallb (λ kv, forallb (λ d, bool_decide (d = "exports")
                               || bool_decide (is_Some (G !! d)))
                         (dependencies kv.2))
          (map_to_list G).

(** Every name in the conditional index is registered, with a
    condition. *)
Definition conditionalsOk : bool :=
  forallb (λ tl, forallb (λ b, match G !! b with
                               | Some r => bool_decide (is_Some (condition r))
                               | None => false
                               end) tl.2)
          (map_to_list C).

(** Every descriptor with a condition is listed under its trigger. *)
Definition indexOk : bool :=
  forallb (λ kv, match condition kv.2 with
                 | Some c => bool_decide (kv.1 ∈ default [] (C !! trigger c))
                 | None => true
                 end)
          (map_to_list G).

Definition wellFormed : bool := namesOk && closedOk && conditionalsOk.

(** The edge [depends k d], checked. *)
Definition dependsOk (k d : string) : bool :=
  match G !! k with
  | Some e => bool_decide (d ∈ dependencies e)
              && negb (bool_decide (d = "exports"))
  | None => false
  end.

(** Every requested name is registered. *)
Definition requestOk (req : list string) : bool :=
  forallb (λ x, bool_decide (is_Some (G !! x))) req.

(** No traversal flag is set. *)
Definition cleanOk : bool :=
  forallb (λ kv, negb (mark kv.2 || tmpMark kv.2 || conditionalMark kv.2))
          (map_to_list G).

(** A ranking that every dependency edge decreases. *)
Definition rankedBy (rank : string → nat) : bool :=
  forallb (λ kv, forallb (λ d, bool_decide (d = "exports")
                               || bool_decide (rank d < rank kv.1))
                         (dependencies kv.2))
          (map_to_list G).
End Graph.
End Graph.

(** The combined URL in the words of the specification: [url], ["?"],
    then the paths, each after the base path, joined by ["&"]. *)
Definition combinedURL (url base : string) (paths : list string) : string :=
  url +:+ "?" +:+ JS.join "&" (map (λ p, base +:+ p) paths).

(** The separate URL of one module. *)
Definition directURL (url base path : string) : string :=
  url +:+ base +:+ path.

(** The path [_getModulePath] computes for the module registered under
    [x]. *)
Definition pathOf (o : gmap string ModuleDesc) (x : string) : string :=
  match o !! x with
  | Some u => URLBuilder._getModulePath u
  | None => ""
  end.

(** What the loop of [build] has collected after the modules [e], all of
    them registered without [fullPath]. *)
Definition collected (cfg : ConfigParser.Config) (i : string)
    (o : gmap string ModuleDesc) (e t n : list string)
    : list string * list string :=
  if ConfigParser.combine cfg then (t ++ map (pathOf o) e, n)
  else (t, n ++ map (λ x, directURL (ConfigParser.url cfg) i (pathOf o x)) e).

(** [x] is registered and carries no [fullPath]. *)
Definition plain (o : gmap string ModuleDesc) (x : string) : bool :=
  match o !! x with
  | Some u => negb (JS.truthyStr (fullPath u))
  | None => false
  end.

(** [x] is registered in [cp] with a truthy implementation. *)
Definition implementedIn (cp : ConfigParser.t) (x : string) : bool :=
  match ConfigParser._modules cp !! x with
  | Some r => JS.truthy (implementation r)
  | None => false
  end.

(** A descriptor as a configuration object gives it: dependencies and,
    possibly, a condition. *)
Definition descriptor (deps : list string) (c : option Condition)
    : ModuleDesc :=
  {| name := ""; dependencies := deps; path := None; fullPath := None;
     condition := c; pendingImplementation := None;
     implementation := JS.VUndefined; mark := false; tmpMark := false;
     conditionalMark := false; load := false |}.

(** What the constructor maintains, in propositions. *)
Record parsed (cp : ConfigParser.t) : Prop := {
  parsed_names : ∀ k e, ConfigParser._modules cp !! k = Some e → name e = k;
  parsed_conditionals : ∀ t l b,
    ConfigParser._conditionalModules cp !! t = Some l → b ∈ l →
    ∃ r c, ConfigParser._modules cp !! b = Some r ∧ condition r = Some c;
  parsed_index : ∀ k r c,
    ConfigParser._modules cp !! k = Some r → condition r = Some c →
    ∃ t, ConfigParser._conditionalModules cp !! trigger c = Some t ∧ k ∈ t;
  parsed_clean : ∀ k e, ConfigParser._modules cp !! k = Some e →
    mark e = false ∧ tmpMark e = false ∧ conditionalMark e = false
}.

(** No traversal flag of the descriptor is set. *)
Definition unflagged (e : ModuleDesc) : Prop :=
  mark e = false ∧ tmpMark e = false ∧ conditionalMark e = false.

(** What a pass of the dependency builder keeps and what it moves. *)
Module Pass.
Import DependencyBuilder.

(** The parser with every traversal flag erased. *)
Definition erased (b : t) : ConfigParser.t := _configParser (_cleanup b).

(** The descriptors on the current traversal path. *)
Definition tmpSet (b : t) : gset string :=
  dom (filter (λ kv, tmpMark kv.2 = true) (getModules b)).

(** The recursion budget suffices: every nested visit marks one more
    descriptor. *)
Definition inBudget (fuel : nat) (b : t) : Prop :=
  size (getModules b) < fuel + size (tmpSet b).

(** [x] is the name of a registered descriptor. *)
Definition named (b : t) (x : string) : Prop :=
  ∃ k r, getModules b !! k = Some r ∧ name r = x.

(** The queue only grows, by names new to it, each pushed once. *)
Definition extends (s s' : t) : Prop :=
  ∃ ext, _queue s' = (_queue s ++ ext) ∧ NoDup ext ∧
         ∀ x, x ∈ ext → (x ∉ _queue s) ∧ named s x.

(** The result only grows, at its head. *)
Definition grows (s s' : t) : Prop :=
  ∃ new, _result s' = new ++ _result s.

Definition frame (s s' : t) : Prop :=
  erased s' = erased s ∧ extends s s' ∧ grows s s'.

(** The state an assignment to a descriptor leaves. *)
Definition assigned (f : ModuleDesc → ModuleDesc) (k : string) (s : t) : t :=
  {| _configParser :=
       ConfigParser.with_modules (alter f k (getModules s)) (_configParser s);
     _queue := _queue s; _result := _result s |}.

(** The state [unshift] leaves. *)
Definition unshifted (x : string) (s : t) : t :=
  {| _configParser := _configParser s; _queue := _queue s;
     _result := x :: _result s |}.

(** What the conditional step keeps: descriptors and result. *)
Definition queued (s s' : t) : Prop :=
  _configParser s' = _configParser s ∧ _result s' = _result s ∧ extends s s'.

(** The result array, read from its head: every module comes before its
    dependencies. *)
Fixpoint postOrdered (G : gmap string ModuleDesc) (l : list string) : Prop :=
  match l with
  | [] => True
  | k :: l' => (∀ d, Graph.depends G k d → d ∈ l') ∧ postOrdered G l'
  end.

Section Invariant.
Variable cp0 : ConfigParser.t.

Definition G : gmap string ModuleDesc := ConfigParser._modules cp0.
Definition C : gmap string (list string) :=
  ConfigParser._conditionalModules cp0.

(** [b] is a registered conditional module whose test holds. *)
Definition activatable (b : string) : Prop :=
  ∃ r c, G !! b = Some r ∧ condition r = Some c ∧ test c = true.

(** The activations of [k] are all queued. *)
Definition condDone (s : t) (k : string) : Prop :=
  ∀ b, Graph.activates G C k b → b ∈ _queue s.

(** The state of a pass over the parser [cp0]. *)
Record Inv (s : t) : Prop := {
  inv_static : erased s = erased (new cp0);
  inv_marks : ∀ k e, getModules s !! k = Some e →
                (mark e = true ↔ k ∈ _result s);
  inv_registered : ∀ k, k ∈ _result s → Graph.registered G k;
  inv_nodup : NoDup (_result s);
  inv_ordered : postOrdered G (_result s);
  inv_cond : ∀ k e, getModules s !! k = Some e →
                conditionalMark e = true ∨ mark e = true → condDone s k;
  inv_queue : ∀ x, x ∈ _queue s → Graph.registered G x
}.

(** Every descriptor on the traversal path leads to [k]. *)
Definition onPath (s : t) (k : string) : Prop :=
  ∀ m, m ∈ tmpSet s → tc (Graph.depends G) m k.

(** What one visit adds: the result and the queue grow, the traversal
    path is as before, and nothing on the path enters the result. *)
Definition advances (s s' : t) : Prop :=
  (∀ x, x ∈ _result s → x ∈ _result s') ∧
  (∀ x, x ∈ _queue s → x ∈ _queue s') ∧
  tmpSet s' = tmpSet s ∧
  (∀ x, x ∈ _result s' → x ∉ _result s → x ∉ tmpSet s).
End Invariant.

End Pass.


(** ** Further vocabulary *)

(** The callbacks registered for an event, none when the event has no
    entry. *)
Definition listeners (e : string) (em : EventEmitter.t)
    : list EventEmitter.callback :=
  default [] (EventEmitter._events em !! e).

(** [cbs] registered for [e], one [on] after the other. *)
Definition onAll (e : string) (cbs : list EventEmitter.callback)
    (em : EventEmitter.t) : EventEmitter.t :=
  foldl (λ em cb, EventEmitter.on e cb em) em cbs.

(** No segment of the identifier before its last one is ["."] or
    [".."]. *)
Definition dotless (t : string) : bool :=
  forallb (λ s, negb (bool_decide (s = ".") || bool_decide (s = "..")))
          (JS.dropLast (JS.split t)).

(** The [fullPath] of the module registered under [x]. *)
Definition fullPathOf (o : gmap string ModuleDesc) (x : string) : string :=
  match o !! x with
  | Some u => default "" (fullPath u)
  | None => ""
  end.

(** The URL a module is fetched from on its own: its [fullPath] when it
    has one, else the server's URL, the base path and its path. *)
Definition ownURL (cfg : ConfigParser.Config) (i : string)
    (o : gmap string ModuleDesc) (x : string) : string :=
  if plain o x then directURL (ConfigParser.url cfg) i (pathOf o x)
  else fullPathOf o x.

(** The registry once the modules [e] have been flagged [load]. *)
Definition flagged (e : list string) (o : gmap string ModuleDesc)
    : gmap string ModuleDesc :=
  foldl (λ o x, alter (set_load true) x o) o e.

(** The entry of a configuration carries a condition with the trigger
    [t]. *)
Definition triggeredBy (t : string) (kv : string * ModuleDesc) : bool :=
  match condition kv.2 with
  | Some c => bool_decide (trigger c = t)
  | None => false
  end.

(** A dependency that does not hold a declaration back: the ["exports"]
    slot, or a module registered with a truthy implementation. *)
Definition readyIn (cp : ConfigParser.t) (d : string) : bool :=
  bool_decide (d = "exports") || implementedIn cp d.

(** The argument a factory receives for the dependency [u]. *)
Definition argumentFor (cp : ConfigParser.t) (u : string) : JS.value :=
  if decide (u = "exports") then JS.VObj []
  else match ConfigParser._modules cp !! u with
       | Some a => implementation a
       | None => JS.VUndefined
       end.

(** The implementation [_registerModule] stores: what the factory
    returns when that is truthy, else the last [exports] object handed to
    it, else [undefined]. *)
Definition implementationOf (n : Factory) (cp : ConfigParser.t)
    (deps : list string) : JS.value :=
  let '(c, exports) := n (map (argumentFor cp) deps) in
  if JS.truthy c then c
  else if bool_decide ("exports" ∈ deps) then exports else JS.VUndefined.

(** A state of a pass over the parser [cp0] for the request [req] in
    which every queued and every listed name is reachable from the
    request. *)
Definition soundFor (cp0 : ConfigParser.t) (req : list string)
    (s : DependencyBuilder.t) : Prop :=
  Pass.erased s = Pass.erased (DependencyBuilder.new cp0) ∧
  (∀ x, x ∈ DependencyBuilder._queue s →
        Graph.reachable (Pass.G cp0) (Pass.C cp0) req x) ∧
  (∀ x, x ∈ DependencyBuilder._result s →
        Graph.reachable (Pass.G cp0) (Pass.C cp0) req x).

(** A state of a pass over the parser [cp0] in which the marked
    descriptors are the listed ones, every listed name is registered,
    the result array has no duplicates and, read from its head, has every
    module before its dependencies, no descriptor on the traversal path
    is listed yet, and the activations of every descriptor that is marked
    or has had its conditions processed are queued. *)
Definition orderedFor (cp0 : ConfigParser.t) (s : DependencyBuilder.t)
    : Prop :=
  Pass.erased s = Pass.erased (DependencyBuilder.new cp0) ∧
  (∀ k e, DependencyBuilder.getModules s !! k = Some e →
          (mark e = true ↔ k ∈ DependencyBuilder._result s)) ∧
  (∀ k, k ∈ DependencyBuilder._result s →
        Graph.registered (Pass.G cp0) k) ∧
  Pass.postOrdered (Pass.G cp0) (DependencyBuilder._result s) ∧
  NoDup (DependencyBuilder._result s) ∧
  (∀ k, k ∈ Pass.tmpSet s → k ∉ DependencyBuilder._result s) ∧
  (∀ k e, DependencyBuilder.getModules s !! k = Some e →
          conditionalMark e = true ∨ mark e = true →
          Pass.condDone cp0 s k).

(** What a step of a pass keeps: the names listed stay listed, the
    queue is only appended to, and the traversal path is as before. *)
Definition keeps (s s' : DependencyBuilder.t) : Prop :=
  (∀ x, x ∈ DependencyBuilder._result s → x ∈ DependencyBuilder._result s') ∧
  DependencyBuilder._queue s `prefix_of` DependencyBuilder._queue s' ∧
  Pass.tmpSet s' = Pass.tmpSet s.
(** ** Example registries and listeners *)

Module Examples.

(** Three listeners of one event; the first one, when called, removes
    itself and the third and adds a fourth. *)
Definition threeListeners : EventEmitter.t :=
  EventEmitter.on "moduleRegister" 3
    (EventEmitter.on "moduleRegister" 2
       (EventEmitter.on "moduleRegister" 1 EventEmitter.empty)).

Definition bodies (cb : EventEmitter.callback) : list EventEmitter.op :=
  match cb with
  | 1 => [EventEmitter.Off "moduleRegister" 1;
          EventEmitter.Off "moduleRegister" 3;
          EventEmitter.On "moduleRegister" 4]
  | _ => []
  end.

Definition behave (cb : EventEmitter.callback) (_ : unit)
    : EventEmitter.t → EventEmitter.completion :=
  EventEmitter.runOps (bodies cb).

(** Two modules behind a combining server whose base path has no
    trailing slash. *)
Definition combo : ConfigParser.Config :=
  {| ConfigParser.basePath := "/base";
     ConfigParser.url := "http://h/combo";
     ConfigParser.combine := true |}.

Definition twoModules : ConfigParser.t :=
  ConfigParser.new combo
    [("mod1", descriptor [] None); ("mod2", descriptor [] None)].

(** A registry in which ["a/c"] is implemented, and the declaration of
    ["a/b"] with the dependency ["./c"]. *)
Definition implemented (v : JS.value) : ModuleDesc :=
  set_implementation v (descriptor [] None).

Definition oneImplemented : ConfigParser.t :=
  ConfigParser.new combo [("a/c", implemented (JS.VObj [("c", 1%Z)]))].

Definition factory : Factory :=
  λ args, (JS.VObj [("b", 2%Z)], JS.VUndefined).

Definition afterDefine : outcome ConfigParser.t Loader.defined :=
  Loader.define "a/b" ["./c"] factory None oneImplemented.

(** An application using a library and a utility, and a module that
    joins whenever the utility is asked for. *)
Definition diamond : ConfigParser.t :=
  ConfigParser.new combo
    [("app", descriptor ["lib"; "util"; "exports"] None);
     ("lib", descriptor ["util"] None);
     ("util", descriptor [] None);
     ("extra", descriptor ["lib"]
                 (Some {| trigger := "util"; test := true |}))].

Definition diamondRank (x : string) : nat :=
  if decide (x = "util") then 0
  else if decide (x = "lib") then 1
  else 2.



(** A module whose dependency is not registered. *)
Definition dangling : ConfigParser.t :=
  ConfigParser.new combo [("app", descriptor ["gone"] None)].

(** A trigger that depends on the module it activates. *)
Definition triggered : ConfigParser.t :=
  ConfigParser.new combo
    [("A", descriptor ["B"] None);
     ("B", descriptor [] (Some {| trigger := "A"; test := true |}))].

Definition triggeredB : ModuleDesc :=
  default Loader.blank (ConfigParser._modules triggered !! "B").


(** A module served from its own address between two modules of the
    combining server. *)
Definition external (p : string) : ModuleDesc :=
  {| name := ""; dependencies := []; path := None; fullPath := Some p;
     condition := None; pendingImplementation := None;
     implementation := JS.VUndefined; mark := false; tmpMark := false;
     conditionalMark := false; load := false |}.

Definition mixed : ConfigParser.t :=
  ConfigParser.new combo
    [("mod1", descriptor [] None);
     ("cdn", external "http://cdn/x.js");
     ("mod2", descriptor [] None)].

(** The registry [triggered] once ["B"] has been declared without a
    descriptor object. *)
Definition redeclared : ConfigParser.t :=
  match Loader.define "B" [] factory None triggered with
  | Normal _ cp' => cp'
  | _ => triggered
  end.

(** A conditional module whose test fails. *)
Definition untriggered : ConfigParser.t :=
  ConfigParser.new combo
    [("A", descriptor [] None);
     ("B", descriptor [] (Some {| trigger := "A"; test := false |}))].

(** A process whose promise is rejected for the value 3, and one whose
    promises are all fulfilled. *)
Definition failsOnThree (n : nat) : Util.fate :=
  match n with
  | 3 => Util.Rejects
  | _ => Util.Fulfils
  end.

Definition succeeds (n : nat) : Util.fate := Util.Fulfils.

(** A factory that works by side effect and returns nothing. *)
Definition silent : Factory := λ args, (JS.VUndefined, JS.VUndefined).

(** Listeners of which the second throws. *)
Definition faulty (cb : EventEmitter.callback) (_ : unit)
    : EventEmitter.t → EventEmitter.completion :=
  match cb with
  | 2 => EventEmitter.Throws
  | _ => EventEmitter.Returns
  end.

End Examples.


(** ** Lists and maps *)

Lemma forallb_map_to_list {A} (f : string * A → bool) (m : gmap string A) :
  forallb f (map_to_list m) = true ↔ ∀ k e, m !! k = Some e → f (k, e) = true.
Proof.
  rewrite forallb_forall. split.
  - intros H k e Hk. apply H, list_elem_of_In. by apply elem_of_map_to_list.
  - intros H [k e] Hin. apply H. apply elem_of_map_to_list.
    by apply list_elem_of_In.
Qed.

Lemma forallb_elem {A} (f : A → bool) (l : list A) :
  forallb f l = true ↔ ∀ x, x ∈ l → f x = true.
Proof.
  rewrite forallb_forall. split; intros H x Hx; apply H;
    by apply list_elem_of_In.
Qed.

(** ** PathResolver: the documented examples *)

Lemma split_segment a : JS.segment a = true → JS.split a = [a].
Proof.
  induction a as [|c a IH]; [done|]. simpl.
  intros [Hc Ha]%andb_true_iff. apply negb_true_iff in Hc. rewrite Hc.
  by rewrite (IH Ha).
Qed.

Lemma split_slash a rest :
  JS.segment a = true → JS.split (a +:+ "/" +:+ rest) = a :: JS.split rest.
Proof.
  induction a as [|c a IH]; [done|]. simpl.
  intros [Hc Ha]%andb_true_iff. apply negb_true_iff in Hc. rewrite Hc.
  by rewrite (IH Ha).
Qed.

Lemma resolvePath_relative a b x :
  JS.segment a = true → JS.segment b = true → JS.segment x = true →
  PathResolver.resolvePath (a +:+ "/" +:+ b) ("./" +:+ x) = a +:+ "/" +:+ x ∧
  PathResolver.resolvePath (a +:+ "/" +:+ b) ("../" +:+ x) = x ∧
  PathResolver.resolvePath (a +:+ "/" +:+ b) ("../../" +:+ x) = "../" +:+ x.
Proof.
  intros Ha Hb Hx. unfold PathResolver.resolvePath.
  rewrite (split_slash a b Ha), (split_segment b Hb).
  change ("./" +:+ x) with ("." +:+ "/" +:+ x).
  change ("../" +:+ x) with (".." +:+ "/" +:+ x).
  change ("../../" +:+ x) with (".." +:+ "/" +:+ ".." +:+ "/" +:+ x).
  rewrite !split_slash, (split_segment x Hx) by done.
  repeat split.
Qed.

(** C4, as the code has it: ["./x"] against ["a/b"] gives ["a/x"],
    ["../x"] gives ["x"], and ["../../x"] gives ["../x"], and so for any
    three segments in place of [a], [b] and [x]: when a [".."] meets an
    empty base, the segments from that [".."] on are kept as they are,
    whatever they are. *)
Theorem resolvePath_examples :
  PathResolver.resolvePath "a/b" "./x" = "a/x" ∧
  PathResolver.resolvePath "a/b" "../x" = "x" ∧
  PathResolver.resolvePath "a/b" "../../x" = "../x" ∧
  (∀ a b x,
     JS.segment a = true → JS.segment b = true → JS.segment x = true →
     PathResolver.resolvePath (a +:+ "/" +:+ b) ("./" +:+ x)
       = a +:+ "/" +:+ x ∧
     PathResolver.resolvePath (a +:+ "/" +:+ b) ("../" +:+ x) = x ∧
     PathResolver.resolvePath (a +:+ "/" +:+ b) ("../../" +:+ x)
       = "../" +:+ x) ∧
  ∀ rest, PathResolver.walk [] (".." :: rest) = ".." :: rest.
Proof.
  split; [reflexivity|]. split; [reflexivity|]. split; [reflexivity|].
  split; [apply resolvePath_relative|reflexivity].
Qed.

Lemma resolvePath_examples_witness :
  PathResolver.resolvePath "widgets/list" "./item" = "widgets/item" ∧
  PathResolver.resolvePath "widgets/list" "../item" = "item" ∧
  PathResolver.resolvePath "widgets/list" "../../item" = "../item".
Proof.
  destruct resolvePath_examples as (_ & _ & _ & H & _).
  apply (H "widgets" "list" "item"); reflexivity.
Defined.

(** C4, as the specification words it, fails on its third example. *)
Lemma resolvePath_overpop_not_x :
  PathResolver.resolvePath "a/b" "../../x" ≠ "x".
Proof. vm_compute. discriminate. Qed.

(** ** URLBuilder: the path of a module *)

(** C8 at its failing inputs: a two-character name gets no extension,
    and a name with an earlier [".js"] gets a second one. *)
Theorem getModulePath_misses_extension :
  (∀ c1 c2 deps cond,
     URLBuilder._getModulePath
       (set_name (String c1 (String c2 EmptyString)) (descriptor deps cond))
     = String c1 (String c2 EmptyString)) ∧
  URLBuilder._getModulePath (set_name "d3" (descriptor [] None)) = "d3" ∧
  URLBuilder._getModulePath
    (set_name "chart.js/Chart.js" (descriptor [] None))
  = "chart.js/Chart.js.js".
Proof.
  split; [| split; reflexivity].
  intros c1 c2 deps cond. unfold URLBuilder._getModulePath.
  cbn [path name descriptor set_name JS.truthyStr].
  assert (H : JS.indexOf ".js" (String c1 (String c2 EmptyString)) = (-1)%Z).
  { unfold JS.indexOf. cbn [String.index String.prefix].
    repeat (destruct (ascii_dec _ _); cbn [String.index String.prefix]);
      reflexivity. }
  rewrite H. reflexivity.
Qed.

(** ** EventEmitter: an emission calls the listeners it started with *)

Section EmitFacts.
Context {payload : Type}.
Variable behaviour :
  EventEmitter.callback → payload → EventEmitter.t → EventEmitter.completion.

Lemma emitLoop_calls n p em called :
  let out := EventEmitter.emitLoop behaviour n p em called in
  ∃ done, out.1.2 = called ++ done ∧ done `prefix_of` n ∧
          (out.2 = true → done = n).
Proof.
  revert em called. induction n as [|r n IH]; intros em called; simpl.
  - exists []. rewrite app_nil_r. done.
  - destruct (behaviour r p em) as [em'|em'].
    + destruct (IH em' (called ++ [r])) as (done & Heq & Hpre & Hret).
      exists (r :: done). rewrite Heq, <- app_assoc. simpl.
      split; [done|]. split; [by apply prefix_cons|].
      intros H. by rewrite Hret.
    + simpl. exists [r]. split; [done|]. split; [|done].
      apply prefix_cons, prefix_nil.
Qed.

Lemma emitLoop_returns n p em called :
  (∀ cb em0, cb ∈ n → ∃ em1, behaviour cb p em0 = EventEmitter.Returns em1) →
  (EventEmitter.emitLoop behaviour n p em called).2 = true.
Proof.
  revert em called.
  induction n as [|r n IH]; intros em called H; simpl; [done|].
  destruct (H r em) as [em1 ->]; [left|].
  apply IH. intros cb em0 Hin. apply H. by right.
Qed.

End EmitFacts.


(** ** URLBuilder: the URLs of a list of modules *)

Lemma append_assoc (a b c : string) : (a +:+ b) +:+ c = a +:+ (b +:+ c).
Proof.
  induction a as [|x a IH]; [done|].
  change (String x ((a +:+ b) +:+ c) = String x (a +:+ b +:+ c)).
  by f_equal.
Qed.

Lemma join_prefixed (i : string) (t : list string) :
  t ≠ [] → i +:+ JS.join ("&" +:+ i) t = JS.join "&" (map (λ p, i +:+ p) t).
Proof.
  induction t as [|x t IH]; [done|]. intros _.
  destruct t as [|y t]; [done|].
  change (JS.join ("&" +:+ i) (x :: y :: t))
    with (x +:+ ("&" +:+ i) +:+ JS.join ("&" +:+ i) (y :: t)).
  change (JS.join "&" (map (λ p, i +:+ p) (x :: y :: t)))
    with ((i +:+ x) +:+ "&" +:+ JS.join "&" (map (λ p, i +:+ p) (y :: t))).
  rewrite <- IH by done. by rewrite !append_assoc.
Qed.

Lemma pathOf_alter_load x o y :
  pathOf (alter (set_load true) x o) y = pathOf o y.
Proof.
  unfold pathOf. destruct (decide (x = y)) as [->|Hne].
  - rewrite lookup_alter_eq. by destruct (o !! y).
  - by rewrite lookup_alter_ne.
Qed.

Lemma plain_alter_load x o y :
  plain (alter (set_load true) x o) y = plain o y.
Proof.
  unfold plain. destruct (decide (x = y)) as [->|Hne].
  - rewrite lookup_alter_eq. by destruct (o !! y).
  - by rewrite lookup_alter_ne.
Qed.

Lemma collected_alter_load cfg i x o e t n :
  collected cfg i (alter (set_load true) x o) e t n = collected cfg i o e t n.
Proof.
  unfold collected. destruct (ConfigParser.combine cfg); f_equal; f_equal;
    apply map_ext; intros y; by rewrite pathOf_alter_load.
Qed.

Lemma collected_cons cfg i o x e t n :
  collected cfg i o (x :: e) t n =
    if ConfigParser.combine cfg
    then collected cfg i o e (t ++ [pathOf o x]) n
    else collected cfg i o e t
           (n ++ [directURL (ConfigParser.url cfg) i (pathOf o x)]).
Proof.
  unfold collected. destruct (ConfigParser.combine cfg); simpl;
    by rewrite <- app_assoc.
Qed.

Lemma buildLoop_spec cfg i e : ∀ t n o,
  (∀ x, x ∈ e → plain o x = true) →
  ∃ o', URLBuilder.buildLoop cfg i e t n o = Normal (collected cfg i o e t n) o' ∧
        (∀ x, x ∈ e → ∃ u, o' !! x = Some u ∧ load u = true) ∧
        (∀ x, x ∉ e → o' !! x = o !! x).
Proof.
  induction e as [|x e IH]; intros t n o H.
  - exists o. unfold collected. simpl. rewrite !app_nil_r.
    split; [by destruct (ConfigParser.combine cfg)|].
    split; [|done]. intros y Hy. by apply elem_of_nil in Hy.
  - pose proof (H x (list_elem_of_here _ _)) as Hx. unfold plain in Hx.
    destruct (o !! x) as [u|] eqn:Hu; [|done].
    apply negb_true_iff in Hx.
    assert (Hp : pathOf o x = URLBuilder._getModulePath u)
      by (unfold pathOf; by rewrite Hu).
    set (o1 := alter (set_load true) x o).
    assert (H1 : ∀ y, y ∈ e → plain o1 y = true).
    { intros y Hy. unfold o1. rewrite plain_alter_load. apply H. by right. }
    assert (Hdone : ∀ o' : gmap string ModuleDesc,
      (∀ y, y ∈ e → ∃ v, o' !! y = Some v ∧ load v = true) →
      (∀ y, y ∉ e → o' !! y = o1 !! y) →
      (∀ y, y ∈ x :: e → ∃ v, o' !! y = Some v ∧ load v = true) ∧
      (∀ y, y ∉ x :: e → o' !! y = o !! y)).
    { intros o' Hl Hfr. split.
      - intros y Hy. apply elem_of_cons in Hy as [->|Hy]; [|by apply Hl].
        destruct (decide (x ∈ e)) as [Hin|Hnin]; [by apply Hl|].
        rewrite Hfr by done. unfold o1. rewrite lookup_alter_eq, Hu. simpl.
        by eexists.
      - intros y Hy. rewrite Hfr by (intros ?; apply Hy; by right).
        unfold o1. rewrite lookup_alter_ne; [done|]. intros ->. apply Hy. left. }
    simpl. rewrite Hu, Hx, collected_cons, Hp. fold o1.
    destruct (ConfigParser.combine cfg).
    + destruct (IH (t ++ [URLBuilder._getModulePath u]) n o1 H1)
        as (o' & -> & Hl & Hfr).
      exists o'. unfold o1 at 1. rewrite collected_alter_load.
      split; [done|]. by apply Hdone.
    + destruct (IH t (n ++ [ConfigParser.url cfg +:+ i +:+
                              URLBuilder._getModulePath u]) o1 H1)
        as (o' & -> & Hl & Hfr).
      exists o'. unfold o1 at 1. rewrite collected_alter_load.
      split; [done|]. by apply Hdone.
Qed.

(** C5, as the code has it: for modules that are registered and carry
    no [fullPath], [build] returns, when [combine] is on, nothing for the
    empty list and otherwise the single combined URL; when [combine] is
    off, one direct URL per module.  The base is [basePath] with a slash
    appended unless it ends in one.  Every listed module is flagged
    [load]. *)
Theorem build_urls cp e :
  forallb (plain (ConfigParser._modules cp)) e = true →
  let cfg := ConfigParser._config cp in
  let base := URLBuilder.slashed (ConfigParser.basePath cfg) in
  let paths := map (pathOf (ConfigParser._modules cp)) e in
  ∃ cp',
    URLBuilder.build e cp =
      Normal (if ConfigParser.combine cfg
              then match e with
                   | [] => []
                   | _ => [combinedURL (ConfigParser.url cfg) base paths]
                   end
              else map (directURL (ConfigParser.url cfg) base) paths) cp' ∧
    (∀ x, x ∈ e → ∃ u, ConfigParser._modules cp' !! x = Some u ∧ load u = true).
Proof.
  intros Hb cfg base paths.
  assert (H : ∀ x, x ∈ e → plain (ConfigParser._modules cp) x = true).
  { by apply forallb_elem. }
  unfold URLBuilder.build. fold cfg. fold base.
  destruct (buildLoop_spec cfg base e [] [] _ H) as (o' & -> & Hl & _).
  exists (ConfigParser.with_modules o' cp). split; [|done].
  unfold collected. destruct (ConfigParser.combine cfg).
  - destruct e as [|x e]; [done|].
    unfold combinedURL. rewrite <- (join_prefixed base paths) by done.
    reflexivity.
  - simpl. unfold paths. by rewrite map_map.
Qed.

Lemma build_urls_witness :
  ∃ cp', URLBuilder.build ["mod1"; "mod2"] Examples.twoModules =
           Normal ["http://h/combo?/base/mod1.js&/base/mod2.js"] cp'.
Proof.
  destruct (build_urls Examples.twoModules ["mod1"; "mod2"]) as (cp' & H & _);
    [reflexivity|].
  exists cp'. rewrite H. vm_compute. reflexivity.
Defined.

(** C5, as the specification words it, fails: with the base path
    ["/base"] the combined URL is not [url + "?" + basePath + path ...],
    and for the empty list there is no URL at all. *)
Lemma build_not_the_stated_form :
  let cp := Examples.twoModules in
  let cfg := ConfigParser._config cp in
  (¬ ∃ cp', URLBuilder.build ["mod1"; "mod2"] cp =
             Normal [combinedURL (ConfigParser.url cfg)
                                 (ConfigParser.basePath cfg)
                                 (map (pathOf (ConfigParser._modules cp))
                                      ["mod1"; "mod2"])] cp') ∧
  (¬ ∃ u cp', URLBuilder.build [] cp = Normal [u] cp').
Proof.
  split.
  - intros [cp' H]. vm_compute in H. discriminate H.
  - intros (u & cp' & H). vm_compute in H. discriminate H.
Qed.

(** ** Loader: a declared module has its dependencies resolved twice *)

Lemma addModule_stores e cp :
  ConfigParser._modules (ConfigParser.addModule e cp) !! name e
  = Some (ConfigParser.resolvePath e).
Proof.
  unfold ConfigParser.addModule, ConfigParser._registerConditionalModule.
  destruct (condition (ConfigParser.resolvePath e)); simpl;
    apply lookup_insert_eq.
Qed.

Lemma factoryArgs_state deps : ∀ n t cp a cp',
  Loader.factoryArgs deps n t cp = Normal a cp' → cp' = cp.
Proof.
  induction deps as [|u deps IH]; intros n t cp a cp' H; simpl in H.
  - by inversion H.
  - destruct (decide (u = "exports")); [by eapply IH|].
    destruct (Loader.getModules cp !! u); [by eapply IH|done].
Qed.

Lemma factoryArgs_returns deps : ∀ n t cp,
  (∀ x, x ∈ deps → x ≠ "exports" → is_Some (Loader.getModules cp !! x)) →
  ∃ a, Loader.factoryArgs deps n t cp = Normal a cp.
Proof.
  induction deps as [|u deps IH]; intros n t cp H; simpl.
  - by eexists.
  - destruct (decide (u = "exports")).
    + apply IH. intros x Hx. apply H. by right.
    + destruct (H u) as [a Ha]; [left|done|]. rewrite Ha.
      apply IH. intros x Hx. apply H. by right.
Qed.

Lemma checkLoop_state l cp u cp' :
  Loader.checkLoop l cp = Normal u cp' → cp' = cp.
Proof.
  induction l as [|i l IH]; simpl; intros H; [by inversion H|].
  destruct (decide (i = "exports")); [by apply IH|].
  destruct (Loader.getModules cp !! i); [|done].
  destruct (JS.truthy _); [by apply IH|by inversion H].
Qed.

Lemma registerModule_stores s cp ev cp' :
  Loader._registerModule s cp = Normal ev cp' →
  ConfigParser._modules cp' !! name s = Some (snd ev) ∧
  dependencies (snd ev) =
    map (PathResolver.resolvePath (name s)) (dependencies s).
Proof.
  unfold Loader._registerModule, mbind, M_bind.
  destruct (Loader.factoryArgs (dependencies s) [] false cp)
    as [a cp1| |] eqn:Ha; [|done|done].
  apply factoryArgs_state in Ha as ->.
  unfold Loader.applyFactory, throw.
  destruct (pendingImplementation s) as [f|]; [|done].
  destruct (f a.1) as [c exports]. intros H. inversion H; subst; clear H.
  set (e' := set_implementation _ s).
  pose proof (addModule_stores e' cp) as Hs.
  change (name e') with (name s) in Hs.
  unfold Loader.getModules. simpl. rewrite Hs. simpl. done.
Qed.

(** C9: the descriptor [define] builds for the name [e] and the
    dependencies [t] carries [resolvePath(e, -)] of each of them; once
    it is registered, which happens whenever its dependencies other than
    ["exports"] are registered, the descriptor stored under [e] carries
    [resolvePath(e, -)] applied twice.  So ["./c"] declared by ["a/b"]
    is stored as ["a/a/c"]. *)
Theorem define_resolves_twice e t n o cp :
  let s := Loader.defineDescriptor e t n o in
  let twice := map (λ x, PathResolver.resolvePath e
                           (PathResolver.resolvePath e x)) t in
  name s = e ∧
  dependencies s = map (PathResolver.resolvePath e) t ∧
  (∀ ev cp', Loader._registerModule s cp = Normal ev cp' →
     ∃ d, ConfigParser._modules cp' !! e = Some d ∧ dependencies d = twice) ∧
  (∀ d cp', Loader.define e t n o cp = Normal (Loader.Registered d) cp' →
     ConfigParser._modules cp' !! e = Some d ∧ dependencies d = twice) ∧
  ((∀ x, x ∈ dependencies s → x ≠ "exports" →
         is_Some (ConfigParser._modules cp !! x)) →
   ∃ ev cp', Loader._registerModule s cp = Normal ev cp') ∧
  PathResolver.resolvePath "a/b" "./c" = "a/c" ∧
  PathResolver.resolvePath "a/b" "a/c" = "a/a/c".
Proof.
  intros s twice.
  assert (Hn : name s = e) by reflexivity.
  assert (Hd : dependencies s = map (PathResolver.resolvePath e) t)
    by reflexivity.
  assert (Hr : ∀ ev cp', Loader._registerModule s cp = Normal ev cp' →
     ConfigParser._modules cp' !! e = Some (snd ev) ∧
     dependencies (snd ev) = twice).
  { intros ev cp' H. apply registerModule_stores in H as [H1 H2].
    rewrite Hn in H1, H2. split; [done|].
    rewrite H2, Hd. unfold twice. by rewrite map_map. }
  split; [done|]. split; [done|]. split; [|split; [|split]].
  - intros ev cp' H. exists (snd ev). by apply Hr.
  - intros d cp'. unfold Loader.define. fold s. unfold mbind, M_bind, mret, M_ret.
    destruct (Loader._checkModuleDependencies s cp) as [[|] cp1| |] eqn:Hc;
      [|done..].
    apply checkLoop_state in Hc as ->.
    destruct (Loader._registerModule s cp) as [ev cp2| |] eqn:Hreg; [|done..].
    intros H. injection H as <- <-. by apply Hr.
  - intros H. unfold Loader._registerModule, mbind, M_bind.
    destruct (factoryArgs_returns (dependencies s) [] false cp H) as [a ->].
    unfold Loader.applyFactory. simpl.
    destruct (n a.1). by eexists _, _.
  - done.
Qed.

Lemma define_resolves_twice_witness :
  ∃ d cp', Examples.afterDefine = Normal (Loader.Registered d) cp' ∧
           ConfigParser._modules cp' !! "a/b" = Some d ∧
           dependencies d = ["a/a/c"].
Proof.
  destruct Examples.afterDefine as [[d|d] cp'|x cp'|] eqn:E;
    try (vm_compute in E; discriminate E).
  exists d, cp'. split; [reflexivity|].
  apply (define_resolves_twice "a/b" ["./c"] Examples.factory None
           Examples.oneImplemented).
  exact E.
Defined.

(** ** Reasoning about calls *)

Section Calls.
Context {S A B : Type}.

Lemma wp_ret (a : A) (Q : A → S → Prop) E s : Q a s → wp (mret a) Q E s.
Proof. done. Qed.

Lemma wp_bind (c : M S A) (k : A → M S B) Q E s :
  wp c (λ a s', wp (k a) Q E s') E s → wp (c ≫= k) Q E s.
Proof.
  unfold wp, mbind, M_bind. by destruct (c s).
Qed.

Lemma wp_mono (c : M S A) (Q Q' : A → S → Prop) (E E' : exn → S → Prop) s :
  (∀ a s', Q a s' → Q' a s') → (∀ e s', E e s' → E' e s') →
  wp c Q E s → wp c Q' E' s.
Proof. unfold wp. destruct (c s); eauto. Qed.

Lemma wp_conj (c : M S A) (Q Q' : A → S → Prop) (E E' : exn → S → Prop) s :
  wp c Q E s → wp c Q' E' s →
  wp c (λ a s', Q a s' ∧ Q' a s') (λ e s', E e s' ∧ E' e s') s.
Proof. unfold wp. destruct (c s); eauto. Qed.

Lemma wp_wlp (c : M S A) Q E s : wp c Q E s → wlp c Q E s.
Proof. unfold wp, wlp. by destruct (c s). Qed.
End Calls.

(** A loop whose turns keep [I], move the state along a preorder [R]
    and each establish a fact [P x] that [R] preserves. *)
Lemma wp_forEach {S A} (I : S → Prop) (R : S → S → Prop)
    (P : A → S → Prop) (E : exn → S → Prop) (body : A → M S unit) l :
  (∀ s, R s s) → (∀ s1 s2 s3, R s1 s2 → R s2 s3 → R s1 s3) →
  (∀ x s s', P x s → R s s' → P x s') →
  (∀ x s, x ∈ l → I s → wp (body x) (λ _ s', I s' ∧ R s s' ∧ P x s') E s) →
  ∀ s, I s →
    wp (forEach body l) (λ _ s', I s' ∧ R s s' ∧ ∀ x, x ∈ l → P x s') E s.
Proof.
  intros Hrefl Htrans Hstable.
  induction l as [|x l IH]; intros Hbody s HI.
  - simpl. apply wp_ret. split; [done|]. split; [done|].
    intros x Hx. by apply elem_of_nil in Hx.
  - simpl. apply wp_bind.
    eapply wp_mono; [| |apply (Hbody x s); [left|done]]; [|done].
    intros _ s1 (HI1 & HR1 & HP1). simpl.
    eapply wp_mono; [| |apply IH; [|exact HI1]]; [|done|].
    + intros _ s2 (HI2 & HR2 & HP2). split; [done|].
      split; [by eapply Htrans|].
      intros y Hy. apply elem_of_cons in Hy as [->|Hy]; [|by apply HP2].
      by eapply Hstable.
    + intros y s' Hy. apply Hbody. by right.
Qed.

Import DependencyBuilder Pass.

(** ** DependencyBuilder: what a pass keeps *)

Lemma clearMarks_fields e e' :
  clearMarks e = clearMarks e' →
  name e = name e' ∧ dependencies e = dependencies e' ∧
  condition e = condition e'.
Proof.
  intros H. split; [|split].
  - exact (f_equal name H).
  - exact (f_equal dependencies H).
  - exact (f_equal condition H).
Qed.

Lemma erased_modules s s' :
  erased s' = erased s →
  clearMarks <$> getModules s' = clearMarks <$> getModules s.
Proof. intros H. exact (f_equal ConfigParser._modules H). Qed.

Lemma erased_conditionals s s' :
  erased s' = erased s →
  getConditionalModules s' = getConditionalModules s.
Proof. intros H. exact (f_equal ConfigParser._conditionalModules H). Qed.

Lemma erased_lookup s s' k e' :
  erased s' = erased s → getModules s' !! k = Some e' →
  ∃ e, getModules s !! k = Some e ∧ clearMarks e = clearMarks e'.
Proof.
  intros H Hk. apply erased_modules in H.
  pose proof (f_equal (λ m, m !! k) H) as Hl. simpl in Hl.
  rewrite !lookup_fmap, Hk in Hl. simpl in Hl.
  destruct (getModules s !! k) as [e|]; [|done].
  exists e. split; [done|]. simpl in Hl. congruence.
Qed.

Lemma erased_size s s' :
  erased s' = erased s → size (getModules s') = size (getModules s).
Proof.
  intros H. apply erased_modules in H.
  rewrite <- (map_size_fmap clearMarks (getModules s')).
  rewrite <- (map_size_fmap clearMarks (getModules s)). by rewrite H.
Qed.

Lemma named_erased s s' x :
  erased s' = erased s → named s' x → named s x.
Proof.
  intros H (k & r & Hk & Hn).
  destruct (erased_lookup s s' k r H Hk) as (e & He & Hc).
  exists k, e. split; [done|].
  apply clearMarks_fields in Hc as (-> & _). done.
Qed.

Lemma elem_of_tmpSet s k :
  k ∈ tmpSet s ↔ ∃ e, getModules s !! k = Some e ∧ tmpMark e = true.
Proof.
  unfold tmpSet. rewrite elem_of_dom. unfold is_Some.
  setoid_rewrite map_lookup_filter_Some. simpl.
  split; [intros (e & He & Ht)|intros (e & He & Ht)]; by exists e.
Qed.

Lemma tmpSet_size s : size (tmpSet s) ≤ size (getModules s).
Proof.
  rewrite <- (size_dom (D := gset string) (getModules s)).
  apply subseteq_size. unfold tmpSet. apply dom_filter_subseteq.
Qed.


Lemma erased_assigned f k s :
  (∀ e, clearMarks (f e) = clearMarks e) →
  erased (assigned f k s) = erased s.
Proof.
  intros Hf. unfold erased, _cleanup, assigned, ConfigParser.with_modules.
  simpl. f_equal.
  apply map_eq. intros i. unfold getModules. simpl.
  rewrite !lookup_fmap. destruct (decide (k = i)) as [->|Hne].
  - rewrite lookup_alter_eq. destruct (ConfigParser._modules _ !! i); simpl; [|done].
    by rewrite Hf.
  - by rewrite lookup_alter_ne.
Qed.

Lemma tmpSet_assigned_same f k s :
  (∀ e, tmpMark (f e) = tmpMark e) → tmpSet (assigned f k s) = tmpSet s.
Proof.
  intros Hf. apply set_eq. intros x. rewrite !elem_of_tmpSet.
  unfold assigned, getModules. simpl.
  destruct (decide (k = x)) as [->|Hne].
  - rewrite lookup_alter_eq. destruct (ConfigParser._modules _ !! x) as [e|]; simpl.
    + split; intros (e' & He & Ht).
      * inversion He; subst. rewrite Hf in Ht. eauto.
      * inversion He; subst. exists (f e'). by rewrite Hf.
    + split; intros (e' & He & _); done.
  - by rewrite lookup_alter_ne.
Qed.

Lemma tmpSet_assigned_on k s e :
  getModules s !! k = Some e →
  tmpSet (assigned (set_tmpMark true) k s) = {[k]} ∪ tmpSet s.
Proof.
  intros Hk. apply set_eq. intros x.
  rewrite elem_of_union, elem_of_singleton, !elem_of_tmpSet.
  unfold assigned, getModules. simpl.
  destruct (decide (k = x)) as [->|Hne].
  - rewrite lookup_alter_eq. unfold getModules in Hk. rewrite Hk. simpl.
    split; [by left|]. intros _. eexists. split; [done|]. done.
  - rewrite lookup_alter_ne by done.
    split; [by right|]. intros [Heq|H]; [by subst|done].
Qed.

Lemma tmpSet_assigned_off k s :
  tmpSet (assigned (λ m, set_tmpMark false (set_mark true m)) k s)
  = tmpSet s ∖ {[k]}.
Proof.
  apply set_eq. intros x.
  rewrite elem_of_difference, elem_of_singleton, !elem_of_tmpSet.
  unfold assigned, getModules. simpl.
  destruct (decide (k = x)) as [->|Hne].
  - rewrite lookup_alter_eq. split; [|by intros [_ ?]].
    intros (e' & He & Ht).
    destruct (ConfigParser._modules _ !! x) as [e|]; [|done].
    simpl in He. injection He as <-. done.
  - rewrite lookup_alter_ne by done. split; [|by intros [? _]].
    intros H. split; [done|]. by intros ->.
Qed.

Lemma enter_leave (k : string) (T : gset string) :
  k ∉ T → ({[k]} ∪ T) ∖ {[k]} = T.
Proof.
  intros Hk. apply set_eq. intros x.
  rewrite elem_of_difference, elem_of_union, !elem_of_singleton. split.
  - by intros [[?|?] ?].
  - intros Hx. split; [by right|]. by intros ->.
Qed.

Lemma extends_same s s' : _queue s' = _queue s → extends s s'.
Proof.
  intros H. exists []. rewrite app_nil_r. split; [done|].
  split; [constructor|]. intros x Hx. by apply elem_of_nil in Hx.
Qed.

Lemma extends_refl s : extends s s.
Proof. by apply extends_same. Qed.

Lemma extends_trans s1 s2 s3 :
  erased s2 = erased s1 → extends s1 s2 → extends s2 s3 → extends s1 s3.
Proof.
  intros He (e1 & Hq1 & Hn1 & Hx1) (e2 & Hq2 & Hn2 & Hx2).
  exists (e1 ++ e2). rewrite Hq2, Hq1, <- app_assoc. split; [done|]. split.
  - apply NoDup_app. split; [done|]. split; [|done].
    intros x Hin1 Hin2. destruct (Hx2 x Hin2) as [Hnot _].
    apply Hnot. rewrite Hq1. apply elem_of_app. by right.
  - intros x [Hin|Hin]%elem_of_app; [by apply Hx1|].
    destruct (Hx2 x Hin) as [Hnot Hnamed]. split.
    + intros Hq. apply Hnot. rewrite Hq1. apply elem_of_app. by left.
    + by eapply named_erased.
Qed.

Lemma grows_same s s' : _result s' = _result s → grows s s'.
Proof. intros H. by exists []. Qed.

Lemma grows_refl s : grows s s.
Proof. by apply grows_same. Qed.

Lemma grows_trans s1 s2 s3 : grows s1 s2 → grows s2 s3 → grows s1 s3.
Proof.
  intros (n1 & H1) (n2 & H2). exists (n2 ++ n1).
  by rewrite H2, H1, app_assoc.
Qed.

Lemma frame_refl s : frame s s.
Proof. split; [done|]. split; [apply extends_refl|apply grows_refl]. Qed.

Lemma frame_trans s1 s2 s3 : frame s1 s2 → frame s2 s3 → frame s1 s3.
Proof.
  intros (He1 & Hx1 & Hg1) (He2 & Hx2 & Hg2). split; [congruence|].
  split; [by eapply extends_trans|by eapply grows_trans].
Qed.

Lemma frame_assigned f k s :
  (∀ e, clearMarks (f e) = clearMarks e) → frame s (assigned f k s).
Proof.
  intros Hf. split; [by apply erased_assigned|].
  split; [by apply extends_same|by apply grows_same].
Qed.


Lemma queued_refl s : queued s s.
Proof. split; [done|]. split; [done|]. apply extends_refl. Qed.

Lemma queued_erased s s' : queued s s' → erased s' = erased s.
Proof.
  intros (Hc & _ & _). unfold erased, _cleanup, getModules. simpl.
  by rewrite Hc.
Qed.

Lemma queued_trans s1 s2 s3 : queued s1 s2 → queued s2 s3 → queued s1 s3.
Proof.
  intros H1 H2. pose proof (queued_erased _ _ H1) as He.
  destruct H1 as (Hc1 & Hr1 & Hx1), H2 as (Hc2 & Hr2 & Hx2).
  split; [congruence|]. split; [congruence|]. by eapply extends_trans.
Qed.

Lemma queued_frame s s' : queued s s' → frame s s'.
Proof.
  intros H. split; [by apply queued_erased|].
  destruct H as (_ & Hr & Hx). split; [done|]. by apply grows_same.
Qed.

Lemma queued_tmpSet s s' : queued s s' → tmpSet s' = tmpSet s.
Proof. intros (Hc & _ & _). unfold tmpSet, getModules. by rewrite Hc. Qed.

Lemma considerConditional_queued dep s :
  wp (considerConditional dep) (λ _ s', queued s s') (λ _ s', s' = s) s.
Proof.
  unfold wp, considerConditional.
  destruct (getModules s !! dep) as [r|] eqn:Hr; [|done].
  destruct (decide (name r ∈ _queue s)) as [Hin|Hnin]; [apply queued_refl|].
  destruct (condition r) as [c|]; [|done].
  destruct (_testConditionalModule c); [|apply queued_refl].
  simpl. split; [done|]. split; [done|].
  exists [name r]. split; [done|]. split; [apply NoDup_singleton|].
  intros x ->%list_elem_of_singleton. split; [done|]. by exists dep, r.
Qed.

Lemma forEach_considerConditional_queued l s :
  wp (forEach considerConditional l) (λ _ s', queued s s')
     (λ _ s', queued s s') s.
Proof.
  pose proof (wp_forEach (λ s', queued s s') queued (λ _ _, True)
                (λ _ s', queued s s') considerConditional l) as H.
  eapply wp_mono; [| |apply H]; try done.
  - intros a s' (? & _). done.
  - apply queued_refl.
  - apply queued_trans.
  - intros x s1 Hx H1.
    eapply wp_mono; [| |apply considerConditional_queued].
    + intros a s2 H2. simpl. split; [by eapply queued_trans|done].
    + intros a s2 Heq. simpl in Heq. by rewrite Heq.
  - apply queued_refl.
Qed.

Lemma clearMarks_conditionalMark b e :
  clearMarks (set_conditionalMark b e) = clearMarks e.
Proof. reflexivity. Qed.

Lemma clearMarks_tmpMark b e : clearMarks (set_tmpMark b e) = clearMarks e.
Proof. reflexivity. Qed.

Lemma clearMarks_done e :
  clearMarks (set_tmpMark false (set_mark true e)) = clearMarks e.
Proof. reflexivity. Qed.

Lemma processConditionalModules_frame k s :
  wp (_processConditionalModules k)
     (λ _ s', frame s s' ∧ tmpSet s' = tmpSet s)
     (λ _ s', erased s' = erased s) s.
Proof.
  unfold wp, _processConditionalModules.
  destruct (getModules s !! k) as [e|] eqn:He; [|done].
  destruct (getConditionalModules s !! name e) as [t|];
    [|split; [apply frame_refl|done]].
  destruct (conditionalMark e); [split; [apply frame_refl|done]|].
  unfold mbind, M_bind.
  pose proof (forEach_considerConditional_queued t s) as H. unfold wp in H.
  destruct (forEach considerConditional t s) as [[] s1|x s1|]; [| |done].
  - unfold update. fold (assigned (set_conditionalMark true) k s1). split.
    + eapply frame_trans; [by apply queued_frame|].
      apply frame_assigned. intros ?. apply clearMarks_conditionalMark.
    + rewrite tmpSet_assigned_same by done. by apply queued_tmpSet.
  - by apply queued_erased.
Qed.


Lemma wp_update {A} f k (c : M t A) Q E s :
  wp c Q E (assigned f k s) → wp (update f k ;; c) Q E s.
Proof. done. Qed.

Lemma wp_unshift x Q E s :
  Q tt (unshifted x s) → wp (unshift x) Q E s.
Proof. done. Qed.

Lemma frame_unshifted x s : frame s (unshifted x s).
Proof.
  split; [done|]. split; [by apply extends_same|]. by exists [x].
Qed.

Lemma erased_lookup_back s s' k e :
  erased s' = erased s → getModules s !! k = Some e →
  ∃ e', getModules s' !! k = Some e' ∧ clearMarks e' = clearMarks e.
Proof. intros H. by apply erased_lookup. Qed.

Lemma inBudget_zero s : ¬ inBudget 0 s.
Proof. unfold inBudget. pose proof (tmpSet_size s). lia. Qed.

Lemma inBudget_frame fuel s s' :
  erased s' = erased s → tmpSet s' = tmpSet s →
  inBudget fuel s → inBudget fuel s'.
Proof.
  unfold inBudget. intros He Ht. by rewrite (erased_size _ _ He), Ht.
Qed.

Lemma inBudget_enter fuel k s e :
  getModules s !! k = Some e → tmpMark e = false →
  inBudget (S fuel) s → inBudget fuel (assigned (set_tmpMark true) k s).
Proof.
  intros Hk Ht. unfold inBudget.
  rewrite (tmpSet_assigned_on k s e Hk).
  rewrite (erased_size s (assigned (set_tmpMark true) k s))
    by (apply erased_assigned; intros ?; apply clearMarks_tmpMark).
  rewrite size_union, size_singleton; [lia|].
  apply disjoint_singleton_l. rewrite elem_of_tmpSet.
  intros (e' & He' & Ht'). congruence.
Qed.

Lemma visit_frame fuel : ∀ k s,
  inBudget fuel s →
  wp (_visit fuel k) (λ _ s', frame s s' ∧ tmpSet s' = tmpSet s)
     (λ _ s', erased s' = erased s) s.
Proof.
  induction fuel as [|fuel IH]; intros k s Hb.
  { by apply inBudget_zero in Hb. }
  unfold wp at 1. simpl.
  destruct (getModules s !! k) as [e|] eqn:He; [|done].
  destruct (tmpMark e) eqn:Htmp; [done|].
  change (wp (_processConditionalModules k ;;
              if mark e then mret tt
              else update (set_tmpMark true) k ;;
                   forEach (λ o, if decide (o = "exports") then mret tt
                                 else _visit fuel o) (dependencies e) ;;
                   update (λ m, set_tmpMark false (set_mark true m)) k ;;
                   unshift (name e))
             (λ _ s', frame s s' ∧ tmpSet s' = tmpSet s)
             (λ _ s', erased s' = erased s) s).
  apply wp_bind.
  eapply wp_mono; [| |apply processConditionalModules_frame]; [|done].
  intros [] s1 (Hf1 & Ht1). simpl.
  destruct (mark e); [by apply wp_ret|].
  destruct (erased_lookup_back s s1 k e (proj1 Hf1) He) as (e1 & He1 & Hc1).
  assert (Htmp1 : tmpMark e1 = false).
  { destruct (tmpMark e1) eqn:Hx; [|done].
    assert (k ∈ tmpSet s) as Hin by (rewrite <- Ht1; apply elem_of_tmpSet; eauto).
    apply elem_of_tmpSet in Hin as (e' & He' & Ht'). congruence. }
  apply wp_update. set (s2 := assigned (set_tmpMark true) k s1).
  assert (Hf2 : frame s1 s2)
    by (apply frame_assigned; intros ?; apply clearMarks_tmpMark).
  assert (Ht2 : tmpSet s2 = {[k]} ∪ tmpSet s1) by by eapply tmpSet_assigned_on.
  assert (Hb2 : inBudget fuel s2).
  { eapply inBudget_enter; [done..|].
    eapply inBudget_frame; [apply Hf1|done|done]. }
  apply wp_bind.
  pose proof (wp_forEach (λ s', frame s2 s' ∧ tmpSet s' = tmpSet s2)
                (λ _ _, True) (λ _ _, True)
                (λ _ s', erased s' = erased s2)
                (λ o, if decide (o = "exports") then mret tt
                      else _visit fuel o) (dependencies e)) as Hloop.
  eapply wp_mono; [| |apply Hloop]; try done.
  - intros [] s3 ((Hf3 & Ht3) & _). simpl.
    apply wp_update. apply wp_unshift.
    set (s4 := assigned _ k s3).
    assert (Hf4 : frame s3 s4)
      by (apply frame_assigned; intros ?; apply clearMarks_done).
    split.
    + eapply frame_trans; [exact Hf1|]. eapply frame_trans; [exact Hf2|].
      eapply frame_trans; [exact Hf3|]. eapply frame_trans; [exact Hf4|].
      apply frame_unshifted.
    + change (tmpSet (unshifted (name e) s4)) with (tmpSet s4).
      unfold s4. rewrite tmpSet_assigned_off, Ht3, Ht2, <- Ht1.
      assert (k ∉ tmpSet s1).
      { rewrite elem_of_tmpSet. intros (e' & He' & Ht'). congruence. }
      by apply enter_leave.
  - intros x s3 Hx. simpl in Hx. rewrite Hx.
    destruct Hf2 as (-> & _). by destruct Hf1.
  - intros o s' Ho (Hf' & Ht').
    destruct (decide (o = "exports")).
    + by apply wp_ret.
    + eapply wp_mono; [| |apply IH].
      * intros a s'' (Hf'' & Ht''). simpl. split; [|done].
        split; [by eapply frame_trans|congruence].
      * intros a s'' Hx. simpl in Hx. rewrite Hx. by destruct Hf'.
      * eapply inBudget_frame; [apply Hf'|done|done].
  - split; [apply frame_refl|done].
Qed.

Lemma named_length s ext :
  NoDup ext → (∀ x, x ∈ ext → named s x) → length ext ≤ size (getModules s).
Proof.
  intros Hnd Hn.
  rewrite <- (length_map_to_list (getModules s)).
  rewrite <- (length_fmap (λ kv, name kv.2) (map_to_list (getModules s))).
  apply submseteq_length, NoDup_submseteq; [done|].
  intros x Hx. destruct (Hn x Hx) as (k & r & Hk & Hr).
  apply list_elem_of_fmap. exists (k, r). split; [done|].
  by apply elem_of_map_to_list.
Qed.

Lemma queue_bound s0 s :
  frame s0 s →
  length (_queue s) ≤ length (_queue s0) + size (getModules s0).
Proof.
  intros (_ & (ext & -> & Hnd & Hx) & _). rewrite length_app.
  pose proof (named_length s0 ext Hnd (λ x H, proj2 (Hx x H))). lia.
Qed.

Lemma inBudget_depth s0 s :
  erased s = erased s0 → inBudget (depthBudget s0) s.
Proof.
  intros He. unfold inBudget, depthBudget. rewrite (erased_size _ _ He). lia.
Qed.

Lemma resolveFrom_frame s0 fuel : ∀ i s,
  frame s0 s → i ≤ length (_queue s) →
  length (_queue s0) + size (getModules s0) < fuel + i →
  wp (resolveFrom fuel (depthBudget s0) i) (λ _ s', frame s0 s')
     (λ _ s', erased s' = erased s0) s.
Proof.
  induction fuel as [|fuel IH]; intros i s Hf Hi Hb.
  { pose proof (queue_bound s0 s Hf). simpl in Hb. lia. }
  unfold wp at 1. simpl.
  destruct (_queue s !! i) as [k|] eqn:Hk; [|done].
  destruct (getModules s !! k) as [n|] eqn:Hn; [|by destruct Hf].
  change (wp ((if mark n then mret tt else _visit (depthBudget s0) k) ;;
              resolveFrom fuel (depthBudget s0) (S i))
             (λ _ s', frame s0 s') (λ _ s', erased s' = erased s0) s).
  apply wp_bind.
  assert (Hstep : wp (if mark n then mret tt else _visit (depthBudget s0) k)
                     (λ _ s', frame s s') (λ _ s', erased s' = erased s) s).
  { destruct (mark n); [apply wp_ret, frame_refl|].
    eapply wp_mono; [| |apply visit_frame]; [by intros ? ? []|done|].
    apply inBudget_depth. by destruct Hf. }
  eapply wp_mono; [| |exact Hstep].
  - intros a s1 Hf1. simpl. apply IH.
    + by eapply frame_trans.
    + destruct Hf1 as (_ & (ext & -> & _) & _). rewrite length_app.
      apply lookup_lt_Some in Hk. lia.
    + lia.
  - intros x s1 Hx. simpl in Hx. rewrite Hx. by destruct Hf.
Qed.

Lemma cleanup_erased s :
  _cleanup s = {| _configParser := erased s; _queue := []; _result := [] |}.
Proof. reflexivity. Qed.

(** The outcome of a pass, whatever the registry: it ends, and the
    builder it leaves has every flag cleared and nothing else changed. *)
Lemma resolveDependencies_total e b :
  wp (resolveDependencies e)
     (λ _ b', b' = _cleanup b) (λ _ b', b' = _cleanup b) b.
Proof.
  unfold wp, resolveDependencies, _resolveDependencies.
  pose proof (resolveFrom_frame (seed e b) (turnBudget (seed e b)) 0 (seed e b)
                (frame_refl _)) as H.
  unfold wp in H.
  assert (Hc : ∀ s, erased s = erased (seed e b) → _cleanup s = _cleanup b).
  { intros s Hs. rewrite (cleanup_erased s), (cleanup_erased b), Hs. done. }
  destruct (resolveFrom _ _ 0 (seed e b)) as [[] s|x s|].
  - apply Hc, H; [simpl; lia|unfold turnBudget; lia].
  - apply Hc, H; [simpl; lia|unfold turnBudget; lia].
  - apply H; [simpl; lia|unfold turnBudget; lia].
Qed.

(** ** DependencyBuilder: what a pass over a well-formed registry does *)

Section Correct.
Variable cp0 : ConfigParser.t.
Abbreviation G := (Pass.G cp0).
Abbreviation C := (Pass.C cp0).

Hypothesis Hnames : ∀ k e, G !! k = Some e → name e = k.
Hypothesis Hclosed : ∀ k d, Graph.depends G k d → Graph.registered G d.
Hypothesis Hconds : ∀ t l b, C !! t = Some l → b ∈ l →
  ∃ r c, G !! b = Some r ∧ condition r = Some c.

Lemma lookup_G s k e :
  erased s = erased (new cp0) → getModules s !! k = Some e →
  ∃ e0, G !! k = Some e0 ∧ name e = name e0 ∧
        dependencies e = dependencies e0 ∧ condition e = condition e0.
Proof.
  intros Hs Hk.
  destruct (erased_lookup (new cp0) s k e Hs Hk) as (e0 & He0 & Hc).
  exists e0. split; [done|].
  apply clearMarks_fields in Hc as (? & ? & ?). done.
Qed.

Lemma lookup_s s k e0 :
  erased s = erased (new cp0) → G !! k = Some e0 →
  ∃ e, getModules s !! k = Some e ∧ name e = name e0 ∧
       dependencies e = dependencies e0 ∧ condition e = condition e0.
Proof.
  intros Hs Hk.
  destruct (erased_lookup s (new cp0) k e0 (eq_sym Hs) Hk) as (e & He & Hc).
  exists e. split; [done|].
  apply clearMarks_fields in Hc as (? & ? & ?). done.
Qed.

Lemma conditionals_s s :
  erased s = erased (new cp0) → getConditionalModules s = C.
Proof. intros Hs. by apply erased_conditionals in Hs. Qed.

Lemma lookup_assigned f k s k' :
  getModules (assigned f k s) !! k' =
    if decide (k = k') then f <$> getModules s !! k' else getModules s !! k'.
Proof.
  unfold assigned, getModules. simpl. destruct (decide (k = k')) as [->|].
  - by rewrite lookup_alter_eq.
  - by rewrite lookup_alter_ne.
Qed.

Lemma condDone_mono s s' k :
  (∀ x, x ∈ _queue s → x ∈ _queue s') → condDone cp0 s k → condDone cp0 s' k.
Proof. intros Hq H b Hb. apply Hq. by apply H. Qed.

Lemma extends_elem s s' x : extends s s' → x ∈ _queue s → x ∈ _queue s'.
Proof. intros (ext & -> & _) Hx. apply elem_of_app. by left. Qed.

(** The queue grew, nothing else moved. *)
Lemma Inv_queued s s' :
  Inv cp0 s → queued s s' →
  (∀ x, x ∈ _queue s' → Graph.registered G x) → Inv cp0 s'.
Proof.
  intros [] Hq Hreg. pose proof (queued_erased _ _ Hq) as He.
  destruct Hq as (Hc & Hr & Hx).
  assert (Hm : getModules s' = getModules s)
    by (unfold getModules; by rewrite Hc).
  split; rewrite ?Hr, ?Hm; try done; try congruence.
  intros k e Hk Hf. apply (condDone_mono s s').
  - intros x. by apply extends_elem.
  - by eapply inv_cond0.
Qed.

(** An assignment to [conditionalMark], once the activations of the
    descriptor are queued. *)
Lemma Inv_conditionalMark s k :
  Inv cp0 s → condDone cp0 s k →
  Inv cp0 (assigned (set_conditionalMark true) k s).
Proof.
  intros [] Hd. split; try done.
  - rewrite erased_assigned; [done|]. intros ?. apply clearMarks_conditionalMark.
  - intros k' e'. rewrite lookup_assigned. simpl.
    destruct (decide (k = k')) as [->|]; [|apply inv_marks0].
    destruct (getModules s !! k') as [e|] eqn:He; [|done].
    simpl. intros [= <-]. simpl. by apply inv_marks0.
  - intros k' e'. rewrite lookup_assigned.
    destruct (decide (k = k')) as [->|]; [done|]. apply inv_cond0.
Qed.

(** An assignment to [tmpMark]. *)
Lemma Inv_tmpMark s k b :
  Inv cp0 s → Inv cp0 (assigned (set_tmpMark b) k s).
Proof.
  intros []. split; try done.
  - rewrite erased_assigned; [done|]. intros ?. apply clearMarks_tmpMark.
  - intros k' e'. rewrite lookup_assigned. simpl.
    destruct (decide (k = k')) as [->|]; [|apply inv_marks0].
    destruct (getModules s !! k') as [e|] eqn:He; [|done].
    simpl. intros [= <-]. simpl. by apply inv_marks0.
  - intros k' e'. rewrite lookup_assigned.
    destruct (decide (k = k')) as [->|]; [|apply inv_cond0].
    destruct (getModules s !! k') as [e|] eqn:He; [|done].
    simpl. intros [= <-]. simpl. by apply inv_cond0.
Qed.

(** The end of a visit: the descriptor is marked and enters the
    result. *)
Lemma Inv_finish s k :
  Inv cp0 s → Graph.registered G k → k ∉ _result s →
  (∀ d, Graph.depends G k d → d ∈ _result s) → condDone cp0 s k →
  Inv cp0 (unshifted k
             (assigned (λ m, set_tmpMark false (set_mark true m)) k s)).
Proof.
  intros [] Hreg Hnew Hdeps Hd. split; simpl.
  - change (erased (unshifted k ?x)) with (erased x).
    rewrite erased_assigned; [done|]. intros ?. apply clearMarks_done.
  - intros k' e'.
    change (getModules (unshifted k ?x)) with (getModules x).
    rewrite lookup_assigned, elem_of_cons.
    destruct (decide (k = k')) as [->|Hne].
    + destruct (getModules s !! k') as [e|]; [|done].
      simpl. intros [= <-]. simpl. split; [by left|done].
    + intros He. rewrite (inv_marks0 k' e' He). split; [by right|].
      intros [?|?]; [congruence|done].
  - intros k' [->|Hk']%elem_of_cons; [done|by apply inv_registered0].
  - by apply NoDup_cons.
  - done.
  - intros k' e'.
    change (getModules (unshifted k ?x)) with (getModules x).
    rewrite lookup_assigned.
    destruct (decide (k = k')) as [->|Hne]; [done|]. apply inv_cond0.
  - done.
Qed.


Lemma considerConditional_correct b s :
  erased s = erased (new cp0) →
  (∃ r c, G !! b = Some r ∧ condition r = Some c) →
  (∀ x, x ∈ _queue s → Graph.registered G x) →
  wp (considerConditional b)
     (λ _ s', queued s s' ∧ (∀ x, x ∈ _queue s' → Graph.registered G x) ∧
              (activatable cp0 b → b ∈ _queue s'))
     (λ _ _, False) s.
Proof.
  intros Hs (r0 & c0 & Hr0 & Hc0) Hq.
  destruct (lookup_s s b r0 Hs Hr0) as (r & Hr & Hn & _ & Hc).
  rewrite (Hnames b r0 Hr0) in Hn. rewrite Hc0 in Hc.
  unfold wp, considerConditional. rewrite Hr, Hn, Hc.
  destruct (decide (b ∈ _queue s)) as [Hin|Hnin].
  { split; [apply queued_refl|]. split; done. }
  unfold _testConditionalModule. destruct (test c0) eqn:Ht.
  - simpl. split; [|split].
    + split; [done|]. split; [done|]. exists [b]. split; [done|].
      split; [apply NoDup_singleton|].
      intros x ->%list_elem_of_singleton. split; [done|].
      exists b, r. by rewrite Hn.
    + intros x [Hx| ->%list_elem_of_singleton]%elem_of_app; [by apply Hq|].
      by exists r0.
    + intros _. apply elem_of_app. right. by left.
  - split; [apply queued_refl|]. split; [done|].
    intros (r1 & c1 & Hr1 & Hc1 & Ht1). congruence.
Qed.

Lemma forEach_considerConditional_correct t s :
  erased s = erased (new cp0) →
  (∀ b, b ∈ t → ∃ r c, G !! b = Some r ∧ condition r = Some c) →
  (∀ x, x ∈ _queue s → Graph.registered G x) →
  wp (forEach considerConditional t)
     (λ _ s', queued s s' ∧ (∀ x, x ∈ _queue s' → Graph.registered G x) ∧
              ∀ b, b ∈ t → activatable cp0 b → b ∈ _queue s')
     (λ _ _, False) s.
Proof.
  intros Hs Ht Hq.
  pose proof (wp_forEach
    (λ s', queued s s' ∧ ∀ x, x ∈ _queue s' → Graph.registered G x)
    queued (λ b s', activatable cp0 b → b ∈ _queue s') (λ _ _, False)
    considerConditional t) as H.
  eapply wp_mono; [| |apply H]; try done.
  - intros a s' ((Hq1 & Hr1) & _ & HP). done.
  - apply queued_refl.
  - apply queued_trans.
  - intros b s1 s2 HP (_ & _ & Hx) Ha. eapply extends_elem; [done|]. auto.
  - intros b s1 Hb (Hq1 & Hr1).
    eapply wp_mono; [| |apply considerConditional_correct]; try done.
    + intros a s2 (Hq2 & Hr2 & HP). simpl. split; [|done].
      split; [by eapply queued_trans|done].
    + rewrite <- Hs. by apply queued_erased.
    + by apply Ht.
  - split; [apply queued_refl|done].
Qed.

Lemma processConditionalModules_correct k s :
  Inv cp0 s → Graph.registered G k →
  wp (_processConditionalModules k)
     (λ _ s', Inv cp0 s' ∧ condDone cp0 s' k ∧ _result s' = _result s ∧
              tmpSet s' = tmpSet s ∧
              (∀ x, x ∈ _queue s → x ∈ _queue s'))
     (λ _ _, False) s.
Proof.
  intros HI [e0 He0].
  destruct (lookup_s s k e0 (inv_static _ _ HI) He0) as (e & He & Hn & _).
  rewrite (Hnames k e0 He0) in Hn.
  unfold wp at 1, _processConditionalModules.
  rewrite He, Hn, (conditionals_s s (inv_static _ _ HI)).
  destruct (C !! k) as [t|] eqn:Ht.
  2:{ split; [done|]. split; [|done].
      intros b (e1 & t1 & r1 & c1 & H1 & H2 & _).
      rewrite (Hnames k e1 H1) in H2. congruence. }
  destruct (conditionalMark e) eqn:Hcm.
  { split; [done|]. split; [|done]. eapply inv_cond; eauto. }
  change (wp (forEach considerConditional t ;;
              update (set_conditionalMark true) k)
             (λ _ s', Inv cp0 s' ∧ condDone cp0 s' k ∧
                      _result s' = _result s ∧ tmpSet s' = tmpSet s ∧
                      (∀ x, x ∈ _queue s → x ∈ _queue s'))
             (λ _ _, False) s).
  apply wp_bind.
  eapply wp_mono;
    [| |apply forEach_considerConditional_correct]; try done.
  - intros a s1 (Hq1 & Hr1 & HP). simpl.
    assert (Hd : condDone cp0 s1 k).
    { intros b (e1 & t1 & r1 & c1 & H1 & H2 & H3 & H4 & H5 & H6).
      rewrite (Hnames k e1 H1), Ht in H2. injection H2 as <-.
      apply HP; [done|]. by exists r1, c1. }
    unfold wp, update. fold (assigned (set_conditionalMark true) k s1).
    split; [|split; [|split; [|split]]].
    + apply Inv_conditionalMark; [|done]. by eapply Inv_queued.
    + done.
    + by destruct Hq1 as (_ & ? & _).
    + rewrite tmpSet_assigned_same by done. by apply queued_tmpSet.
    + intros x. apply extends_elem. by destruct Hq1 as (_ & _ & ?).
  - by apply inv_static.
  - intros b Hb. by eapply Hconds.
  - by apply inv_queue.
Qed.
End Correct.

Section Correct2.
Variable cp0 : ConfigParser.t.
Abbreviation G := (Pass.G cp0).
Abbreviation C := (Pass.C cp0).

Hypothesis Hnames : ∀ k e, G !! k = Some e → name e = k.
Hypothesis Hclosed : ∀ k d, Graph.depends G k d → Graph.registered G d.
Hypothesis Hconds : ∀ t l b, C !! t = Some l → b ∈ l →
  ∃ r c, G !! b = Some r ∧ condition r = Some c.

Lemma advances_refl s : advances s s.
Proof. split; [done|]. split; [done|]. split; done. Qed.

Lemma advances_trans s1 s2 s3 :
  advances s1 s2 → advances s2 s3 → advances s1 s3.
Proof.
  intros (Hr1 & Hq1 & Ht1 & Hn1) (Hr2 & Hq2 & Ht2 & Hn2).
  split; [auto|]. split; [auto|]. split; [congruence|].
  intros x Hx3 Hx1. destruct (decide (x ∈ _result s2)) as [Hx2|Hx2].
  - by apply Hn1.
  - rewrite <- Ht1. by apply Hn2.
Qed.

Lemma visit_correct fuel : ∀ k s,
  inBudget fuel s → Inv cp0 s → Graph.registered G k → onPath cp0 s k →
  wp (_visit fuel k)
     (λ _ s', Inv cp0 s' ∧ k ∈ _result s' ∧ advances s s')
     (λ x _, ∃ m, x = CycleError m ∧ Graph.onCycle G m) s.
Proof.
  induction fuel as [|fuel IH]; intros k s Hb HI Hreg Hpath.
  { by apply inBudget_zero in Hb. }
  destruct Hreg as [e0 He0].
  destruct (lookup_s cp0 s k e0 (inv_static _ _ HI) He0)
    as (e & He & Hn & Hdeps & _).
  rewrite (Hnames k e0 He0) in Hn.
  unfold wp at 1. simpl. rewrite He, Hn.
  destruct (tmpMark e) eqn:Htmp.
  { exists k. split; [done|]. apply Hpath. apply elem_of_tmpSet. eauto. }
  assert (Hk : k ∉ tmpSet s).
  { rewrite elem_of_tmpSet. intros (e' & He' & Ht'). congruence. }
  change (wp (_processConditionalModules k ;;
              if mark e then mret tt
              else update (set_tmpMark true) k ;;
                   forEach (λ o, if decide (o = "exports") then mret tt
                                 else _visit fuel o) (dependencies e) ;;
                   update (λ m, set_tmpMark false (set_mark true m)) k ;;
                   unshift k)
             (λ _ s', Inv cp0 s' ∧ k ∈ _result s' ∧ advances s s')
             (λ x _, ∃ m, x = CycleError m ∧ Graph.onCycle G m) s).
  apply wp_bind.
  eapply wp_mono;
    [| |apply (processConditionalModules_correct cp0 Hnames Hconds k s)];
    [|done|done|by exists e0].
  intros [] s1 (HI1 & Hd1 & Hr1 & Ht1 & Hq1). simpl.
  destruct (mark e) eqn:Hmark.
  { apply wp_ret. split; [done|]. split.
    - rewrite Hr1. by apply (inv_marks _ _ HI k e).
    - split; [by rewrite Hr1|]. split; [done|]. split; [done|].
      intros x. by rewrite Hr1. }
  assert (Hnew : k ∉ _result s).
  { intros Hin. apply (inv_marks _ _ HI k e He) in Hin. congruence. }
  destruct (lookup_s cp0 s1 k e0 (inv_static _ _ HI1) He0)
    as (e1 & He1 & _).
  assert (Htmp1 : tmpMark e1 = false).
  { destruct (tmpMark e1) eqn:Hx; [|done]. exfalso. apply Hk.
    rewrite <- Ht1. apply elem_of_tmpSet. eauto. }
  apply wp_update. set (s2 := assigned (set_tmpMark true) k s1).
  assert (HI2 : Inv cp0 s2) by by apply Inv_tmpMark.
  assert (Ht2 : tmpSet s2 = {[k]} ∪ tmpSet s1)
    by by eapply tmpSet_assigned_on.
  assert (Hr2 : _result s2 = _result s) by exact Hr1.
  assert (Hq2 : ∀ x, x ∈ _queue s → x ∈ _queue s2) by exact Hq1.
  assert (Hb2 : inBudget fuel s2).
  { eapply inBudget_enter; [done..|].
    eapply inBudget_frame; [|exact Ht1|exact Hb].
    by rewrite (inv_static _ _ HI1), (inv_static _ _ HI). }
  apply wp_bind.
  pose proof (wp_forEach
    (λ s', Inv cp0 s' ∧ inBudget fuel s' ∧ tmpSet s' = tmpSet s2)
    advances (λ d s', d = "exports" ∨ d ∈ _result s')
    (λ x _, ∃ m, x = CycleError m ∧ Graph.onCycle G m)
    (λ o, if decide (o = "exports") then mret tt else _visit fuel o)
    (dependencies e)) as Hloop.
  eapply wp_mono; [| |apply Hloop]; try done.
  - intros [] s3 ((HI3 & Hb3 & Ht3) & Ha3 & HP). simpl.
    apply wp_update. apply wp_unshift.
    destruct Ha3 as (Hr3 & Hq3 & _ & Hn3).
    assert (Hk3 : k ∉ _result s3).
    { intros Hin. apply (Hn3 k Hin); [by rewrite Hr2|].
      rewrite Ht2. apply elem_of_union. left. by apply elem_of_singleton. }
    split; [|split].
    + apply Inv_finish; try done.
      * by exists e0.
      * intros d (e' & He' & Hd & Hx).
        destruct (HP d) as [?|?]; [|done..]. congruence.
      * apply (condDone_mono cp0 s1); [|done]. intros x Hx. by apply Hq3.
    + by left.
    + split; [|split; [|split]].
      * intros x Hx. right. apply Hr3. by rewrite Hr2.
      * intros x Hx. apply Hq3. by apply Hq2.
      * change (tmpSet (unshifted k ?x)) with (tmpSet x).
        rewrite tmpSet_assigned_off, Ht3, Ht2, Ht1. by apply enter_leave.
      * intros x [->|Hx]%elem_of_cons Hxs; [done|].
        intros Hin. apply (Hn3 x Hx); [by rewrite Hr2|].
        rewrite Ht2, Ht1. apply elem_of_union. by right.
  - apply advances_trans.
  - intros d s' s'' [?|?] (Hr & _); [by left|right; auto].
  - intros d s' Hd (HI' & Hb' & Ht').
    destruct (decide (d = "exports")) as [->|Hne].
    { apply wp_ret. split; [done|]. split; [apply advances_refl|by left]. }
    assert (Hdep : Graph.depends G k d).
    { exists e0. by rewrite <- Hdeps. }
    eapply wp_mono; [| |apply IH]; try done.
    + intros a s'' (HI'' & Hin & Ha). simpl. split; [|split; [done|by right]].
      split; [done|]. destruct Ha as (_ & _ & Ht'' & _). split; [|congruence].
      eapply inBudget_frame; [|exact Ht''|exact Hb'].
      by rewrite (inv_static _ _ HI''), (inv_static _ _ HI').
    + by eapply Hclosed.
    + intros m. rewrite Ht', Ht2, Ht1, elem_of_union, elem_of_singleton.
      intros [->|Hm]; [by apply tc_once|].
      eapply tc_r; [by apply Hpath|done].
Qed.
End Correct2.

Section Calls2.
Context {S A B : Type}.

Lemma wlp_bind (c : M S A) (k : A → M S B) Q E s :
  wlp c (λ a s', wlp (k a) Q E s') E s → wlp (c ≫= k) Q E s.
Proof. unfold wlp, mbind, M_bind. by destruct (c s). Qed.

Lemma wlp_mono (c : M S A) (Q Q' : A → S → Prop) (E E' : exn → S → Prop) s :
  (∀ a s', Q a s' → Q' a s') → (∀ e s', E e s' → E' e s') →
  wlp c Q E s → wlp c Q' E' s.
Proof. unfold wlp. destruct (c s); eauto. Qed.

Lemma wp_wlp_conj (c : M S A) (Q Q' : A → S → Prop)
    (E E' : exn → S → Prop) s :
  wp c Q E s → wlp c Q' E' s →
  wp c (λ a s', Q a s' ∧ Q' a s') (λ e s', E e s' ∧ E' e s') s.
Proof. unfold wp, wlp. destruct (c s); eauto. Qed.
End Calls2.

Section Correct3.
Variable cp0 : ConfigParser.t.
Abbreviation G := (Pass.G cp0).
Abbreviation C := (Pass.C cp0).

Hypothesis Hnames : ∀ k e, G !! k = Some e → name e = k.
Hypothesis Hclosed : ∀ k d, Graph.depends G k d → Graph.registered G d.
Hypothesis Hconds : ∀ t l b, C !! t = Some l → b ∈ l →
  ∃ r c, G !! b = Some r ∧ condition r = Some c.

Lemma resolveFrom_correct depth fuel : ∀ i s,
  size G < depth → Inv cp0 s → tmpSet s = ∅ →
  (∀ j x, j < i → _queue s !! j = Some x → x ∈ _result s) →
  wlp (resolveFrom fuel depth i)
      (λ _ s', Inv cp0 s' ∧ ∀ x, x ∈ _queue s' → x ∈ _result s')
      (λ x _, ∃ m, x = CycleError m ∧ Graph.onCycle G m) s.
Proof.
  induction fuel as [|fuel IH]; intros i s Hdepth HI Ht Hdone; [done|].
  unfold wlp at 1. simpl.
  destruct (_queue s !! i) as [k|] eqn:Hk.
  2:{ split; [done|]. intros x [j Hj]%list_elem_of_lookup.
      apply (Hdone j x); [|done].
      apply lookup_ge_None in Hk. apply lookup_lt_Some in Hj. lia. }
  assert (Hreg : Graph.registered G k).
  { apply (inv_queue _ _ HI). by eapply list_elem_of_lookup_2. }
  destruct Hreg as [n0 Hn0].
  destruct (lookup_s cp0 s k n0 (inv_static _ _ HI) Hn0) as (n & Hn & _).
  rewrite Hn.
  change (wlp ((if mark n then mret tt else _visit depth k) ;;
               resolveFrom fuel depth (S i))
              (λ _ s', Inv cp0 s' ∧ ∀ x, x ∈ _queue s' → x ∈ _result s')
              (λ x _, ∃ m, x = CycleError m ∧ Graph.onCycle G m) s).
  apply wlp_bind.
  assert (Hstep : wp (if mark n then mret tt else _visit depth k)
    (λ _ s', (Inv cp0 s' ∧ k ∈ _result s' ∧ advances s s') ∧ frame s s')
    (λ x _, ∃ m, x = CycleError m ∧ Graph.onCycle G m) s).
  { destruct (mark n) eqn:Hm.
    - apply wp_ret. split; [|apply frame_refl]. split; [done|].
      split; [by apply (inv_marks _ _ HI k n)|apply advances_refl].
    - assert (Hb : inBudget depth s).
      { unfold inBudget.
        rewrite (erased_size _ _ (inv_static _ _ HI)). simpl.
        change (size G < depth + size (tmpSet s)). lia. }
      assert (Hp : onPath cp0 s k).
      { intros m Hin. rewrite Ht in Hin. by apply elem_of_empty in Hin. }
      eapply wp_mono;
        [| |apply (wp_conj _ _ _ _ _ _
                     (visit_correct cp0 Hnames Hclosed Hconds depth k s
                        Hb HI (ex_intro _ n0 Hn0) Hp)
                     (visit_frame depth k s Hb))].
      + intros a s' (H1 & H2 & _). done.
      + intros x s' (H1 & _). done. }
  apply wp_wlp. eapply wp_mono; [| |exact Hstep]; [|done].
  intros [] s1 ((HI1 & Hin1 & Ha1) & Hf1). simpl.
  destruct Ha1 as (Hr1 & _ & Ht1 & _).
  destruct Hf1 as (_ & (ext & Hq1 & _) & _).
  apply IH; try done.
  - by rewrite Ht1.
  - intros j x Hj Hx. rewrite Hq1 in Hx.
    rewrite lookup_app_l in Hx
      by (apply lookup_lt_Some in Hk; lia).
    destruct (decide (j = i)) as [->|Hne].
    + congruence.
    + apply Hr1. apply (Hdone j x); [lia|done].
Qed.
End Correct3.

(** ** The boolean checks and what they say *)

Lemma namesOk_spec G :
  Graph.namesOk G = true → ∀ k e, G !! k = Some e → name e = k.
Proof.
  unfold Graph.namesOk. rewrite forallb_map_to_list. intros H k e Hk.
  specialize (H k e Hk). simpl in H. by apply bool_decide_eq_true in H.
Qed.

Lemma closedOk_spec G :
  Graph.closedOk G = true →
  ∀ k d, Graph.depends G k d → Graph.registered G d.
Proof.
  unfold Graph.closedOk. rewrite forallb_map_to_list.
  intros H k d (e & He & Hd & Hx). specialize (H k e He). simpl in H.
  rewrite forallb_elem in H. specialize (H d Hd).
  apply orb_true_iff in H as [H|H]; apply bool_decide_eq_true in H; done.
Qed.

Lemma conditionalsOk_spec G C :
  Graph.conditionalsOk G C = true →
  ∀ t l b, C !! t = Some l → b ∈ l →
           ∃ r c, G !! b = Some r ∧ condition r = Some c.
Proof.
  unfold Graph.conditionalsOk. rewrite forallb_map_to_list.
  intros H t l b Ht Hb. specialize (H t l Ht). simpl in H.
  rewrite forallb_elem in H. specialize (H b Hb).
  destruct (G !! b) as [r|]; [|done].
  apply bool_decide_eq_true in H as [c Hc]. by exists r, c.
Qed.


Lemma cleanOk_spec G :
  Graph.cleanOk G = true →
  ∀ k e, G !! k = Some e →
         mark e = false ∧ tmpMark e = false ∧ conditionalMark e = false.
Proof.
  unfold Graph.cleanOk. rewrite forallb_map_to_list.
  intros H k e Hk. specialize (H k e Hk). simpl in H.
  destruct (mark e), (tmpMark e), (conditionalMark e); done.
Qed.

Lemma wellFormed_spec G C :
  Graph.wellFormed G C = true →
  Graph.namesOk G = true ∧ Graph.closedOk G = true ∧
  Graph.conditionalsOk G C = true.
Proof.
  unfold Graph.wellFormed. intros H.
  apply andb_true_iff in H as [H H3]. apply andb_true_iff in H as [H1 H2].
  done.
Qed.

Lemma ranked_tc G rank :
  Graph.rankedBy G rank = true →
  ∀ k d, tc (Graph.depends G) k d → rank d < rank k.
Proof.
  unfold Graph.rankedBy. rewrite forallb_map_to_list. intros H.
  assert (H1 : ∀ k d, Graph.depends G k d → rank d < rank k).
  { intros k d (e & He & Hd & Hx). specialize (H k e He). simpl in H.
    rewrite forallb_elem in H. specialize (H d Hd).
    apply orb_true_iff in H as [H|H]; apply bool_decide_eq_true in H; done. }
  intros k d Htc. induction Htc as [k d Hd|k y d Hd _ IH].
  - by apply H1.
  - apply H1 in Hd. lia.
Qed.

Lemma dependsOk_spec G k d :
  Graph.dependsOk G k d = true → Graph.depends G k d.
Proof.
  unfold Graph.dependsOk. destruct (G !! k) as [e|] eqn:He; [|done].
  intros [H1 H2]%andb_true_iff. exists e. split; [done|].
  apply bool_decide_eq_true in H1. apply negb_true_iff in H2.
  apply bool_decide_eq_false in H2. done.
Qed.

Lemma requestOk_spec G req :
  Graph.requestOk G req = true → ∀ x, x ∈ req → Graph.registered G x.
Proof.
  unfold Graph.requestOk. rewrite forallb_elem. intros H x Hx.
  specialize (H x Hx). by apply bool_decide_eq_true in H.
Qed.

(** A ranking shows a registry acyclic. *)
Lemma ranked_acyclic G rank :
  Graph.rankedBy G rank = true → Graph.acyclic G.
Proof.
  intros H k Hk. apply (ranked_tc G rank H) in Hk. lia.
Qed.

(** ** The result of a pass *)

Lemma elem_of_rev {A} (x : A) (l : list A) : x ∈ rev l ↔ x ∈ l.
Proof. rewrite !list_elem_of_In. symmetry. apply in_rev. Qed.

Lemma NoDup_rev {A} (l : list A) : NoDup l → NoDup (rev l).
Proof. rewrite !NoDup_ListNoDup. apply List.NoDup_rev. Qed.

Lemma postOrdered_split G l1 k l2 :
  postOrdered G (l1 ++ k :: l2) →
  (∀ d, Graph.depends G k d → d ∈ l2) ∧ postOrdered G l2.
Proof. induction l1 as [|x l1 IH]; simpl; [done|]. intros [_ H]. auto. Qed.



Lemma postOrdered_dependencyFirst G l :
  postOrdered G l → Graph.dependencyFirst G (rev l).
Proof.
  induction l as [|k l IH]; intros Hord i m d Hi Hd.
  { done. }
  destruct Hord as [Hk Hord]. simpl in Hi.
  destruct (decide (i < length (rev l))) as [Hlt|Hge].
  - rewrite lookup_app_l in Hi by done.
    destruct (IH Hord i m d Hi Hd) as (j & Hj & Hjd).
    exists j. split; [done|]. simpl. rewrite lookup_app_l by lia. done.
  - rewrite lookup_app_r in Hi by lia.
    destruct (i - length (rev l)) as [|n] eqn:Hn; [|by destruct n].
    simpl in Hi. injection Hi as <-.
    specialize (Hk d Hd). apply elem_of_rev in Hk.
    apply list_elem_of_lookup in Hk as [j Hj]. exists j.
    pose proof (lookup_lt_Some _ _ _ Hj).
    split; [lia|]. simpl. by rewrite lookup_app_l.
Qed.

Section PassResult.
Variable b : t.
Variable req : list string.
Abbreviation G := (getModules b).
Abbreviation C := (getConditionalModules b).

Hypothesis Hresult : _result b = [].
Hypothesis Hwf : Graph.wellFormed G C = true.
Hypothesis Hclean : Graph.cleanOk G = true.
Hypothesis Hreq : ∀ x, x ∈ req → Graph.registered G x.

Lemma Inv_seed : Inv (_configParser b) (seed req b).
Proof.
  pose proof (cleanOk_spec G Hclean) as Hc.
  split; simpl; rewrite ?Hresult.
  - done.
  - intros k e Hk. destruct (Hc k e Hk) as (-> & _).
    split; [done|]. intros H. by apply elem_of_nil in H.
  - intros k H. by apply elem_of_nil in H.
  - constructor.
  - done.
  - intros k e Hk. destruct (Hc k e Hk) as (-> & _ & ->). by intros [|].
  - done.
Qed.

Lemma tmpSet_seed : tmpSet (seed req b) = ∅.
Proof.
  apply set_eq. intros k. rewrite elem_of_tmpSet.
  split; [|intros H; by apply elem_of_empty in H].
  intros (e & He & Ht).
  destruct (cleanOk_spec G Hclean k e He) as (_ & ? & _). congruence.
Qed.

(** A pass over a clean, well-formed registry ends; when it returns,
    the invariant holds and every queued name is in the result; when it
    throws, it throws the cycle error, naming a module on a cycle. *)
Lemma pass_outcome :
  wp _resolveDependencies
     (λ _ s', Inv (_configParser b) s' ∧
              (∀ x, x ∈ _queue s' → x ∈ _result s') ∧
              frame (seed req b) s')
     (λ x _, ∃ m, x = CycleError m ∧ Graph.onCycle G m)
     (seed req b).
Proof.
  pose proof (wellFormed_spec G C Hwf) as (H1 & H2 & H3).
  unfold _resolveDependencies.
  assert (Hf : wp (resolveFrom (turnBudget (seed req b))
                               (depthBudget (seed req b)) 0)
                  (λ _ s', frame (seed req b) s')
                  (λ _ s', erased s' = erased (seed req b)) (seed req b)).
  { apply resolveFrom_frame; [apply frame_refl|lia|].
    unfold turnBudget. lia. }
  assert (Hc : wlp (resolveFrom (turnBudget (seed req b))
                                (depthBudget (seed req b)) 0)
                   (λ _ s', Inv (_configParser b) s' ∧
                            ∀ x, x ∈ _queue s' → x ∈ _result s')
                   (λ x _, ∃ m, x = CycleError m ∧ Graph.onCycle G m)
                   (seed req b)).
  { apply resolveFrom_correct.
    - by apply namesOk_spec.
    - by apply closedOk_spec.
    - by apply conditionalsOk_spec.
    - unfold depthBudget. simpl. change (size G < S (size G)). lia.
    - apply Inv_seed.
    - apply tmpSet_seed.
    - intros j x Hj. lia. }
  eapply wp_mono; [| |apply (wp_wlp_conj _ _ _ _ _ _ Hf Hc)].
  - intros a s' (? & ? & ?). done.
  - intros x s' (_ & H). done.
Qed.

Lemma closed_result s' :
  Inv (_configParser b) s' →
  (∀ x, x ∈ _queue s' → x ∈ _result s') →
  frame (seed req b) s' →
  ∀ x, Graph.reachable G C req x → x ∈ _result s'.
Proof.
  intros HI Hq (_ & (ext & Hext & _) & _) x (r & Hr & Hrtc).
  revert x Hrtc. apply (rtc_ind_r (λ x, x ∈ _result s') r).
  - apply Hq. rewrite Hext. apply elem_of_app. by left.
  - intros y x _ Hstep IH. destruct Hstep as [Hd|Ha].
    + apply list_elem_of_split in IH as (l1 & l2 & Heq).
      pose proof (inv_ordered _ _ HI) as Hord. rewrite Heq in Hord.
      apply postOrdered_split in Hord as [Hdeps _].
      rewrite Heq. apply elem_of_app. right. right. by apply Hdeps.
    + apply Hq.
      destruct (inv_registered _ _ HI y IH) as [e0 He0].
      destruct (erased_lookup s' (new (_configParser b)) y e0
                  (eq_sym (inv_static _ _ HI)) He0) as (e & He & _).
      apply (inv_cond _ _ HI y e He); [|done].
      right. by apply (inv_marks _ _ HI y e He).
Qed.
End PassResult.

Lemma resolveDependencies_cases b req :
  _result b = [] →
  Graph.wellFormed (getModules b) (getConditionalModules b) = true →
  Graph.cleanOk (getModules b) = true →
  (∀ x, x ∈ req → Graph.registered (getModules b) x) →
  (∃ s', _resolveDependencies (seed req b) = Normal tt s' ∧
         resolveDependencies req b = Normal (rev (_result s')) (_cleanup b) ∧
         Inv (_configParser b) s' ∧
         (∀ x, x ∈ _queue s' → x ∈ _result s') ∧
         frame (seed req b) s') ∨
  (∃ m s', _resolveDependencies (seed req b) = Throw (CycleError m) s' ∧
           resolveDependencies req b = Throw (CycleError m) (_cleanup b) ∧
           Graph.onCycle (getModules b) m).
Proof.
  intros Hr Hwf Hc Hreq.
  pose proof (pass_outcome b req Hr Hwf Hc Hreq) as H.
  pose proof (resolveDependencies_total req b) as Ht.
  unfold wp, resolveDependencies in *.
  destruct (_resolveDependencies (seed req b)) as [[] s'|x s'|]; [| |done].
  - left. exists s'. rewrite Ht. done.
  - right. destruct H as (m & -> & Hm). exists m, s'. rewrite Ht. done.
Qed.


Lemma clearMarks_clean e :
  mark e = false → tmpMark e = false → conditionalMark e = false →
  clearMarks e = e.
Proof. destruct e. simpl. by intros -> -> ->. Qed.

Lemma cleanup_clean b :
  Graph.cleanOk (getModules b) = true →
  _configParser (_cleanup b) = _configParser b.
Proof.
  intros Hc. unfold _cleanup, ConfigParser.with_modules. simpl.
  assert (H : clearMarks <$> getModules b = getModules b).
  { apply map_eq. intros k. rewrite lookup_fmap.
    destruct (getModules b !! k) as [e|] eqn:He; [|done]. simpl.
    destruct (cleanOk_spec _ Hc k e He) as (? & ? & ?).
    by rewrite clearMarks_clean. }
  rewrite H. unfold getModules. by destruct (_configParser b).
Qed.









(** ** ConfigParser: the registry it builds *)

Lemma addModule_modules e cp :
  ConfigParser._modules (ConfigParser.addModule e cp)
  = <[name e := ConfigParser.resolvePath e]> (ConfigParser._modules cp).
Proof.
  unfold ConfigParser.addModule, ConfigParser._registerConditionalModule.
  by destruct (condition (ConfigParser.resolvePath e)).
Qed.

Lemma addModule_conditionals e cp :
  ConfigParser._conditionalModules (ConfigParser.addModule e cp)
  = match condition e with
    | Some c =>
        <[trigger c :=
            default [] (ConfigParser._conditionalModules cp !! trigger c)
            ++ [name e]]> (ConfigParser._conditionalModules cp)
    | None => ConfigParser._conditionalModules cp
    end.
Proof.
  unfold ConfigParser.addModule, ConfigParser._registerConditionalModule.
  change (condition (ConfigParser.resolvePath e)) with (condition e).
  by destruct (condition e).
Qed.

Lemma addModule_parsed e cp :
  parsed cp → ConfigParser._modules cp !! name e = None → unflagged e →
  parsed (ConfigParser.addModule e cp).
Proof.
  intros [Hn Hc Hi Hf] Hfresh Hflags.
  split; rewrite ?addModule_modules, ?addModule_conditionals.
  - intros k e'. rewrite lookup_insert. case_decide as Hk.
    + intros [= <-]. done.
    + apply Hn.
  - intros t l b Ht Hb.
    assert (Hold : ∀ t0 l0, ConfigParser._conditionalModules cp !! t0 = Some l0 →
                   b ∈ l0 →
                   ∃ r c, <[name e := ConfigParser.resolvePath e]>
                            (ConfigParser._modules cp) !! b = Some r ∧
                          condition r = Some c).
    { intros t0 l0 Ht0 Hb0. destruct (Hc t0 l0 b Ht0 Hb0) as (r & c & Hr & Hrc).
      exists r, c. split; [|done]. rewrite lookup_insert_ne; [done|].
      intros Heq. rewrite Heq in Hfresh. congruence. }
    destruct (condition e) as [c|] eqn:Hce; [|by eapply Hold].
    rewrite lookup_insert in Ht. case_decide as Hk; [|by eapply Hold].
    injection Ht as <-. apply elem_of_app in Hb as [Hb|Hb].
    + destruct (ConfigParser._conditionalModules cp !! trigger c) as [l0|] eqn:Hl0.
      * by eapply Hold.
      * by apply elem_of_nil in Hb.
    + apply list_elem_of_singleton in Hb as ->.
      exists (ConfigParser.resolvePath e), c. by rewrite lookup_insert_eq.
  - intros k r c. rewrite lookup_insert. case_decide as Hk.
    + intros [= <-]. change (condition (ConfigParser.resolvePath e)) with (condition e).
      intros ->. rewrite lookup_insert_eq. eexists. split; [done|].
      apply elem_of_app. right. rewrite Hk. by left.
    + intros Hr Hrc. destruct (Hi k r c Hr Hrc) as (t & Ht & Hkt).
      destruct (condition e) as [c'|]; [|by exists t].
      rewrite lookup_insert. case_decide as Heq; [|by exists t].
      eexists. split; [done|]. rewrite Heq, Ht. simpl.
      apply elem_of_app. by left.
  - intros k e'. rewrite lookup_insert. case_decide as Hk.
    + intros [= <-]. done.
    + apply Hf.
Qed.

Lemma parseModules_parsed raw : ∀ cp,
  parsed cp → NoDup raw.*1 →
  (∀ kv, kv ∈ raw → ConfigParser._modules cp !! kv.1 = None ∧ unflagged kv.2) →
  parsed (ConfigParser._parseModules raw cp).
Proof.
  induction raw as [|[k e] raw IH]; intros cp Hp Hnd Hraw; [done|].
  simpl. apply NoDup_cons in Hnd as [Hk Hnd].
  destruct (Hraw (k, e)) as [Hfresh Hflags]; [left|].
  apply IH; [|done|].
  - apply addModule_parsed; done.
  - intros [k' e'] Hin. destruct (Hraw (k', e')) as [H1 H2]; [by right|].
    split; [|done]. rewrite addModule_modules. simpl.
    rewrite lookup_insert_ne; [done|]. intros <-. apply Hk.
    apply list_elem_of_fmap. by exists (k, e').
Qed.

(** The registry the constructor builds from a configuration object
    (distinct keys, no flag set) passes the checks on names, conditions,
    index and flags. *)
Lemma new_checks cfg raw :
  NoDup raw.*1 → (∀ kv, kv ∈ raw → unflagged kv.2) →
  let cp := ConfigParser.new cfg raw in
  Graph.namesOk (ConfigParser._modules cp) = true ∧
  Graph.conditionalsOk (ConfigParser._modules cp)
                       (ConfigParser._conditionalModules cp) = true ∧
  Graph.indexOk (ConfigParser._modules cp)
                (ConfigParser._conditionalModules cp) = true ∧
  Graph.cleanOk (ConfigParser._modules cp) = true.
Proof.
  intros Hnd Hflags cp.
  assert (Hp : parsed cp).
  { apply parseModules_parsed; [|done|].
    - split; simpl; intros *; by rewrite lookup_empty.
    - intros kv Hkv. split; [apply lookup_empty|by apply Hflags]. }
  destruct Hp as [Hn Hc Hi Hf]. split; [|split; [|split]].
  - apply forallb_map_to_list. intros k e Hk. apply bool_decide_eq_true.
    by apply Hn.
  - apply forallb_map_to_list. intros t l Ht. apply forallb_elem.
    intros b Hb. destruct (Hc t l b Ht Hb) as (r & c & -> & Hrc).
    apply bool_decide_eq_true. by exists c.
  - apply forallb_map_to_list. intros k r Hk. simpl.
    destruct (condition r) as [c|] eqn:Hrc; [|done].
    destruct (Hi k r c Hk Hrc) as (t & -> & Hkt). by apply bool_decide_eq_true.
  - apply forallb_map_to_list. intros k e Hk. simpl.
    destruct (Hf k e Hk) as (-> & -> & ->). done.
Qed.

(** ** The theorems at work *)




(** Outside the well-formed registries: a dependency that names no
    registered module is [undefined] to [_visit], and the pass throws. *)
Lemma unregistered_dependency_throws :
  resolveDependencies ["app"] (new Examples.dangling)
    = Throw TypeError (_cleanup (new Examples.dangling)).
Proof. vm_compute. reflexivity. Qed.




(** ** EventEmitter: registering and removing listeners *)

Lemma indexOf_first cb l1 l2 :
  cb ∉ l1 → EventEmitter.indexOf cb (l1 ++ cb :: l2) = Some (length l1).
Proof.
  induction l1 as [|x l1 IH]; intros H; simpl.
  - by destruct (decide (cb = cb)).
  - apply not_elem_of_cons in H as [Hx Hn].
    destruct (decide (x = cb)); [done|]. by rewrite (IH Hn).
Qed.

Lemma delete_middle {A} (l1 l2 : list A) x :
  delete (length l1) (l1 ++ x :: l2) = l1 ++ l2.
Proof. induction l1 as [|y l1 IH]; simpl; [done|]. by rewrite IH. Qed.

Lemma first_occurrence (cb : EventEmitter.callback) n :
  cb ∈ n → ∃ l1 l2, n = l1 ++ cb :: l2 ∧ cb ∉ l1.
Proof.
  induction n as [|x n IH]; intros H; [by apply elem_of_nil in H|].
  destruct (decide (x = cb)) as [->|Hne].
  - exists [], n. split; [done|]. apply not_elem_of_nil.
  - apply elem_of_cons in H as [->|H]; [done|].
    destruct (IH H) as (l1 & l2 & -> & Hl1).
    exists (x :: l1), l2. split; [done|].
    apply not_elem_of_cons. split; [congruence|done].
Qed.

Lemma listeners_on e cb em e' :
  listeners e' (EventEmitter.on e cb em)
  = if decide (e = e') then listeners e em ++ [cb] else listeners e' em.
Proof.
  unfold listeners, EventEmitter.on. simpl.
  destruct (decide (e = e')) as [->|Hne].
  - by rewrite lookup_insert_eq.
  - by rewrite lookup_insert_ne.
Qed.

Lemma listeners_onAll e cbs : ∀ em,
  listeners e (onAll e cbs em) = listeners e em ++ cbs.
Proof.
  induction cbs as [|cb cbs IH]; intros em; simpl.
  - by rewrite app_nil_r.
  - unfold onAll in *. simpl. rewrite IH, listeners_on.
    destruct (decide (e = e)); [|done]. by rewrite <- app_assoc.
Qed.

Lemma emit_listeners {payload}
    (behaviour : EventEmitter.callback → payload → EventEmitter.t
                 → EventEmitter.completion) e p em :
  (EventEmitter.emit behaviour e p em).1.2
  = (EventEmitter.emitLoop behaviour (listeners e em) p em []).1.2 ∧
  (EventEmitter.emit behaviour e p em).2
  = (EventEmitter.emitLoop behaviour (listeners e em) p em []).2.
Proof.
  unfold EventEmitter.emit, listeners.
  by destruct (EventEmitter._events em !! e).
Qed.



(** X2: [off] removes the first occurrence of the callback and nothing
    else: a callback registered twice for an event stays registered
    once, and the other listeners keep their order. *)
Theorem off_removes_first_occurrence e cb em n :
  EventEmitter._events em !! e = Some n → cb ∈ n →
  ∃ l1 l2, n = l1 ++ cb :: l2 ∧ (cb ∉ l1) ∧
    EventEmitter.off e cb em
    = {| EventEmitter._events := <[e := l1 ++ l2]> (EventEmitter._events em);
         EventEmitter.console := EventEmitter.console em |}.
Proof.
  intros Hn Hin. destruct (first_occurrence cb n Hin) as (l1 & l2 & -> & Hl1).
  exists l1, l2. split; [done|]. split; [done|].
  unfold EventEmitter.off. rewrite Hn, (indexOf_first cb l1 l2 Hl1).
  by rewrite delete_middle.
Qed.

Lemma off_removes_first_occurrence_witness :
  ∃ l1 l2, [5; 7; 5] = l1 ++ 5 :: l2 ∧ (5 ∉ l1) ∧
    EventEmitter.off "e" 5 (onAll "e" [5; 7; 5] EventEmitter.empty)
    = {| EventEmitter._events :=
           <["e" := l1 ++ l2]>
             (EventEmitter._events (onAll "e" [5; 7; 5] EventEmitter.empty));
         EventEmitter.console := [] |}.
Proof.
  apply (off_removes_first_occurrence "e" 5
           (onAll "e" [5; 7; 5] EventEmitter.empty) [5; 7; 5]).
  - vm_compute. reflexivity.
  - apply elem_of_cons. by left.
Defined.

Section EmitOrder.
Context {payload : Type}.
Variable behaviour :
  EventEmitter.callback → payload → EventEmitter.t → EventEmitter.completion.

Lemma emitLoop_upto l1 : ∀ cb l2 p em called,
  (∀ c em0, c ∈ l1 → ∃ em1, behaviour c p em0 = EventEmitter.Returns em1) →
  (∀ em0, ∃ em1, behaviour cb p em0 = EventEmitter.Throws em1) →
  let out := EventEmitter.emitLoop behaviour (l1 ++ cb :: l2) p em called in
  out.1.2 = called ++ l1 ++ [cb] ∧ out.2 = false.
Proof.
  induction l1 as [|x l1 IH]; intros cb l2 p em called Hret Hthrow; simpl.
  - destruct (Hthrow em) as [em1 ->]. done.
  - destruct (Hret x em) as [em1 ->]; [apply elem_of_cons; by left|].
    destruct (IH cb l2 p em1 (called ++ [x])) as [H1 H2]; [|done|].
    + intros c em0 Hc. apply Hret. apply elem_of_cons. by right.
    + simpl in H1, H2. rewrite H1, H2, <- app_assoc. done.
Qed.

(** X3: the callbacks registered for an event by successive calls of
    [on] are called by an emission after the listeners the event had
    already, in the order of their registration, each once for every
    time it was registered. *)
Theorem emit_follows_registration_order e cbs p em :
  (∀ cb em0, cb ∈ listeners e em ++ cbs →
     ∃ em1, behaviour cb p em0 = EventEmitter.Returns em1) →
  let out := EventEmitter.emit behaviour e p (onAll e cbs em) in
  out.1.2 = listeners e em ++ cbs ∧ out.2 = true.
Proof.
  intros Hret. simpl.
  destruct (emit_listeners behaviour e p (onAll e cbs em)) as [-> ->].
  rewrite listeners_onAll.
  pose proof (emitLoop_calls behaviour (listeners e em ++ cbs) p
                (onAll e cbs em) []) as (done & Hd & _ & Hall).
  pose proof (emitLoop_returns behaviour (listeners e em ++ cbs) p
                (onAll e cbs em) [] Hret) as Hr.
  simpl in Hd. rewrite Hd, (Hall Hr). done.
Qed.

(** X4: a listener that throws ends the emission: the listeners
    registered before it have been called, those after it are not, and
    the exception leaves [emit]. *)
Theorem emit_stops_at_throwing_listener e p em l1 cb l2 :
  EventEmitter._events em !! e = Some (l1 ++ cb :: l2) →
  (∀ c em0, c ∈ l1 → ∃ em1, behaviour c p em0 = EventEmitter.Returns em1) →
  (∀ em0, ∃ em1, behaviour cb p em0 = EventEmitter.Throws em1) →
  let out := EventEmitter.emit behaviour e p em in
  out.1.2 = l1 ++ [cb] ∧ out.2 = false.
Proof.
  intros He Hret Hthrow. simpl. unfold EventEmitter.emit. rewrite He.
  apply (emitLoop_upto l1 cb l2 p em [] Hret Hthrow).
Qed.
End EmitOrder.

Lemma emit_follows_registration_order_witness :
  (EventEmitter.emit Examples.behave "moduleRegister" tt
     (onAll "moduleRegister" [8; 9] Examples.threeListeners)).1.2
  = [1; 2; 3; 8; 9].
Proof.
  refine (proj1 (emit_follows_registration_order Examples.behave
            "moduleRegister" [8; 9] tt Examples.threeListeners _)).
  intros cb em0 _. unfold Examples.behave, EventEmitter.runOps. eauto.
Defined.

Lemma emit_stops_at_throwing_listener_witness :
  (EventEmitter.emit Examples.faulty "moduleRegister" tt
     Examples.threeListeners).1.2 = [1; 2] ∧
  (EventEmitter.emit Examples.faulty "moduleRegister" tt
     Examples.threeListeners).2 = false.
Proof.
  apply (emit_stops_at_throwing_listener Examples.faulty "moduleRegister" tt
           Examples.threeListeners [1] 2 [3]).
  - vm_compute. reflexivity.
  - intros c em0 Hc. apply list_elem_of_singleton in Hc as ->.
    exists em0. reflexivity.
  - intros em0. exists em0. reflexivity.
Defined.

(** ** PathResolver: identifiers without dot segments *)

Lemma split_nonempty s : JS.split s ≠ [].
Proof.
  destruct s as [|c s]; simpl; [done|].
  destruct (Ascii.eqb c "/"); [done|]. by destruct (JS.split s).
Qed.

Lemma dropLast_last (l : list string) :
  l ≠ [] → JS.dropLast l ++ [List.last l ""] = l.
Proof. intros H. symmetry. by apply app_removelast_last. Qed.

Lemma dropLast_cons {A} (x : A) l :
  l ≠ [] → JS.dropLast (x :: l) = x :: JS.dropLast l.
Proof. by destruct l. Qed.

Lemma last_cons (x : string) l :
  l ≠ [] → List.last (x :: l) "" = List.last l "".
Proof. by destruct l. Qed.

Lemma walk_dotless o : ∀ n,
  forallb (λ s, negb (bool_decide (s = ".") || bool_decide (s = ".."))) o
    = true →
  PathResolver.walk n o = n ++ o.
Proof.
  induction o as [|s o IH]; intros n H; simpl.
  - by rewrite app_nil_r.
  - simpl in H. apply andb_true_iff in H as [Hs Ho].
    apply negb_true_iff, orb_false_iff in Hs as [H1 H2].
    apply bool_decide_eq_false in H1, H2.
    destruct (decide (s = ".")); [done|].
    destruct (decide (s = "..")); [done|].
    rewrite (IH _ Ho), <- app_assoc. done.
Qed.

Lemma join_cons sep x l :
  l ≠ [] → JS.join sep (x :: l) = x +:+ sep +:+ JS.join sep l.
Proof. by destruct l. Qed.

Lemma join_split s : JS.join "/" (JS.split s) = s.
Proof.
  induction s as [|c s IH]; [done|]. simpl.
  destruct (Ascii.eqb c "/") eqn:Hc.
  - apply Ascii.eqb_eq in Hc as ->.
    rewrite join_cons by apply split_nonempty. by rewrite IH.
  - pose proof (split_nonempty s) as Hne.
    destruct (JS.split s) as [|x xs]; [done|].
    destruct xs as [|y xs]; simpl in *; by rewrite <- IH.
Qed.

(** X5: an identifier other than ["exports"] none of whose leading
    segments is ["."] or [".."] is not taken as it stands: it is resolved
    against the directory of the referring module, like a relative
    one. *)
Theorem resolvePath_plain_identifier e t :
  t ≠ "exports" → dotless t = true →
  PathResolver.resolvePath e t
  = JS.join "/" (JS.dropLast (JS.split e) ++ JS.split t).
Proof.
  intros Ht Hd. unfold PathResolver.resolvePath.
  destruct (decide (t = "exports")); [done|].
  rewrite (walk_dotless _ _ Hd), <- app_assoc.
  by rewrite (dropLast_last _ (split_nonempty t)).
Qed.

Lemma resolvePath_plain_identifier_witness :
  PathResolver.resolvePath "widgets/list" "util/strings"
  = JS.join "/" (JS.dropLast (JS.split "widgets/list")
                 ++ JS.split "util/strings").
Proof.
  apply (resolvePath_plain_identifier "widgets/list" "util/strings").
  - discriminate.
  - reflexivity.
Defined.

(** X6: for a referring module whose name has no slash, resolution
    leaves every identifier without dot segments as it is. *)
Theorem resolvePath_top_level_referrer e t :
  JS.segment e = true → dotless t = true →
  PathResolver.resolvePath e t = t.
Proof.
  intros He Hd. unfold PathResolver.resolvePath.
  destruct (decide (t = "exports")); [done|].
  rewrite (split_segment e He). simpl.
  rewrite (walk_dotless _ _ Hd). simpl.
  rewrite (dropLast_last _ (split_nonempty t)). apply join_split.
Qed.

Lemma resolvePath_top_level_referrer_witness :
  PathResolver.resolvePath "app" "util/strings" = "util/strings".
Proof.
  apply (resolvePath_top_level_referrer "app" "util/strings"); reflexivity.
Defined.

(** X7: a leading ["./"] makes no difference: for every identifier other
    than ["exports"], [t] and ["./" + t] resolve to the same name against
    every referring module. *)
Theorem resolvePath_dot_slash_is_void e t :
  t ≠ "exports" →
  PathResolver.resolvePath e ("./" +:+ t) = PathResolver.resolvePath e t.
Proof.
  intros Ht. unfold PathResolver.resolvePath.
  destruct (decide (t = "exports")); [done|].
  destruct (decide ("./" +:+ t = "exports")) as [H|_]; [discriminate H|].
  change ("./" +:+ t) with ("." +:+ "/" +:+ t).
  rewrite (split_slash "." t eq_refl).
  rewrite (dropLast_cons _ _ (split_nonempty t)).
  rewrite (last_cons _ _ (split_nonempty t)). reflexivity.
Qed.

Lemma resolvePath_dot_slash_is_void_witness :
  PathResolver.resolvePath "a/b" ("./" +:+ "c") = PathResolver.resolvePath "a/b" "c".
Proof.
  apply (resolvePath_dot_slash_is_void "a/b" "c"). discriminate.
Defined.

(** ** URLBuilder: every list of registered modules *)

Lemma fullPathOf_alter_load x o y :
  fullPathOf (alter (set_load true) x o) y = fullPathOf o y.
Proof.
  unfold fullPathOf. destruct (decide (x = y)) as [->|Hne].
  - rewrite lookup_alter_eq. by destruct (o !! y).
  - by rewrite lookup_alter_ne.
Qed.

Lemma flagged_cons x e o :
  flagged (x :: e) o = flagged e (alter (set_load true) x o).
Proof. reflexivity. Qed.

Lemma flagged_lookup e : ∀ o k,
  flagged e o !! k
  = if decide (k ∈ e) then set_load true <$> o !! k else o !! k.
Proof.
  induction e as [|x e IH]; intros o k.
  - simpl. destruct (decide (k ∈ [])) as [H|_]; [|done].
    by apply elem_of_nil in H.
  - rewrite flagged_cons, IH.
    destruct (decide (x = k)) as [->|Hne].
    + rewrite lookup_alter_eq.
      destruct (decide (k ∈ k :: e)) as [_|H];
        [|exfalso; apply H, elem_of_cons; by left].
      destruct (decide (k ∈ e)); by destruct (o !! k).
    + rewrite lookup_alter_ne by done.
      destruct (decide (k ∈ e)) as [He|He];
        destruct (decide (k ∈ x :: e)) as [Hx|Hx]; try done.
      * exfalso. apply Hx, elem_of_cons. by right.
      * exfalso. apply elem_of_cons in Hx as [->|Hx]; done.
Qed.

Lemma plain_flagged e : ∀ o y, plain (flagged e o) y = plain o y.
Proof.
  induction e as [|x e IH]; intros o y; [done|].
  by rewrite flagged_cons, IH, plain_alter_load.
Qed.

Lemma alter_load_is_Some x (o : gmap string ModuleDesc) y :
  is_Some (alter (set_load true) x o !! y) ↔ is_Some (o !! y).
Proof.
  destruct (decide (x = y)) as [->|Hne].
  - rewrite lookup_alter_eq. by rewrite fmap_is_Some.
  - by rewrite lookup_alter_ne.
Qed.

Lemma alter_load_None x (o : gmap string ModuleDesc) y :
  alter (set_load true) x o !! y = None ↔ o !! y = None.
Proof. rewrite !eq_None_not_Some. by rewrite alter_load_is_Some. Qed.

Lemma gathered_alter_load cfg i x o (l : list string) :
  map (pathOf (alter (set_load true) x o)) l = map (pathOf o) l ∧
  map (fullPathOf (alter (set_load true) x o)) l = map (fullPathOf o) l ∧
  map (ownURL cfg i (alter (set_load true) x o)) l = map (ownURL cfg i o) l ∧
  List.filter (plain (alter (set_load true) x o)) l
    = List.filter (plain o) l ∧
  List.filter (λ y, negb (plain (alter (set_load true) x o) y)) l
    = List.filter (λ y, negb (plain o y)) l.
Proof.
  repeat split.
  - apply map_ext. intros y. apply pathOf_alter_load.
  - apply map_ext. intros y. apply fullPathOf_alter_load.
  - apply map_ext. intros y. unfold ownURL.
    by rewrite plain_alter_load, pathOf_alter_load, fullPathOf_alter_load.
  - apply filter_ext. intros y. apply plain_alter_load.
  - apply filter_ext. intros y. by rewrite plain_alter_load.
Qed.

(** What the loop of [build] has collected after the registered modules
    [e]: the paths to combine and the URLs. *)
Lemma gathered_cons cfg i o x e u (t n : list string) :
  o !! x = Some u →
  let '(t1, n1) :=
    if JS.truthyStr (fullPath u) then (t, n ++ [default "" (fullPath u)])
    else if ConfigParser.combine cfg
         then (t ++ [URLBuilder._getModulePath u], n)
         else (t, n ++ [ConfigParser.url cfg +:+ i +:+
                          URLBuilder._getModulePath u]) in
  if ConfigParser.combine cfg
  then t1 ++ map (pathOf o) (List.filter (plain o) e)
         = t ++ map (pathOf o) (List.filter (plain o) (x :: e)) ∧
       n1 ++ map (fullPathOf o) (List.filter (λ y, negb (plain o y)) e)
         = n ++ map (fullPathOf o)
                    (List.filter (λ y, negb (plain o y)) (x :: e))
  else t1 = t ∧
       n1 ++ map (ownURL cfg i o) e = n ++ map (ownURL cfg i o) (x :: e).
Proof.
  intros Hu.
  assert (Hplain : plain o x = negb (JS.truthyStr (fullPath u)))
    by (unfold plain; by rewrite Hu).
  assert (Hpath : pathOf o x = URLBuilder._getModulePath u)
    by (unfold pathOf; by rewrite Hu).
  assert (Hfull : fullPathOf o x = default "" (fullPath u))
    by (unfold fullPathOf; by rewrite Hu).
  cbn [List.filter map]. unfold ownURL at 2. rewrite Hplain.
  destruct (JS.truthyStr (fullPath u)), (ConfigParser.combine cfg);
    cbn [negb map]; rewrite ?Hpath, ?Hfull, <- ?app_assoc; done.
Qed.

(** The loop of [build], whatever it meets: it returns exactly when every
    name is registered, and a name that is not registered stops it with
    the modules before that name flagged. *)
Lemma buildLoop_outcome cfg i e : ∀ t n o,
  (∃ t' n', URLBuilder.buildLoop cfg i e t n o = Normal (t', n') (flagged e o) ∧
            (∀ x, x ∈ e → is_Some (o !! x)) ∧
            if ConfigParser.combine cfg
            then t' = t ++ map (pathOf o) (List.filter (plain o) e) ∧
                 n' = n ++ map (fullPathOf o)
                            (List.filter (λ x, negb (plain o x)) e)
            else t' = t ∧ n' = n ++ map (ownURL cfg i o) e) ∨
  (∃ l1 x l2, e = l1 ++ x :: l2 ∧ (∀ y, y ∈ l1 → is_Some (o !! y)) ∧
              o !! x = None ∧
              URLBuilder.buildLoop cfg i e t n o
                = Throw TypeError (flagged l1 o)).
Proof.
  induction e as [|x e IH]; intros t n o.
  - left. exists t, n. split; [done|]. split.
    + intros x H. by apply elem_of_nil in H.
    + destruct (ConfigParser.combine cfg); simpl; by rewrite !app_nil_r.
  - cbn [URLBuilder.buildLoop].
    destruct (o !! x) as [u|] eqn:Hu.
    2:{ right. exists [], x, e. split; [done|]. split; [|done].
        intros y H. by apply elem_of_nil in H. }
    pose proof (gathered_cons cfg i o x e u t n Hu) as Hg.
    destruct (if JS.truthyStr (fullPath u)
              then (t, n ++ [default "" (fullPath u)])
              else if ConfigParser.combine cfg
                   then (t ++ [URLBuilder._getModulePath u], n)
                   else (t, n ++ [ConfigParser.url cfg +:+ i +:+
                                    URLBuilder._getModulePath u]))
      as [t1 n1].
    destruct (gathered_alter_load cfg i x o e) as (E1 & E2 & E3 & E4 & E5).
    destruct (IH t1 n1 (alter (set_load true) x o))
      as [(t' & n' & Heq & Hreg & Hres)|(l1 & y & l2 & -> & Hl1 & Hy & Heq)].
    + left. exists t', n'. split; [by rewrite flagged_cons|]. split.
      { intros y [->|Hy]%elem_of_cons; [by rewrite Hu|].
        by apply (alter_load_is_Some x), Hreg. }
      destruct (ConfigParser.combine cfg).
      * rewrite E4, E5 in Hres.
        destruct (gathered_alter_load cfg i x o (List.filter (plain o) e))
          as (F1 & _).
        destruct (gathered_alter_load cfg i x o
                    (List.filter (λ y, negb (plain o y)) e)) as (_ & F2 & _).
        rewrite F1, F2 in Hres.
        destruct Hres as [-> ->], Hg as [<- <-]. done.
      * rewrite E3 in Hres. destruct Hres as [-> ->], Hg as [-> <-]. done.
    + right. exists (x :: l1), y, l2. split; [done|]. split.
      { intros z [->|Hz]%elem_of_cons; [by rewrite Hu|].
        by apply (alter_load_is_Some x), Hl1. }
      split; [by apply (alter_load_None x)|by rewrite flagged_cons].
Qed.


Lemma build_outcome e cp :
  let cfg := ConfigParser._config cp in
  let base := URLBuilder.slashed (ConfigParser.basePath cfg) in
  let o := ConfigParser._modules cp in
  ((∀ x, x ∈ e → is_Some (o !! x)) ∧
   URLBuilder.build e cp
   = Normal (if ConfigParser.combine cfg
             then map (fullPathOf o) (List.filter (λ x, negb (plain o x)) e)
                  ++ match List.filter (plain o) e with
                     | [] => []
                     | r => [combinedURL (ConfigParser.url cfg) base
                                         (map (pathOf o) r)]
                     end
             else map (ownURL cfg base o) e)
            (ConfigParser.with_modules (flagged e o) cp)) ∨
  (∃ l1 x l2, e = l1 ++ x :: l2 ∧ (∀ y, y ∈ l1 → is_Some (o !! y)) ∧
              o !! x = None ∧
              URLBuilder.build e cp
              = Throw TypeError (ConfigParser.with_modules (flagged l1 o) cp)).
Proof.
  intros cfg base o. unfold URLBuilder.build. fold cfg base o.
  destruct (buildLoop_outcome cfg base e [] [] o)
    as [(t' & n' & -> & Hreg & Hres)|(l1 & x & l2 & -> & Hl1 & Hx & ->)].
  - left. split; [done|]. f_equal.
    destruct (ConfigParser.combine cfg).
    + destruct Hres as [-> ->]. simpl.
      destruct (List.filter (plain o) e) as [|p ps] eqn:Hf;
        [simpl; by rewrite app_nil_r|].
      cbn [map]. f_equal. f_equal. unfold combinedURL.
      rewrite <- (join_prefixed base (pathOf o p :: map (pathOf o) ps))
        by done.
      reflexivity.
    + destruct Hres as [-> ->]. done.
  - right. exists l1, x, l2. done.
Qed.

(** X8: for every list of registered modules, [build] fetches a module
    with a [fullPath] from that path as it stands, whatever the
    configuration.  Without [combine] the URLs come one per module in the
    order of the list; with [combine] the full paths come first and the
    one combined URL of all other modules comes last, wherever those
    modules stood in the list. *)
Theorem build_full_paths_and_combined_url e cp :
  Graph.requestOk (ConfigParser._modules cp) e = true →
  let cfg := ConfigParser._config cp in
  let base := URLBuilder.slashed (ConfigParser.basePath cfg) in
  let o := ConfigParser._modules cp in
  ∃ cp',
    URLBuilder.build e cp
    = Normal (if ConfigParser.combine cfg
              then map (fullPathOf o) (List.filter (λ x, negb (plain o x)) e)
                   ++ match List.filter (plain o) e with
                      | [] => []
                      | r => [combinedURL (ConfigParser.url cfg) base
                                          (map (pathOf o) r)]
                      end
              else map (ownURL cfg base o) e) cp'.
Proof.
  intros Hreq cfg base o.
  pose proof (requestOk_spec _ _ Hreq) as Hreg.
  destruct (build_outcome e cp)
    as [(_ & Heq)|(l1 & x & l2 & -> & _ & Hx & _)].
  - eexists. exact Heq.
  - exfalso. destruct (Hreg x) as [u Hu].
    + apply elem_of_app. right. apply elem_of_cons. by left.
    + fold o in Hx. unfold o in Hx. rewrite Hx in Hu. discriminate Hu.
Qed.

(** X9: when [build] returns, the registry differs from the one it
    started with in the [load] flags only, set on exactly the modules of
    the list; configuration and conditional index are untouched. *)
Theorem build_sets_load_flags_only e cp urls cp' :
  URLBuilder.build e cp = Normal urls cp' →
  ConfigParser._config cp' = ConfigParser._config cp ∧
  ConfigParser._conditionalModules cp' = ConfigParser._conditionalModules cp ∧
  ∀ k, ConfigParser._modules cp' !! k
       = if decide (k ∈ e)
         then set_load true <$> ConfigParser._modules cp !! k
         else ConfigParser._modules cp !! k.
Proof.
  intros H.
  destruct (build_outcome e cp)
    as [(_ & Heq)|(l1 & x & l2 & _ & _ & _ & Heq)];
    rewrite Heq in H; [|discriminate H].
  injection H as _ <-. split; [done|]. split; [done|].
  intros k. apply flagged_lookup.
Qed.


Lemma build_full_paths_and_combined_url_witness :
  ∃ cp', URLBuilder.build ["mod1"; "cdn"; "mod2"] Examples.mixed
         = Normal ["http://cdn/x.js";
                   "http://h/combo?/base/mod1.js&/base/mod2.js"] cp'.
Proof.
  destruct (build_full_paths_and_combined_url ["mod1"; "cdn"; "mod2"]
              Examples.mixed) as [cp' H].
  - vm_compute. reflexivity.
  - exists cp'. rewrite H. vm_compute. reflexivity.
Defined.

Lemma build_sets_load_flags_only_witness :
  ∃ urls cp', URLBuilder.build ["mod1"] Examples.twoModules = Normal urls cp' ∧
    ConfigParser._modules cp' !! "mod2"
    = ConfigParser._modules Examples.twoModules !! "mod2" ∧
    ConfigParser._modules cp' !! "mod1"
    = set_load true <$> ConfigParser._modules Examples.twoModules !! "mod1".
Proof.
  destruct (build_outcome ["mod1"] Examples.twoModules)
    as [(_ & Heq)|(l1 & x & l2 & _ & _ & _ & Heq)].
  - eexists _, _. split; [exact Heq|].
    destruct (build_sets_load_flags_only _ _ _ _ Heq) as (_ & _ & Hk).
    split; [apply (Hk "mod2")|apply (Hk "mod1")].
  - exfalso. vm_compute in Heq. discriminate Heq.
Defined.


(** ** ConfigParser: registry and index as the constructor fills them *)

Lemma parseModules_cons k d raw cp :
  ConfigParser._parseModules ((k, d) :: raw) cp
  = ConfigParser._parseModules raw (ConfigParser.addModule (set_name k d) cp).
Proof. reflexivity. Qed.

Lemma parseModules_index raw t : ∀ cp,
  ConfigParser._conditionalModules (ConfigParser._parseModules raw cp) !! t
  = match List.filter (triggeredBy t) raw with
    | [] => ConfigParser._conditionalModules cp !! t
    | l => Some (default [] (ConfigParser._conditionalModules cp !! t)
                 ++ map fst l)
    end.
Proof.
  induction raw as [|[k d] raw IH]; intros cp; [done|].
  rewrite parseModules_cons, IH, addModule_conditionals.
  cbn [List.filter]. unfold triggeredBy at 2. cbn [snd fst].
  change (condition (set_name k d)) with (condition d).
  change (name (set_name k d)) with k.
  destruct (condition d) as [c|] eqn:Hc; [|done].
  destruct (decide (trigger c = t)) as [->|Hne].
  - rewrite bool_decide_eq_true_2 by done. rewrite lookup_insert_eq.
    destruct (List.filter (triggeredBy t) raw) as [|x l]; simpl.
    + done.
    + by rewrite <- app_assoc.
  - rewrite bool_decide_eq_false_2 by done.
    rewrite lookup_insert_ne by done. done.
Qed.

(** X11: the conditional index the constructor builds lists, under
    every trigger, the keys of the configuration entries whose condition
    names that trigger, in the order in which the configuration
    enumerates them; a trigger no entry names has no index entry. *)
Theorem parser_index_in_configuration_order cfg raw t :
  ConfigParser._conditionalModules (ConfigParser.new cfg raw) !! t
  = match List.filter (triggeredBy t) raw with
    | [] => None
    | l => Some (map fst l)
    end.
Proof.
  unfold ConfigParser.new. rewrite parseModules_index. simpl.
  rewrite lookup_empty. done.
Qed.

Lemma parseModules_lookup raw : ∀ cp k,
  NoDup raw.*1 →
  ConfigParser._modules (ConfigParser._parseModules raw cp) !! k
  = match list_find (λ kv, kv.1 = k) raw with
    | Some (_, (_, d)) => Some (ConfigParser.resolvePath (set_name k d))
    | None => ConfigParser._modules cp !! k
    end.
Proof.
  induction raw as [|[k' d] raw IH]; intros cp k Hnd; [done|].
  apply NoDup_cons in Hnd as [Hk' Hnd].
  rewrite parseModules_cons, (IH _ _ Hnd), addModule_modules.
  cbn [list_find]. change (name (set_name k' d)) with k'.
  destruct (decide ((k', d).1 = k)) as [Heq|Hne]; simpl in *.
  - subst k'. destruct (list_find (λ kv, kv.1 = k) raw)
      as [[i [k2 d2]]|] eqn:Hf.
    + exfalso. apply list_find_Some in Hf as (Hi & Hk2 & _). simpl in Hk2.
      subst k2. apply Hk'. apply list_elem_of_fmap. exists (k, d2).
      split; [done|]. by eapply list_elem_of_lookup_2.
    + simpl. by rewrite lookup_insert_eq.
  - destruct (list_find (λ kv, kv.1 = k) raw) as [[i [k2 d2]]|]; simpl.
    + done.
    + by rewrite lookup_insert_ne.
Qed.

(** X12: the constructor stores every entry of a configuration with
    distinct keys under its key, stamped with the key as its name and
    with its dependencies resolved against that name; a name that is no
    key of the configuration has no descriptor. *)
Theorem parser_registers_every_entry cfg raw :
  NoDup raw.*1 →
  (∀ k d, (k, d) ∈ raw →
     ConfigParser._modules (ConfigParser.new cfg raw) !! k
     = Some (set_dependencies
               (map (PathResolver.resolvePath k) (dependencies d))
               (set_name k d))) ∧
  (∀ k, k ∉ raw.*1 →
     ConfigParser._modules (ConfigParser.new cfg raw) !! k = None).
Proof.
  intros Hnd. unfold ConfigParser.new. split.
  - intros k d Hin. rewrite (parseModules_lookup _ _ _ Hnd).
    destruct (list_find (λ kv, kv.1 = k) raw) as [[i [k2 d2]]|] eqn:Hf.
    + apply list_find_Some in Hf as (Hi & Hk2 & _). simpl in Hk2. subst k2.
      apply list_elem_of_lookup in Hin as [j Hj].
      assert (i = j) as ->.
      { apply (NoDup_lookup raw.*1 i j k Hnd);
          rewrite list_lookup_fmap; [by rewrite Hi|by rewrite Hj]. }
      rewrite Hi in Hj. injection Hj as ->. done.
    + exfalso. apply list_find_None in Hf.
      rewrite Forall_forall in Hf. by apply (Hf (k, d) Hin).
  - intros k Hk. rewrite (parseModules_lookup _ _ _ Hnd).
    destruct (list_find (λ kv, kv.1 = k) raw) as [[i [k2 d2]]|] eqn:Hf.
    + exfalso. apply list_find_Some in Hf as (Hi & Hk2 & _). simpl in Hk2.
      subst k2. apply Hk. apply list_elem_of_fmap. exists (k, d2).
      split; [done|]. by eapply list_elem_of_lookup_2.
    + apply lookup_empty.
Qed.

Lemma parser_registers_every_entry_witness :
  ConfigParser._modules Examples.diamond !! "lib"
  = Some (set_dependencies ["util"] (set_name "lib" (descriptor ["util"] None))) ∧
  ConfigParser._modules Examples.diamond !! "missing" = None.
Proof.
  assert (Hnd : NoDup ["app"; "lib"; "util"; "extra"]).
  { repeat (apply NoDup_cons; split;
      [intros H; repeat (apply elem_of_cons in H as [H|H];
                         [discriminate H|]); by apply elem_of_nil in H|]).
    apply NoDup_nil_2. }
  destruct (parser_registers_every_entry Examples.combo
    [("app", descriptor ["lib"; "util"; "exports"] None);
     ("lib", descriptor ["util"] None);
     ("util", descriptor [] None);
     ("extra", descriptor ["lib"]
                 (Some {| trigger := "util"; test := true |}))] Hnd)
    as [Hin Hout].
  split.
  - apply (Hin "lib" (descriptor ["util"] None)).
    apply elem_of_cons. right. apply elem_of_cons. by left.
  - apply (Hout "missing"). intros H.
    repeat (apply elem_of_cons in H as [H|H]; [discriminate H|]).
    by apply elem_of_nil in H.
Defined.

(** X13: [addModule] appends to the index without looking: when a
    descriptor with a condition is added and a descriptor of the same
    name with the same condition is added after it, as when a configured
    conditional module is declared with its descriptor, the name is
    listed twice under the trigger. *)
Theorem addModule_again_lists_twice e1 e2 c cp :
  condition e1 = Some c → condition e2 = Some c → name e2 = name e1 →
  let cp2 := ConfigParser.addModule e2 (ConfigParser.addModule e1 cp) in
  ConfigParser._conditionalModules cp2 !! trigger c
  = Some (default [] (ConfigParser._conditionalModules cp !! trigger c)
          ++ [name e1; name e1]) ∧
  ¬ NoDup (default [] (ConfigParser._conditionalModules cp2 !! trigger c)).
Proof.
  intros Hc1 Hc2 Hn. simpl.
  assert (H : ConfigParser._conditionalModules
                (ConfigParser.addModule e2 (ConfigParser.addModule e1 cp))
              !! trigger c
              = Some (default [] (ConfigParser._conditionalModules cp
                                    !! trigger c) ++ [name e1; name e1])).
  { rewrite !addModule_conditionals.
    rewrite Hc1, Hc2, Hn, !lookup_insert_eq. simpl. by rewrite <- app_assoc. }
  split; [exact H|]. rewrite H. simpl. intros Hnd.
  apply NoDup_app in Hnd as (_ & _ & Hnd).
  apply NoDup_cons in Hnd as [Hnd _]. apply Hnd. apply elem_of_cons. by left.
Qed.

Lemma addModule_again_lists_twice_witness :
  ConfigParser._conditionalModules
    (ConfigParser.addModule (ConfigParser.resolvePath Examples.triggeredB)
       (ConfigParser.addModule Examples.triggeredB
          (ConfigParser.new Examples.combo [])))
  !! "A" = Some ([] ++ ["B"; "B"]).
Proof.
  refine (proj1 (addModule_again_lists_twice Examples.triggeredB
            (ConfigParser.resolvePath Examples.triggeredB)
            {| trigger := "A"; test := true |}
            (ConfigParser.new Examples.combo []) _ _ _)).
  - vm_compute. reflexivity.
  - vm_compute. reflexivity.
  - reflexivity.
Defined.

(** ** Loader: declarations and the registry *)

Lemma checkLoop_ready l cp :
  forallb (readyIn cp) l = true → Loader.checkLoop l cp = Normal true cp.
Proof.
  induction l as [|i l IH]; [done|]. simpl.
  intros [Hi Hl]%andb_true_iff.
  destruct (decide (i = "exports")); [by apply IH|].
  unfold readyIn, implementedIn in Hi.
  rewrite bool_decide_eq_false_2 in Hi by done. simpl in Hi.
  unfold Loader.getModules.
  destruct (ConfigParser._modules cp !! i) as [s|]; [|done].
  rewrite Hi. by apply IH.
Qed.

Lemma checkLoop_first_unready l1 d l2 cp :
  forallb (readyIn cp) l1 = true → readyIn cp d = false →
  Loader.checkLoop (l1 ++ d :: l2) cp
  = match ConfigParser._modules cp !! d with
    | Some _ => Normal false cp
    | None => Throw (Thrown ("Dependency " +:+ d +:+
                             " not registered as module.")) cp
    end.
Proof.
  intros Hl1 Hd. induction l1 as [|i l1 IH]; simpl.
  - unfold readyIn, implementedIn in Hd.
    apply orb_false_iff in Hd as [Hd1 Hd2].
    apply bool_decide_eq_false in Hd1.
    destruct (decide (d = "exports")); [done|].
    unfold Loader.getModules.
    destruct (ConfigParser._modules cp !! d) as [s|]; [|done].
    by rewrite Hd2.
  - simpl in Hl1. apply andb_true_iff in Hl1 as [Hi Hl1].
    destruct (decide (i = "exports")); [by apply IH|].
    unfold readyIn, implementedIn in Hi.
    rewrite bool_decide_eq_false_2 in Hi by done. simpl in Hi.
    unfold Loader.getModules.
    destruct (ConfigParser._modules cp !! i) as [s|]; [|done].
    rewrite Hi. by apply IH.
Qed.



Lemma factoryArgs_spec deps : ∀ n t cp,
  (∀ x, x ∈ deps → x ≠ "exports" → is_Some (ConfigParser._modules cp !! x)) →
  Loader.factoryArgs deps n t cp
  = Normal (n ++ map (argumentFor cp) deps,
            t || bool_decide ("exports" ∈ deps)) cp.
Proof.
  induction deps as [|u deps IH]; intros n t cp Hreg.
  - cbn [Loader.factoryArgs map]. rewrite app_nil_r.
    rewrite bool_decide_eq_false_2 by apply not_elem_of_nil.
    by rewrite orb_false_r.
  - cbn [Loader.factoryArgs map].
    assert (Hreg' : ∀ x, x ∈ deps → x ≠ "exports" →
                         is_Some (ConfigParser._modules cp !! x)).
    { intros x Hx. apply Hreg. apply elem_of_cons. by right. }
    destruct (decide (u = "exports")) as [->|Hne].
    + rewrite (IH _ _ _ Hreg'), <- app_assoc.
      change (argumentFor cp "exports") with (JS.VObj []). cbn [app].
      rewrite (bool_decide_eq_true_2 ("exports" ∈ "exports" :: deps))
        by (apply elem_of_cons; by left).
      by rewrite orb_true_r.
    + destruct (Hreg u) as [a Ha]; [apply elem_of_cons; by left|done|].
      assert (Harg : argumentFor cp u = implementation a).
      { unfold argumentFor. destruct (decide (u = "exports")); [done|].
        by rewrite Ha. }
      unfold Loader.getModules. rewrite Ha, Harg.
      rewrite (IH _ _ _ Hreg'), <- app_assoc. cbn [app]. do 3 f_equal.
      apply bool_decide_ext. rewrite elem_of_cons. split; [by right|].
      intros [H|H]; [congruence|done].
Qed.

Lemma ready_registered cp l x :
  forallb (readyIn cp) l = true → x ∈ l → x ≠ "exports" →
  is_Some (ConfigParser._modules cp !! x).
Proof.
  intros Hl Hx Hne. rewrite forallb_elem in Hl. specialize (Hl x Hx).
  unfold readyIn, implementedIn in Hl.
  rewrite bool_decide_eq_false_2 in Hl by done. simpl in Hl.
  by destruct (ConfigParser._modules cp !! x).
Qed.

(** What [define] does when every dependency is ready. *)
Lemma define_at_once e t n o cp :
  let s := Loader.defineDescriptor e t n o in
  forallb (readyIn cp) (dependencies s) = true →
  let d := ConfigParser.resolvePath
             (set_implementation (implementationOf n cp (dependencies s)) s) in
  Loader.define e t n o cp
  = Normal (Loader.Registered d)
      (ConfigParser.addModule
         (set_implementation (implementationOf n cp (dependencies s)) s) cp).
Proof.
  intros s Hready d. unfold Loader.define. fold s.
  unfold mbind, M_bind. unfold Loader._checkModuleDependencies.
  rewrite (checkLoop_ready _ _ Hready).
  unfold Loader._registerModule, mbind, M_bind.
  rewrite factoryArgs_spec by (intros x; by apply ready_registered).
  unfold Loader.applyFactory.
  change (pendingImplementation s) with (Some n). cbn [fst snd app orb].
  unfold implementationOf in d |- *.
  destruct (n (map (argumentFor cp) (dependencies s))) as [c ex].
  unfold mret, M_ret. do 2 f_equal.
  unfold Loader.getModules. rewrite addModule_stores. done.
Qed.

(** X15: a declaration all of whose dependencies are ready is
    registered at once, under its name, with the implementation the
    factory returned; a factory that returns nothing truthy and was not
    given an ["exports"] object leaves the module registered without an
    implementation, so that it still counts as not implemented. *)
Theorem define_registers_factory_result e t n o cp :
  let s := Loader.defineDescriptor e t n o in
  forallb (readyIn cp) (dependencies s) = true →
  ∃ d cp',
    Loader.define e t n o cp = Normal (Loader.Registered d) cp' ∧
    ConfigParser._modules cp' !! e = Some d ∧
    implementation d = implementationOf n cp (dependencies s) ∧
    (JS.truthy (n (map (argumentFor cp) (dependencies s))).1 = false →
     "exports" ∉ dependencies s →
     implementation d = JS.VUndefined ∧
     implementedIn cp' e = false ∧
     Loader._filterModulesNoImpl [e] cp' = [e]).
Proof.
  intros s Hready. eexists _, _. split; [by apply define_at_once|].
  assert (Hlook : ConfigParser._modules
                    (ConfigParser.addModule
                       (set_implementation
                          (implementationOf n cp (dependencies s)) s) cp)
                  !! e = Some (ConfigParser.resolvePath
                                 (set_implementation
                                    (implementationOf n cp (dependencies s))
                                    s))).
  { exact (addModule_stores
             (set_implementation (implementationOf n cp (dependencies s)) s)
             cp). }
  split; [exact Hlook|]. split; [done|].
  intros Hfalsy Hexp.
  cbn [ConfigParser.resolvePath implementation set_dependencies
       set_implementation].
  assert (Himpl : implementationOf n cp (dependencies s) = JS.VUndefined).
  { unfold implementationOf.
    destruct (n (map (argumentFor cp) (dependencies s))) as [c ex].
    simpl in Hfalsy. rewrite Hfalsy.
    by rewrite bool_decide_eq_false_2. }
  split; [done|].
  assert (Hnot : implementedIn
            (ConfigParser.addModule
               (set_implementation
                  (implementationOf n cp (dependencies s)) s) cp) e = false).
  { unfold implementedIn. rewrite Hlook.
    cbn [ConfigParser.resolvePath implementation set_dependencies
         set_implementation]. by rewrite Himpl. }
  split; [exact Hnot|].
  unfold Loader._filterModulesNoImpl, Loader.getModules. cbn [List.filter].
  unfold implementedIn in Hnot.
  destruct (ConfigParser._modules _ !! e) as [r|]; [|done].
  by rewrite Hnot.
Qed.

Lemma define_registers_factory_result_witness :
  ∃ d cp',
    Loader.define "polyfill" ["./c"] Examples.silent None
      (ConfigParser.new Examples.combo
         [("c", Examples.implemented (JS.VObj [("c", 1%Z)]))])
    = Normal (Loader.Registered d) cp' ∧
    implementation d = JS.VUndefined ∧
    implementedIn cp' "polyfill" = false.
Proof.
  destruct (define_registers_factory_result "polyfill" ["./c"]
              Examples.silent None
              (ConfigParser.new Examples.combo
                 [("c", Examples.implemented (JS.VObj [("c", 1%Z)]))]))
    as (d & cp' & Hdef & _ & _ & Hsilent).
  - vm_compute. reflexivity.
  - exists d, cp'. split; [exact Hdef|].
    destruct Hsilent as (H1 & H2 & _).
    + reflexivity.
    + vm_compute. intros H. apply elem_of_cons in H as [H|H];
        [discriminate H|by apply elem_of_nil in H].
    + done.
Defined.

Lemma forallb_first_false {A} (f : A → bool) l :
  forallb f l = false →
  ∃ l1 d l2, l = l1 ++ d :: l2 ∧ forallb f l1 = true ∧ f d = false.
Proof.
  induction l as [|x l IH]; [done|]. simpl. intros H.
  destruct (f x) eqn:Hx.
  - destruct (IH H) as (l1 & d & l2 & -> & H1 & Hd).
    exists (x :: l1), d, l2. simpl. by rewrite Hx.
  - exists [], x, l. done.
Qed.

(** The three ways the executor of [define] ends. *)
Lemma define_cases e t n o cp :
  let s := Loader.defineDescriptor e t n o in
  (forallb (readyIn cp) (dependencies s) = true ∧
   Loader.define e t n o cp
   = Normal (Loader.Registered
               (ConfigParser.resolvePath
                  (set_implementation
                     (implementationOf n cp (dependencies s)) s)))
       (ConfigParser.addModule
          (set_implementation (implementationOf n cp (dependencies s)) s)
          cp)) ∨
  (∃ l1 d l2, dependencies s = l1 ++ d :: l2 ∧
              forallb (readyIn cp) l1 = true ∧ readyIn cp d = false ∧
              Loader.define e t n o cp
              = match ConfigParser._modules cp !! d with
                | Some _ => Normal (Loader.Deferred s) cp
                | None => Throw (Thrown ("Dependency " +:+ d +:+
                                         " not registered as module.")) cp
                end).
Proof.
  intros s. destruct (forallb (readyIn cp) (dependencies s)) eqn:Hready.
  - left. split; [done|]. by apply define_at_once.
  - right. destruct (forallb_first_false _ _ Hready)
      as (l1 & d & l2 & Hs & Hl1 & Hd).
    exists l1, d, l2. split; [done|]. split; [done|]. split; [done|].
    unfold Loader.define. fold s. unfold mbind, M_bind.
    unfold Loader._checkModuleDependencies. rewrite Hs.
    rewrite (checkLoop_first_unready l1 d l2 cp Hl1 Hd).
    by destruct (ConfigParser._modules cp !! d).
Qed.



(** X17: a declaration made without a descriptor object replaces the
    descriptor the configuration gave the module by a fresh one: the
    registered descriptor has no [path], no [fullPath] and no
    [condition], while the conditional index keeps every entry it
    had. *)
Theorem define_without_descriptor_drops_configuration e t n cp d cp' :
  Loader.define e t n None cp = Normal (Loader.Registered d) cp' →
  ConfigParser._modules cp' = <[e := d]> (ConfigParser._modules cp) ∧
  path d = None ∧ fullPath d = None ∧ condition d = None ∧
  ConfigParser._conditionalModules cp' = ConfigParser._conditionalModules cp.
Proof.
  intros H.
  destruct (define_cases e t n None cp)
    as [(_ & Heq)|(l1 & x & l2 & _ & _ & _ & Heq)]; rewrite Heq in H.
  - injection H as <- <-. rewrite addModule_modules, addModule_conditionals.
    done.
  - by destruct (ConfigParser._modules cp !! x).
Qed.

Lemma define_without_descriptor_drops_configuration_witness :
  ∃ d cp',
    Loader.define "B" [] Examples.factory None Examples.triggered
    = Normal (Loader.Registered d) cp' ∧
    condition Examples.triggeredB
    = Some {| trigger := "A"; test := true |} ∧
    condition d = None ∧
    ConfigParser._conditionalModules cp' !! "A" = Some ["B"].
Proof.
  destruct (define_cases "B" [] Examples.factory None Examples.triggered)
    as [(_ & Heq)|(l1 & x & l2 & Hs & _)].
  - eexists _, _. split; [exact Heq|]. split; [reflexivity|].
    destruct (define_without_descriptor_drops_configuration _ _ _ _ _ _ Heq)
      as (_ & _ & _ & Hc & Hi).
    split; [exact Hc|]. rewrite Hi. vm_compute. reflexivity.
  - exfalso. by destruct l1.
Defined.





(** X20: when some module of the list lacks an implementation,
    [_waitForImplementations] makes one promise for every index of the
    whole list, but reads the names from the shorter list of the modules
    still missing.  The first promises wait for the missing modules; every
    index past that list reads [undefined] and asks for the module
    registered under ["undefined"], and unless there is one the executor
    of that promise throws a [TypeError], so that a rejected promise goes
    to [Promise.all] whenever some, but not all, modules are missing. *)
Theorem waitForImplementations_reads_past_missing_list e cp :
  let o := Loader._filterModulesNoImpl e cp in
  o ≠ [] →
  ∃ ws, Loader._waitForImplementations e cp = inr ws ∧
        length ws = length e ∧
        (∀ s x, o !! s = Some x →
           ws !! s = Some (Loader._waitForImplementation
                             (ConfigParser._modules cp !! x))) ∧
        (∀ s, length o ≤ s → s < length e →
           ws !! s = Some (Loader._waitForImplementation
                             (ConfigParser._modules cp !! "undefined"))) ∧
        (length o < length e →
         ConfigParser._modules cp !! "undefined" = None →
         Loader.Failed TypeError ∈ ws).
Proof.
  intros o Ho. unfold Loader._waitForImplementations. fold o.
  destruct o as [|y o'] eqn:Heqo; [done|]. rewrite <- Heqo. clear Ho.
  eexists. split; [reflexivity|].
  assert (Hlen : length o ≤ length e).
  { unfold o, Loader._filterModulesNoImpl. apply filter_length_le. }
  split; [by rewrite length_map, length_seq|].
  assert (Hat : ∀ s, s < length e →
            map (λ s, Loader._waitForImplementation
                        (Loader.getModules cp !! Loader.propertyKey (o !! s)))
                (seq 0 (length e)) !! s
            = Some (Loader._waitForImplementation
                      (Loader.getModules cp !! Loader.propertyKey (o !! s)))).
  { intros s Hs. change (map ?f ?l) with (f <$> l).
    rewrite list_lookup_fmap, lookup_seq_lt by done. done. }
  split; [|split].
  - intros s x Hx. rewrite Hat.
    + by rewrite Hx.
    + apply lookup_lt_Some in Hx. lia.
  - intros s Hs1 Hs2. rewrite (Hat s Hs2).
    by rewrite (lookup_ge_None_2 o s Hs1).
  - intros Hshort Hnone. apply (list_elem_of_lookup_2 _ (length o)).
    rewrite (Hat _ Hshort), (lookup_ge_None_2 o (length o)) by done.
    unfold Loader.propertyKey, Loader.getModules. simpl. by rewrite Hnone.
Qed.

Lemma waitForImplementations_reads_past_missing_list_witness :
  ∃ ws, Loader._waitForImplementations ["a/c"; "a/b"] Examples.oneImplemented
        = inr ws ∧ Loader.Failed TypeError ∈ ws.
Proof.
  destruct (waitForImplementations_reads_past_missing_list ["a/c"; "a/b"]
              Examples.oneImplemented) as (ws & Heq & _ & _ & _ & Hfail).
  - vm_compute. discriminate.
  - exists ws. split; [exact Heq|]. apply Hfail.
    + vm_compute. lia.
    + vm_compute. reflexivity.
Defined.

(** ** DependencyBuilder: what a pass holds, and what stops it *)

Lemma visit_stale_index_entry fuel s A a B r l2 :
  getModules s !! A = Some a → tmpMark a = false → conditionalMark a = false →
  getConditionalModules s !! name a = Some (B :: l2) →
  getModules s !! B = Some r → condition r = None → name r ∉ _queue s →
  _visit (S fuel) A s = Throw TypeError s.
Proof.
  intros Ha Htmp Hcm Hidx Hr Hcond Hq. cbn [_visit]. rewrite Ha, Htmp.
  unfold mbind at 1, M_bind at 1.
  assert (H : _processConditionalModules A s = Throw TypeError s).
  { unfold _processConditionalModules. rewrite Ha, Hidx, Hcm.
    unfold mbind, M_bind. cbn [forEach]. unfold mbind, M_bind.
    unfold considerConditional at 1. rewrite Hr, Hcond.
    by destruct (decide (name r ∈ _queue s)). }
  by rewrite H.
Qed.

(** X21: an index entry that names a module whose descriptor has no
    condition stops the pass: when the trigger is visited and the module
    is not queued, reading the test of the missing condition throws a
    [TypeError], which leaves [resolveDependencies] after the
    cleanup. *)
Theorem pass_over_stale_index_entry_throws b A a B r l2 req :
  getModules b !! A = Some a → unflagged a →
  getConditionalModules b !! name a = Some (B :: l2) →
  getModules b !! B = Some r → condition r = None → name r ∉ A :: req →
  resolveDependencies (A :: req) b = Throw TypeError (_cleanup b).
Proof.
  intros Ha (Hm & Htmp & Hcm) Hidx Hr Hcond Hq.
  pose proof (resolveDependencies_total (A :: req) b) as Htot.
  unfold wp in Htot. unfold resolveDependencies in *.
  assert (H : _resolveDependencies (seed (A :: req) b)
              = Throw TypeError (seed (A :: req) b)).
  { unfold _resolveDependencies, turnBudget, depthBudget.
    cbn [resolveFrom]. change (_queue (seed (A :: req) b) !! 0) with (Some A).
    change (getModules (seed (A :: req) b)) with (getModules b).
    cbv iota beta. rewrite Ha, Hm. unfold mbind at 1, M_bind at 1.
    by rewrite (visit_stale_index_entry _ (seed (A :: req) b) A a B r l2). }
  rewrite H in Htot |- *. by rewrite Htot.
Qed.

Lemma pass_over_stale_index_entry_throws_witness :
  resolveDependencies ["A"] (new Examples.redeclared)
  = Throw TypeError (_cleanup (new Examples.redeclared)).
Proof.
  apply (pass_over_stale_index_entry_throws (new Examples.redeclared) "A"
           (default Loader.blank
              (ConfigParser._modules Examples.redeclared !! "A"))
           "B"
           (default Loader.blank
              (ConfigParser._modules Examples.redeclared !! "B"))
           [] []).
  - vm_compute. reflexivity.
  - vm_compute. repeat split.
  - vm_compute. reflexivity.
  - vm_compute. reflexivity.
  - vm_compute. reflexivity.
  - vm_compute. intros H. apply elem_of_cons in H as [H|H];
      [discriminate H|by apply elem_of_nil in H].
Defined.

(** *** Only what the request reaches *)

Section Calls3.
Context {S A : Type}.

Lemma wlp_ret {B} (a : B) (Q : B → S → Prop) E (s : S) :
  Q a s → wlp (mret a) Q E s.
Proof. done. Qed.

Lemma wlp_forEach (I : S → Prop) (E : exn → S → Prop)
    (body : A → M S unit) l :
  (∀ x s, x ∈ l → I s → wlp (body x) (λ _ s', I s') E s) →
  ∀ s, I s → wlp (forEach body l) (λ _ s', I s') E s.
Proof.
  induction l as [|x l IH]; intros Hbody s Hs; [done|].
  cbn [forEach]. apply wlp_bind.
  eapply wlp_mono; [| |apply Hbody]; [|done|apply elem_of_cons; by left|done].
  intros [] s1 H1. simpl. apply IH; [|done].
  intros y s2 Hy. apply Hbody. apply elem_of_cons. by right.
Qed.
End Calls3.

Section Sound.
Variable cp0 : ConfigParser.t.
Variable req : list string.
Abbreviation G := (Pass.G cp0).
Abbreviation C := (Pass.C cp0).

Hypothesis Hnames : ∀ k e, G !! k = Some e → name e = k.

Lemma static_lookup s k e :
  erased s = erased (new cp0) → getModules s !! k = Some e →
  ∃ e0, G !! k = Some e0 ∧ name e = name e0 ∧
        dependencies e = dependencies e0 ∧ condition e = condition e0.
Proof.
  intros Hs He.
  destruct (erased_lookup (new cp0) s k e Hs He) as (e0 & He0 & Hc).
  exists e0. split; [done|]. symmetry in Hc.
  destruct (clearMarks_fields _ _ Hc) as (? & ? & ?). done.
Qed.

Lemma soundFor_assigned f k s :
  (∀ e, clearMarks (f e) = clearMarks e) →
  soundFor cp0 req s → soundFor cp0 req (assigned f k s).
Proof.
  intros Hf (Hs & Hq & Hr). split; [|done].
  by rewrite (erased_assigned f k s Hf).
Qed.

Lemma considerConditional_sound k e0 t dep s :
  G !! k = Some e0 → C !! name e0 = Some t → dep ∈ t →
  Graph.reachable G C req k → soundFor cp0 req s →
  wlp (considerConditional dep) (λ _ s', soundFor cp0 req s')
      (λ _ _, True) s.
Proof.
  intros Hk Ht Hdep Hreach (Hs & Hq & Hr).
  unfold wlp, considerConditional.
  destruct (getModules s !! dep) as [r|] eqn:Hdr; [|done].
  destruct (decide (name r ∈ _queue s)); [done|].
  destruct (condition r) as [c|] eqn:Hc; [|done].
  unfold _testConditionalModule. destruct (test c) eqn:Htest; [|done].
  simpl. split; [done|]. split; [|done].
  intros x [Hx|Hx]%elem_of_app; [by apply Hq|].
  apply list_elem_of_singleton in Hx as ->.
  destruct (static_lookup s dep r Hs Hdr) as (r0 & Hr0 & Hn & _ & Hc0).
  rewrite Hn, (Hnames dep r0 Hr0).
  destruct Hreach as (q & Hq0 & Hrtc). exists q. split; [done|].
  eapply rtc_r; [exact Hrtc|]. right.
  exists e0, t, r0, c. rewrite <- Hc0. done.
Qed.

Lemma processConditionalModules_sound k s :
  Graph.reachable G C req k → soundFor cp0 req s →
  wlp (_processConditionalModules k) (λ _ s', soundFor cp0 req s')
      (λ _ _, True) s.
Proof.
  intros Hreach Hsound. unfold wlp at 1, _processConditionalModules.
  destruct (getModules s !! k) as [e|] eqn:He; [|done].
  destruct (getConditionalModules s !! name e) as [t|] eqn:Ht; [|done].
  destruct (conditionalMark e); [done|].
  destruct (static_lookup s k e (proj1 Hsound) He) as (e0 & He0 & Hn & _).
  assert (Ht0 : C !! name e0 = Some t).
  { rewrite <- Hn, <- Ht.
    by rewrite (erased_conditionals (new cp0) s (proj1 Hsound)). }
  change (wlp (forEach considerConditional t ;;
               update (set_conditionalMark true) k)
              (λ _ s', soundFor cp0 req s') (λ _ _, True) s).
  apply wlp_bind.
  eapply wlp_mono; [| |apply (wlp_forEach (soundFor cp0 req))]; [|done| |done].
  - intros [] s1 H1. simpl.
    apply (soundFor_assigned _ k s1); [|done]. intros ?.
    apply clearMarks_conditionalMark.
  - intros x s1 Hx H1. by eapply considerConditional_sound.
Qed.

Lemma visit_sound fuel : ∀ k s,
  Graph.reachable G C req k → soundFor cp0 req s →
  wlp (_visit fuel k) (λ _ s', soundFor cp0 req s') (λ _ _, True) s.
Proof.
  induction fuel as [|fuel IH]; intros k s Hreach Hsound; [done|].
  unfold wlp at 1. simpl.
  destruct (getModules s !! k) as [e|] eqn:He; [|done].
  destruct (tmpMark e); [done|].
  change (wlp (_processConditionalModules k ;;
               if mark e then mret tt
               else update (set_tmpMark true) k ;;
                    forEach (λ o, if decide (o = "exports") then mret tt
                                  else _visit fuel o) (dependencies e) ;;
                    update (λ m, set_tmpMark false (set_mark true m)) k ;;
                    unshift (name e))
              (λ _ s', soundFor cp0 req s') (λ _ _, True) s).
  destruct (static_lookup s k e (proj1 Hsound) He)
    as (e0 & He0 & Hn & Hd & _).
  apply wlp_bind.
  eapply wlp_mono; [| |by apply processConditionalModules_sound]; [|done].
  intros [] s1 H1. simpl.
  destruct (mark e); [done|].
  change (wlp (forEach (λ o, if decide (o = "exports") then mret tt
                             else _visit fuel o) (dependencies e) ;;
               update (λ m, set_tmpMark false (set_mark true m)) k ;;
               unshift (name e))
              (λ _ s', soundFor cp0 req s') (λ _ _, True)
              (assigned (set_tmpMark true) k s1)).
  apply wlp_bind.
  eapply wlp_mono;
    [| |apply (wlp_forEach (soundFor cp0 req))]; [|done| |].
  - intros [] s2 (Hs2 & Hq2 & Hr2). simpl.
    split; [|split; [done|]].
    + change (erased (unshifted (name e)
                (assigned (λ m, set_tmpMark false (set_mark true m)) k s2))
              = erased (new cp0)).
      rewrite <- Hs2.
      change (erased (unshifted (name e) ?s)) with (erased s).
      apply erased_assigned. intros ?. apply clearMarks_done.
    + intros x [->|Hx]%elem_of_cons; [|by apply Hr2].
      by rewrite Hn, (Hnames k e0 He0).
  - intros o s2 Ho H2.
    destruct (decide (o = "exports")); [done|].
    apply IH; [|done].
    destruct Hreach as (q & Hq0 & Hrtc). exists q. split; [done|].
    eapply rtc_r; [exact Hrtc|]. left. exists e0. rewrite <- Hd. done.
  - apply soundFor_assigned; [|done]. intros ?. apply clearMarks_tmpMark.
Qed.

Lemma resolveFrom_sound depth fuel : ∀ i s,
  soundFor cp0 req s →
  wlp (resolveFrom fuel depth i) (λ _ s', soundFor cp0 req s')
      (λ _ _, True) s.
Proof.
  induction fuel as [|fuel IH]; intros i s Hsound; [done|].
  unfold wlp at 1. simpl.
  destruct (_queue s !! i) as [k|] eqn:Hk; [|done].
  destruct (getModules s !! k) as [n|] eqn:Hn; [|done].
  change (wlp ((if mark n then mret tt else _visit depth k) ;;
               resolveFrom fuel depth (S i))
              (λ _ s', soundFor cp0 req s') (λ _ _, True) s).
  apply wlp_bind.
  assert (Hstep : wlp (if mark n then mret tt else _visit depth k)
                      (λ _ s', soundFor cp0 req s') (λ _ _, True) s).
  { destruct (mark n); [done|]. apply visit_sound; [|done].
    destruct Hsound as (_ & Hq & _). apply Hq.
    by eapply list_elem_of_lookup_2. }
  eapply wlp_mono; [| |exact Hstep]; [|done].
  intros [] s1 H1. simpl. by apply IH.
Qed.
End Sound.

Lemma soundFor_seed b req :
  _result b = [] → soundFor (_configParser b) req (seed req b).
Proof.
  intros Hr. split; [done|]. split.
  - intros x Hx. exists x. split; [done|]. apply rtc_refl.
  - simpl. rewrite Hr. intros x Hx. by apply elem_of_nil in Hx.
Qed.

(** What a pass that returns has listed is reachable from the
    request. *)
Lemma pass_reachable b req s' :
  _result b = [] → Graph.namesOk (getModules b) = true →
  _resolveDependencies (seed req b) = Normal tt s' →
  ∀ x, x ∈ _result s' →
       Graph.reachable (getModules b) (getConditionalModules b) req x.
Proof.
  intros Hr Hnames Hpass.
  pose proof (resolveFrom_sound (_configParser b) req
                (namesOk_spec _ Hnames)
                (depthBudget (seed req b)) (turnBudget (seed req b)) 0
                (seed req b) (soundFor_seed b req Hr)) as H.
  unfold wlp in H. fold (_resolveDependencies (seed req b)) in H.
  rewrite Hpass in H. by destruct H as (_ & _ & H).
Qed.

(** X22: [resolveDependencies] lists nothing the request does not
    need: every name in the list it returns is a requested name or is
    reached from one through dependencies and conditions whose test
    holds. *)
Theorem resolveDependencies_lists_only_reachable b req l b' :
  _result b = [] → Graph.namesOk (getModules b) = true →
  resolveDependencies req b = Normal l b' →
  ∀ x, x ∈ l →
       Graph.reachable (getModules b) (getConditionalModules b) req x.
Proof.
  intros Hr Hnames Hres x Hx. unfold resolveDependencies in Hres.
  destruct (_resolveDependencies (seed req b)) as [[] s'|e s'|] eqn:Hpass;
    [|discriminate Hres..].
  injection Hres as <- _. rewrite elem_of_rev in Hx.
  by apply (pass_reachable b req s').
Qed.

Lemma resolveDependencies_lists_only_reachable_witness :
  Graph.reachable (getModules (new Examples.diamond))
    (getConditionalModules (new Examples.diamond)) ["app"] "extra".
Proof.
  apply (resolveDependencies_lists_only_reachable (new Examples.diamond)
           ["app"] ["util"; "lib"; "app"; "extra"]
           (_cleanup (new Examples.diamond))).
  - reflexivity.
  - vm_compute. reflexivity.
  - vm_compute. reflexivity.
  - do 3 (apply elem_of_cons; right). apply elem_of_cons. by left.
Defined.

(** X23: from the configuration to the list.  For a configuration with
    distinct keys and no flag set whose resolved dependencies are all
    registered and decrease a ranking, a pass over the registry the
    constructor builds returns, for every request of registered names, a
    dependency-first list without duplicates that holds exactly the
    modules reachable from the request, and leaves the builder as it
    was. *)
Theorem pass_over_parsed_configuration cfg raw rank req :
  NoDup raw.*1 → (∀ kv, kv ∈ raw → unflagged kv.2) →
  let cp := ConfigParser.new cfg raw in
  Graph.closedOk (ConfigParser._modules cp) = true →
  Graph.rankedBy (ConfigParser._modules cp) rank = true →
  Graph.requestOk (ConfigParser._modules cp) req = true →
  ∃ l, resolveDependencies req (new cp) = Normal l (new cp) ∧
       Graph.dependencyFirst (ConfigParser._modules cp) l ∧
       NoDup l ∧
       ∀ x, x ∈ l ↔ Graph.reachable (ConfigParser._modules cp)
                      (ConfigParser._conditionalModules cp) req x.
Proof.
  intros Hnd Hflags cp Hclosed Hrank Hreq.
  destruct (new_checks cfg raw Hnd Hflags) as (Hn & Hc & _ & Hclean).
  fold cp in Hn, Hc, Hclean.
  assert (Hwf : Graph.wellFormed (getModules (new cp))
                  (getConditionalModules (new cp)) = true).
  { unfold Graph.wellFormed, getModules, getConditionalModules. simpl.
    by rewrite Hn, Hclosed, Hc. }
  assert (Hsame : _cleanup (new cp) = new cp).
  { rewrite cleanup_erased. unfold new, erased. f_equal.
    apply (cleanup_clean (new cp)). exact Hclean. }
  destruct (resolveDependencies_cases (new cp) req eq_refl Hwf Hclean
              (requestOk_spec _ _ Hreq))
    as [(s' & Hpass & Hres & HI & Hq & Hf)|(m & s' & _ & _ & Hm)].
  - exists (rev (_result s')). rewrite Hsame in Hres.
    split; [done|]. split; [|split].
    + apply postOrdered_dependencyFirst. apply (inv_ordered _ _ HI).
    + apply NoDup_rev, (inv_nodup _ _ HI).
    + intros x. split.
      * rewrite elem_of_rev.
        apply (pass_reachable (new cp) req s' eq_refl Hn Hpass).
      * intros Hx. apply elem_of_rev.
        by apply (closed_result (new cp) req s').
  - exfalso. by apply (ranked_acyclic _ rank Hrank m).
Qed.

Lemma pass_over_parsed_configuration_witness :
  ∃ l, resolveDependencies ["app"] (new Examples.diamond)
       = Normal l (new Examples.diamond) ∧
       Graph.dependencyFirst (ConfigParser._modules Examples.diamond) l ∧
       NoDup l ∧
       ∀ x, x ∈ l ↔ Graph.reachable (ConfigParser._modules Examples.diamond)
                      (ConfigParser._conditionalModules Examples.diamond)
                      ["app"] x.
Proof.
  apply (pass_over_parsed_configuration Examples.combo
    [("app", descriptor ["lib"; "util"; "exports"] None);
     ("lib", descriptor ["util"] None);
     ("util", descriptor [] None);
     ("extra", descriptor ["lib"]
                 (Some {| trigger := "util"; test := true |}))]
    Examples.diamondRank ["app"]).
  - repeat (apply NoDup_cons; split;
      [intros H; repeat (apply elem_of_cons in H as [H|H];
                         [discriminate H|]); by apply elem_of_nil in H|]).
    apply NoDup_nil_2.
  - intros kv H.
    repeat (apply elem_of_cons in H as [->|H]; [by repeat split|]).
    by apply elem_of_nil in H.
  - vm_compute. reflexivity.
  - vm_compute. reflexivity.
  - vm_compute. reflexivity.
Defined.

(** X24: a conditional module whose test fails stays out: over a clean,
    well-formed and acyclic registry, a module that is not requested,
    that no module depends on and whose condition does not hold is not
    in the list the pass returns. *)
Theorem conditional_module_with_failing_test_stays_out b req B r c :
  _result b = [] →
  Graph.wellFormed (getModules b) (getConditionalModules b) = true →
  Graph.cleanOk (getModules b) = true →
  Graph.acyclic (getModules b) →
  (∀ x, x ∈ req → Graph.registered (getModules b) x) →
  getModules b !! B = Some r → condition r = Some c → test c = false →
  B ∉ req → (∀ k, ¬ Graph.depends (getModules b) k B) →
  ∃ l, resolveDependencies req b = Normal l (_cleanup b) ∧ B ∉ l.
Proof.
  intros Hr Hwf Hc Hacyc Hreq HB Hcond Htest Hnreq Hndep.
  destruct (resolveDependencies_cases b req Hr Hwf Hc Hreq)
    as [(s' & Hpass & Hres & _)|(m & s' & _ & _ & Hm)];
    [|by apply Hacyc in Hm].
  exists (rev (_result s')). split; [done|]. intros Hin.
  pose proof (wellFormed_spec _ _ Hwf) as (Hn & _ & _).
  rewrite elem_of_rev in Hin.
  destruct (pass_reachable b req s' Hr Hn Hpass B Hin) as (q & Hq & Hrtc).
  apply rtc_inv_r in Hrtc as [->|(y & _ & [Hd|Ha])].
  - done.
  - by apply (Hndep y).
  - destruct Ha as (e & t & r' & c' & _ & _ & _ & Hr' & Hc' & Ht').
    rewrite HB in Hr'. injection Hr' as <-.
    rewrite Hcond in Hc'. injection Hc' as <-. congruence.
Qed.

Lemma conditional_module_with_failing_test_stays_out_witness :
  ∃ l, resolveDependencies ["A"] (new Examples.untriggered)
       = Normal l (_cleanup (new Examples.untriggered)) ∧ "B" ∉ l.
Proof.
  apply (conditional_module_with_failing_test_stays_out
           (new Examples.untriggered) ["A"] "B"
           (default Loader.blank
              (ConfigParser._modules Examples.untriggered !! "B"))
           {| trigger := "A"; test := false |}).
  - reflexivity.
  - vm_compute. reflexivity.
  - vm_compute. reflexivity.
  - apply (ranked_acyclic _ (λ _, 0)). vm_compute. reflexivity.
  - intros x Hx. apply list_elem_of_singleton in Hx as ->.
    vm_compute. eauto.
  - vm_compute. reflexivity.
  - reflexivity.
  - reflexivity.
  - intros H. apply list_elem_of_singleton in H. discriminate H.
  - intros k (e & He & Hd & _). revert He Hd.
    destruct (decide (k = "A")) as [->|HA];
      [|destruct (decide (k = "B")) as [->|HB]].
    + vm_compute. intros [= <-] H. by apply elem_of_nil in H.
    + vm_compute. intros [= <-] H. by apply elem_of_nil in H.
    + intros He _.
      assert (Hk : ConfigParser._modules Examples.untriggered !! k = None).
      { unfold Examples.untriggered, ConfigParser.new.
        cbn [ConfigParser._parseModules foldl fst snd].
        rewrite !addModule_modules. cbn [name set_name].
        rewrite !lookup_insert_ne by done. apply lookup_empty. }
      change (getModules (new Examples.untriggered))
        with (ConfigParser._modules Examples.untriggered) in He.
      rewrite Hk in He. discriminate He.
Defined.

(** *** Whatever the configuration *)

Lemma wlp_forEach_acc {S A} (I : S → Prop) (R : S → S → Prop)
    (P : A → S → Prop) (E : exn → S → Prop) (body : A → M S unit) l :
  (∀ s, R s s) → (∀ s1 s2 s3, R s1 s2 → R s2 s3 → R s1 s3) →
  (∀ x s s', P x s → R s s' → P x s') →
  (∀ x s, x ∈ l → I s → wlp (body x) (λ _ s', I s' ∧ R s s' ∧ P x s') E s) →
  ∀ s, I s →
    wlp (forEach body l) (λ _ s', I s' ∧ R s s' ∧ ∀ x, x ∈ l → P x s') E s.
Proof.
  intros Hrefl Htrans Hstable. induction l as [|x l IH]; intros Hbody s Hs.
  - simpl. split; [done|]. split; [done|].
    intros x Hx. by apply elem_of_nil in Hx.
  - cbn [forEach]. apply wlp_bind.
    eapply wlp_mono; [| |apply Hbody]; [|done|apply elem_of_cons; by left|done].
    intros [] s1 (H1 & HR1 & HP1). simpl.
    eapply wlp_mono; [| |apply IH]; [|done| |done].
    + intros [] s2 (H2 & HR2 & HP2). simpl. split; [done|].
      split; [by eapply Htrans|].
      intros y [->|Hy]%elem_of_cons; [by eapply Hstable|by apply HP2].
    + intros y s2 Hy. apply Hbody. apply elem_of_cons. by right.
Qed.

Lemma keeps_refl s : keeps s s.
Proof. split; [done|]. split; done. Qed.

Lemma keeps_trans s1 s2 s3 : keeps s1 s2 → keeps s2 s3 → keeps s1 s3.
Proof.
  intros (H1 & Hq1 & Ht1) (H2 & Hq2 & Ht2). split; [|split].
  - intros x Hx. by apply H2, H1.
  - by etrans.
  - congruence.
Qed.

Lemma keeps_assigned f k s :
  (∀ e, tmpMark (f e) = tmpMark e) → keeps s (assigned f k s).
Proof.
  intros Hf. split; [done|]. split; [done|]. by apply tmpSet_assigned_same.
Qed.

Lemma queued_keeps s s' : queued s s' → keeps s s'.
Proof.
  intros Hq. pose proof (queued_tmpSet _ _ Hq) as Ht.
  destruct Hq as (_ & Hr & (ext & Hq & _)). split; [|split].
  - by rewrite Hr.
  - rewrite Hq. by apply prefix_app_r.
  - done.
Qed.

Section Ordered.
Variable cp0 : ConfigParser.t.
Abbreviation G := (Pass.G cp0).
Abbreviation C := (Pass.C cp0).

Hypothesis Hnames : ∀ k e, G !! k = Some e → name e = k.

Lemma keeps_condDone s s' k :
  keeps s s' → condDone cp0 s k → condDone cp0 s' k.
Proof.
  intros (_ & [ext Hext] & _) H b Hb. rewrite Hext.
  apply elem_of_app. left. by apply H.
Qed.

Lemma orderedFor_condMark k s :
  orderedFor cp0 s → condDone cp0 s k →
  orderedFor cp0 (assigned (set_conditionalMark true) k s).
Proof.
  intros (Hs & Hmarks & Hreg & Hord & Hnd & Hpath & Hcond) Hk.
  split; [|split; [|split; [done|split; [done|split; [done|split]]]]].
  - rewrite <- Hs. apply erased_assigned. intros ?.
    apply clearMarks_conditionalMark.
  - intros k' e'. rewrite lookup_assigned.
    destruct (decide (k = k')) as [->|Hne]; [|apply Hmarks].
    destruct (getModules s !! k') as [e|] eqn:He; [|done].
    simpl. intros [= <-]. exact (Hmarks k' e He).
  - intros k'. rewrite tmpSet_assigned_same by done. apply Hpath.
  - intros k' e'. rewrite lookup_assigned.
    destruct (decide (k = k')) as [<-|Hne]; [by intros _ _|].
    intros He' H. exact (Hcond k' e' He' H).
Qed.

Lemma orderedFor_queued s s' :
  queued s s' → orderedFor cp0 s → orderedFor cp0 s'.
Proof.
  intros Hq (Hs & Hmarks & Hreg & Hord & Hnd & Hpath & Hcond).
  pose proof (queued_erased _ _ Hq) as He.
  pose proof (queued_tmpSet _ _ Hq) as Ht.
  pose proof (queued_keeps _ _ Hq) as Hk.
  destruct Hq as (Hcp & Hr & _).
  split; [congruence|]. unfold getModules. rewrite Hcp, Hr, Ht.
  split; [done|]. split; [done|]. split; [done|]. split; [done|].
  split; [done|]. intros k e Hke H.
  apply (keeps_condDone s s' k Hk). by apply (Hcond k e).
Qed.

Lemma orderedFor_enter k s e :
  orderedFor cp0 s → getModules s !! k = Some e → mark e = false →
  orderedFor cp0 (assigned (set_tmpMark true) k s).
Proof.
  intros (Hs & Hmarks & Hreg & Hord & Hnd & Hpath & Hcond) He Hm.
  split; [|split; [|split; [done|split; [done|split; [done|split]]]]].
  - rewrite <- Hs. apply erased_assigned. intros ?. apply clearMarks_tmpMark.
  - intros k' e'. rewrite lookup_assigned.
    destruct (decide (k = k')) as [->|Hne]; [|apply Hmarks].
    rewrite He. simpl. intros [= <-]. exact (Hmarks k' e He).
  - intros k'. rewrite (tmpSet_assigned_on k s e He). intros Hk'.
    apply elem_of_union in Hk' as [Hk'|Hk']; [|by apply Hpath].
    apply elem_of_singleton in Hk' as ->.
    intros Hin. apply (Hmarks k e He) in Hin. congruence.
  - intros k' e'. rewrite lookup_assigned.
    destruct (decide (k = k')) as [<-|Hne].
    + rewrite He. simpl. intros [= <-] H. exact (Hcond k e He H).
    + intros He' H. exact (Hcond k' e' He' H).
Qed.

Lemma considerConditional_activates dep s :
  erased s = erased (new cp0) →
  wlp (considerConditional dep)
      (λ _ s', queued s s' ∧ (activatable cp0 dep → dep ∈ _queue s'))
      (λ _ _, True) s.
Proof.
  intros Hs. unfold wlp, considerConditional.
  destruct (getModules s !! dep) as [r|] eqn:Hr; [|done].
  destruct (static_lookup cp0 s dep r Hs Hr) as (r0 & Hr0 & Hn & _ & Hc).
  pose proof (Hnames dep r0 Hr0) as Hdep. rewrite <- Hn in Hdep.
  destruct (decide (name r ∈ _queue s)) as [Hin|Hnin].
  { split; [apply queued_refl|]. intros _. by rewrite <- Hdep. }
  destruct (condition r) as [c|] eqn:Hcr; [|done].
  unfold _testConditionalModule. destruct (test c) eqn:Htest.
  - simpl. split.
    + split; [done|]. split; [done|].
      exists [name r]. split; [done|]. split; [apply NoDup_singleton|].
      intros x ->%list_elem_of_singleton. split; [done|]. by exists dep, r.
    + intros _. apply elem_of_app. right. rewrite Hdep.
      by apply list_elem_of_singleton.
  - split; [apply queued_refl|].
    intros (r1 & c1 & Hr1 & Hc1 & Ht1). rewrite Hr0 in Hr1.
    injection Hr1 as <-. rewrite Hc1 in Hc. injection Hc as ->.
    congruence.
Qed.

Lemma forEach_considerConditional_activates t s0 : ∀ s,
  erased s0 = erased (new cp0) → queued s0 s →
  wlp (forEach considerConditional t)
      (λ _ s', queued s0 s' ∧
               ∀ b, b ∈ t → activatable cp0 b → b ∈ _queue s')
      (λ _ _, True) s.
Proof.
  intros s Hs0 Hq.
  eapply wlp_mono;
    [| |apply (wlp_forEach_acc (λ s', queued s0 s')
                 (λ s1 s2, ∀ x, x ∈ _queue s1 → x ∈ _queue s2)
                 (λ b s', activatable cp0 b → b ∈ _queue s'))];
    [|done|..].
  - intros [] s' (H1 & _ & H3). done.
  - done.
  - intros s1 s2 s3 H1 H2 x Hx. by apply H2, H1.
  - intros b s1 s2 Hb H12 Hact. by apply H12, Hb.
  - intros b s1 Hb H1.
    eapply wlp_mono; [| |apply considerConditional_activates]; [|done|].
    + intros [] s2 (Hq2 & Hact). simpl.
      split; [by eapply queued_trans|]. split; [|done].
      destruct Hq2 as (_ & _ & (ext & -> & _)). intros x Hx.
      apply elem_of_app. by left.
    + rewrite <- Hs0. by apply queued_erased.
  - done.
Qed.

Lemma processConditionalModules_ordered k s :
  orderedFor cp0 s →
  wlp (_processConditionalModules k)
      (λ _ s', orderedFor cp0 s' ∧ keeps s s' ∧ _result s' = _result s ∧
               condDone cp0 s' k)
      (λ _ _, True) s.
Proof.
  intros Hord. pose proof Hord as (Hs & _ & _ & _ & _ & _ & Hcond).
  unfold wlp at 1, _processConditionalModules.
  destruct (getModules s !! k) as [e|] eqn:He; [|done].
  destruct (static_lookup cp0 s k e Hs He) as (e0 & He0 & Hn & _).
  pose proof (erased_conditionals (new cp0) s Hs) as HC.
  change (getConditionalModules (new cp0)) with C in HC.
  destruct (getConditionalModules s !! name e) as [t|] eqn:Ht.
  2:{ split; [done|]. split; [apply keeps_refl|]. split; [done|].
      intros b (e1 & t1 & _ & _ & He1 & Ht1 & _).
      rewrite He0 in He1. injection He1 as <-.
      rewrite <- HC, <- Hn, Ht in Ht1. discriminate Ht1. }
  destruct (conditionalMark e) eqn:Hcm.
  { split; [done|]. split; [apply keeps_refl|]. split; [done|].
    apply (Hcond k e He). by left. }
  change (wlp (forEach considerConditional t ;;
               update (set_conditionalMark true) k)
              (λ _ s', orderedFor cp0 s' ∧ keeps s s' ∧
                       _result s' = _result s ∧ condDone cp0 s' k)
              (λ _ _, True) s).
  apply wlp_bind.
  eapply wlp_mono;
    [| |apply (forEach_considerConditional_activates t s s Hs),
          queued_refl]; [|done].
  intros [] s1 (Hq1 & Hact). simpl.
  assert (Hdone : condDone cp0 s1 k).
  { intros b (e1 & t1 & r & c & He1 & Ht1 & Hb & Hr & Hc & Htest).
    rewrite He0 in He1. injection He1 as <-.
    rewrite <- HC, <- Hn, Ht in Ht1. injection Ht1 as <-.
    apply (Hact b Hb). by exists r, c. }
  split; [|split; [|split]].
  - apply orderedFor_condMark; [by eapply orderedFor_queued|done].
  - eapply keeps_trans; [by apply queued_keeps|by apply keeps_assigned].
  - destruct Hq1 as (_ & H & _). exact H.
  - exact Hdone.
Qed.

Lemma orderedFor_finish s k e e0 :
  orderedFor cp0 s → getModules s !! k = Some e → G !! k = Some e0 →
  k ∈ tmpSet s → condDone cp0 s k →
  (∀ d, Graph.depends G k d → d ∈ _result s) →
  orderedFor cp0
    (unshifted k (assigned (λ m, set_tmpMark false (set_mark true m)) k s)).
Proof.
  intros (Hs & Hmarks & Hreg & Hord & Hnd & Hpath & Hcond) He He0 Hk Hcd
         Hdeps.
  split; [|split; [|split; [|split; [|split; [|split]]]]].
  - change (erased (unshifted k ?s)) with (erased s).
    rewrite <- Hs. apply erased_assigned. intros ?. apply clearMarks_done.
  - intros k' e'. change (getModules (unshifted k ?s)) with (getModules s).
    rewrite lookup_assigned. cbn [_result unshifted].
    destruct (decide (k = k')) as [<-|Hne].
    + rewrite He. simpl. intros [= <-]. simpl.
      split; [intros _; apply elem_of_cons; by left|done].
    + intros He'. rewrite (Hmarks k' e' He'). rewrite elem_of_cons.
      split; [by right|]. intros [H|H]; [congruence|done].
  - intros k' [->|Hk']%elem_of_cons; [by exists e0|by apply Hreg].
  - split; done.
  - cbn [_result unshifted]. apply NoDup_cons. split; [by apply Hpath|done].
  - intros k'. change (tmpSet (unshifted k ?s)) with (tmpSet s).
    rewrite tmpSet_assigned_off. intros Hin.
    apply elem_of_difference in Hin as [Hk' Hne].
    cbn [_result unshifted].
    apply not_elem_of_cons. split; [|by apply Hpath].
    intros ->. apply Hne. by apply elem_of_singleton.
  - intros k' e'. change (getModules (unshifted k ?s)) with (getModules s).
    rewrite lookup_assigned.
    destruct (decide (k = k')) as [<-|Hne]; [by intros _ _|].
    intros He' H. exact (Hcond k' e' He' H).
Qed.

Lemma visit_ordered fuel : ∀ k s,
  orderedFor cp0 s →
  wlp (_visit fuel k)
      (λ _ s', orderedFor cp0 s' ∧ keeps s s' ∧ k ∈ _result s')
      (λ _ _, True) s.
Proof.
  induction fuel as [|fuel IH]; intros k s Hord; [done|].
  unfold wlp at 1. simpl.
  destruct (getModules s !! k) as [e|] eqn:He; [|done].
  destruct (tmpMark e) eqn:Htmp; [done|].
  change (wlp (_processConditionalModules k ;;
               if mark e then mret tt
               else update (set_tmpMark true) k ;;
                    forEach (λ o, if decide (o = "exports") then mret tt
                                  else _visit fuel o) (dependencies e) ;;
                    update (λ m, set_tmpMark false (set_mark true m)) k ;;
                    unshift (name e))
              (λ _ s', orderedFor cp0 s' ∧ keeps s s' ∧ k ∈ _result s')
              (λ _ _, True) s).
  destruct (static_lookup cp0 s k e (proj1 Hord) He)
    as (e0 & He0 & Hn & Hd & _).
  pose proof (Hnames k e0 He0) as Hk0.
  apply wlp_bind.
  eapply wlp_mono; [| |by apply processConditionalModules_ordered]; [|done].
  intros [] s1 (Hord1 & Hk1 & Hr1 & Hcd1). simpl.
  destruct (mark e) eqn:Hmark.
  { split; [done|]. split; [done|]. rewrite Hr1.
    destruct Hord as (_ & Hmarks & _). by apply (Hmarks k e He). }
  destruct (erased_lookup_back s s1 k e) as (e1 & He1 & _); [|done|].
  { destruct Hord1 as (-> & _). by destruct Hord as (-> & _). }
  assert (Hm1 : mark e1 = false).
  { destruct (mark e1) eqn:Hx; [|done].
    destruct Hord1 as (_ & Hmarks1 & _). apply (Hmarks1 k e1 He1) in Hx.
    rewrite Hr1 in Hx. destruct Hord as (_ & Hmarks & _).
    apply (Hmarks k e He) in Hx. congruence. }
  assert (Hnot : k ∉ tmpSet s1).
  { destruct Hk1 as (_ & _ & ->). rewrite elem_of_tmpSet.
    intros (e' & He' & Ht'). congruence. }
  set (s2 := assigned (set_tmpMark true) k s1).
  assert (Ht2 : tmpSet s2 = {[k]} ∪ tmpSet s1)
    by (by eapply tmpSet_assigned_on).
  change (wlp (forEach (λ o, if decide (o = "exports") then mret tt
                             else _visit fuel o) (dependencies e) ;;
               update (λ m, set_tmpMark false (set_mark true m)) k ;;
               unshift (name e))
              (λ _ s', orderedFor cp0 s' ∧ keeps s s' ∧ k ∈ _result s')
              (λ _ _, True) s2).
  apply wlp_bind.
  eapply wlp_mono;
    [| |apply (wlp_forEach_acc (orderedFor cp0) keeps
                 (λ o s', o = "exports" ∨ o ∈ _result s'))]; [|done|..].
  - intros [] s3 (Hord3 & Hk3 & Hdeps). simpl.
    rewrite Hn, Hk0.
    destruct (erased_lookup_back s s3 k e) as (e3 & He3 & _); [|done|].
    { destruct Hord3 as (-> & _). by destruct Hord as (-> & _). }
    pose proof (keeps_condDone s2 s3 k Hk3 Hcd1) as Hcd3.
    destruct Hk3 as (Hres3 & Hq3 & Ht3).
    split; [|split].
    + apply (orderedFor_finish s3 k e3 e0); try done.
      * rewrite Ht3, Ht2. apply elem_of_union. left.
        by apply elem_of_singleton.
      * intros d (e0' & He0' & Hin & Hne).
        rewrite He0 in He0'. injection He0' as <-. rewrite <- Hd in Hin.
        destruct (Hdeps d Hin) as [->|H]; done.
    + destruct Hk1 as (Hres1 & Hq1 & Ht1). split; [|split].
      * intros x Hx. apply elem_of_cons. right. apply Hres3.
        by apply Hres1.
      * etrans; [exact Hq1|exact Hq3].
      * change (tmpSet (assigned (λ m, set_tmpMark false (set_mark true m))
                          k s3) = tmpSet s).
        rewrite tmpSet_assigned_off, Ht3, Ht2, <- Ht1.
        by apply enter_leave.
    + apply elem_of_cons. by left.
  - apply keeps_refl.
  - apply keeps_trans.
  - intros o s3 s4 [->|Ho] (Hres & _); [by left|right; by apply Hres].
  - intros o s3 Ho H3.
    destruct (decide (o = "exports")) as [->|Hne].
    + split; [done|]. split; [apply keeps_refl|by left].
    + eapply wlp_mono; [| |by apply IH]; [|done].
      intros [] s4 (? & ? & ?). simpl. split; [done|]. split; [done|].
      by right.
  - by apply (orderedFor_enter k s1 e1).
Qed.

Lemma resolveFrom_ordered depth fuel : ∀ i s,
  orderedFor cp0 s →
  (∀ j x, j < i → _queue s !! j = Some x → x ∈ _result s) →
  wlp (resolveFrom fuel depth i)
      (λ _ s', orderedFor cp0 s' ∧ keeps s s' ∧
               ∀ x, x ∈ _queue s' → x ∈ _result s')
      (λ _ _, True) s.
Proof.
  induction fuel as [|fuel IH]; intros i s Hord Hdone; [done|].
  unfold wlp at 1. simpl.
  destruct (_queue s !! i) as [k|] eqn:Hk.
  2:{ split; [done|]. split; [apply keeps_refl|].
      intros x Hx. apply list_elem_of_lookup in Hx as [j Hj].
      apply (Hdone j x); [|done].
      apply lookup_ge_None in Hk. apply lookup_lt_Some in Hj. lia. }
  destruct (getModules s !! k) as [n|] eqn:Hn; [|done].
  change (wlp ((if mark n then mret tt else _visit depth k) ;;
               resolveFrom fuel depth (S i))
              (λ _ s', orderedFor cp0 s' ∧ keeps s s' ∧
                       ∀ x, x ∈ _queue s' → x ∈ _result s')
              (λ _ _, True) s).
  apply wlp_bind.
  assert (Hstep : wlp (if mark n then mret tt else _visit depth k)
                      (λ _ s', orderedFor cp0 s' ∧ keeps s s' ∧
                               k ∈ _result s')
                      (λ _ _, True) s).
  { destruct (mark n) eqn:Hmark; [|by apply visit_ordered].
    split; [done|]. split; [apply keeps_refl|].
    destruct Hord as (_ & Hmarks & _). by apply (Hmarks k n Hn). }
  eapply wlp_mono; [| |exact Hstep]; [|done].
  intros [] s1 (Hord1 & Hkeeps1 & Hk1). simpl.
  eapply wlp_mono; [| |apply IH]; [|done|done|].
  - intros [] s2 (Hord2 & Hk2 & Hall). simpl. split; [done|].
    split; [|done]. by eapply keeps_trans.
  - destruct Hkeeps1 as (Hres1 & Hq1 & _). intros j x Hj Hx.
    destruct (decide (j = i)) as [->|Hne].
    + pose proof (prefix_lookup_Some _ _ _ _ Hk Hq1) as Hk'.
      rewrite Hk' in Hx. by injection Hx as <-.
    + apply Hres1. apply (Hdone j x); [lia|].
      destruct Hq1 as [ext Hext]. rewrite Hext in Hx.
      rewrite lookup_app_l in Hx; [done|].
      apply lookup_lt_Some in Hk. lia.
Qed.
End Ordered.

Lemma orderedFor_seed b req :
  _result b = [] → Graph.cleanOk (getModules b) = true →
  orderedFor (_configParser b) (seed req b).
Proof.
  intros Hr Hclean. pose proof (cleanOk_spec _ Hclean) as Hc.
  split; [done|].
  split; [|split; [|split; [|split; [|split]]]]; simpl; rewrite ?Hr.
  - intros k e Hk. destruct (Hc k e Hk) as (-> & _).
    split; [done|]. intros H. by apply elem_of_nil in H.
  - intros k H. by apply elem_of_nil in H.
  - done.
  - constructor.
  - intros k _. apply not_elem_of_nil.
  - intros k e Hk. destruct (Hc k e Hk) as (-> & _ & ->). by intros [|].
Qed.

(** A list that a pass over a clean registry returns, whatever the
    dependencies and the conditional index are. *)
Lemma returned_list b req l b' :
  _result b = [] → Graph.namesOk (getModules b) = true →
  Graph.cleanOk (getModules b) = true →
  resolveDependencies req b = Normal l b' →
  Graph.dependencyFirst (getModules b) l ∧ NoDup l ∧
  (∀ x, x ∈ l ↔
        Graph.reachable (getModules b) (getConditionalModules b) req x) ∧
  (∀ m, m ∈ l → Graph.registered (getModules b) m) ∧
  (∀ m d, m ∈ l → Graph.depends (getModules b) m d → d ∈ l).
Proof.
  intros Hr Hnames Hclean Hres. unfold resolveDependencies in Hres.
  pose proof (resolveFrom_ordered (_configParser b) (namesOk_spec _ Hnames)
                (depthBudget (seed req b)) (turnBudget (seed req b)) 0
                (seed req b) (orderedFor_seed b req Hr Hclean)) as H.
  unfold wlp in H. fold (_resolveDependencies (seed req b)) in H.
  destruct (_resolveDependencies (seed req b)) as [[] s'|e s'|] eqn:Hpass;
    [|discriminate Hres..].
  injection Hres as <- _.
  destruct H as ((Hs & Hmarks & Hreg & Hord & Hnd & _ & Hcond)
                 & (_ & Hq & _) & Hall); [intros j x Hj; lia|].
  assert (Hdeps : ∀ m d, m ∈ _result s' →
                         Graph.depends (getModules b) m d → d ∈ _result s').
  { intros m d Hm Hd.
    apply list_elem_of_split in Hm as (l1 & l2 & Heq).
    pose proof Hord as Hord'. rewrite Heq in Hord'.
    apply postOrdered_split in Hord' as [Hdeps _].
    rewrite Heq. apply elem_of_app. right. apply elem_of_cons. right.
    by apply Hdeps. }
  split; [by apply postOrdered_dependencyFirst|].
  split; [by apply NoDup_rev|]. split; [|split].
  - intros x. rewrite elem_of_rev. split.
    + by apply (pass_reachable b req s').
    + intros (q & Hq0 & Hrtc). revert x Hrtc.
      apply (rtc_ind_r (λ x, x ∈ _result s') q).
      * apply Hall. destruct Hq as [ext Hext]. rewrite Hext.
        apply elem_of_app. by left.
      * intros y x _ [Hd|Ha] IH; [by apply (Hdeps y x)|]. apply Hall.
        destruct (Hreg y IH) as [e0 He0].
        destruct (erased_lookup s' (new (_configParser b)) y e0
                    (eq_sym Hs) He0) as (e & He & _).
        apply (Hcond y e He); [|done].
        right. by apply (Hmarks y e He).
  - intros m Hm. apply Hreg. by rewrite elem_of_rev in Hm.
  - intros m d Hm Hd. rewrite elem_of_rev in Hm. apply elem_of_rev.
    by apply (Hdeps m d).
Qed.

(** X25: whatever the dependencies and the conditional index of a clean
    registry are, a call of [resolveDependencies] either throws or
    returns a list that is dependency-first and without duplicates and
    holds exactly the modules reachable from the request, each of them
    registered and each with all its dependencies; either way the
    builder is left cleaned up. *)
Theorem pass_throws_or_returns_closed_ordered_list b req :
  _result b = [] → Graph.namesOk (getModules b) = true →
  Graph.cleanOk (getModules b) = true →
  (∃ e, resolveDependencies req b = Throw e (_cleanup b)) ∨
  (∃ l, resolveDependencies req b = Normal l (_cleanup b) ∧
        Graph.dependencyFirst (getModules b) l ∧ NoDup l ∧
        (∀ x, x ∈ l ↔ Graph.reachable (getModules b)
                        (getConditionalModules b) req x) ∧
        (∀ m, m ∈ l → Graph.registered (getModules b) m) ∧
        (∀ m d, m ∈ l → Graph.depends (getModules b) m d → d ∈ l)).
Proof.
  intros Hr Hnames Hclean.
  pose proof (resolveDependencies_total req b) as Htot. unfold wp in Htot.
  destruct (resolveDependencies req b) as [l b'|e b'|] eqn:Hres; [|left|done].
  - right. exists l. rewrite <- Htot. split; [done|].
    by apply (returned_list b req l b').
  - exists e. by rewrite Htot.
Qed.

Lemma pass_throws_or_returns_closed_ordered_list_witness :
  ∃ l, resolveDependencies ["app"] (new Examples.diamond)
       = Normal l (_cleanup (new Examples.diamond)) ∧
       Graph.dependencyFirst (getModules (new Examples.diamond)) l ∧
       "app" ∈ l.
Proof.
  destruct (pass_throws_or_returns_closed_ordered_list
              (new Examples.diamond) ["app"])
    as [[e He]|(l & Hl & Hord & _ & Hreq & _)].
  - reflexivity.
  - vm_compute. reflexivity.
  - vm_compute. reflexivity.
  - exfalso. vm_compute in He. discriminate He.
  - exists l. split; [exact Hl|]. split; [exact Hord|].
    apply Hreq. exists "app". split; [apply elem_of_cons; by left|].
    apply rtc_refl.
Defined.

(** X26: a dependency on a name that has no descriptor stops every pass
    that comes to it: over a clean registry, when a module reached from
    the request through dependencies names such a dependency, the call
    throws, after the cleanup, and returns no list. *)
Theorem pass_reaching_unregistered_dependency_throws b req x m d :
  _result b = [] → Graph.namesOk (getModules b) = true →
  Graph.cleanOk (getModules b) = true →
  x ∈ req → rtc (Graph.depends (getModules b)) x m →
  Graph.depends (getModules b) m d → getModules b !! d = None →
  ∃ e, resolveDependencies req b = Throw e (_cleanup b).
Proof.
  intros Hr Hnames Hclean Hx Hrtc Hd Hnone.
  pose proof (resolveDependencies_total req b) as Htot. unfold wp in Htot.
  destruct (resolveDependencies req b) as [l b'|e b'|] eqn:Hres;
    [|exists e; by rewrite Htot|done].
  exfalso.
  destruct (returned_list b req l b' Hr Hnames Hclean Hres)
    as (_ & _ & Hreq & Hreg & Hdeps).
  assert (Hall : ∀ z, rtc (Graph.depends (getModules b)) x z → z ∈ l).
  { apply (rtc_ind_r (λ z, z ∈ l) x).
    { apply Hreq. exists x. split; [done|]. apply rtc_refl. }
    intros y z _ Hyz IH. by apply (Hdeps y z). }
  pose proof (Hall m Hrtc) as Hm.
  destruct (Hreg d (Hdeps m d Hm Hd)) as [u Hu].
  rewrite Hnone in Hu. discriminate Hu.
Qed.

Lemma pass_reaching_unregistered_dependency_throws_witness :
  ∃ e, resolveDependencies ["app"] (new Examples.dangling)
       = Throw e (_cleanup (new Examples.dangling)).
Proof.
  apply (pass_reaching_unregistered_dependency_throws
           (new Examples.dangling) ["app"] "app" "app" "gone").
  - reflexivity.
  - vm_compute. reflexivity.
  - vm_compute. reflexivity.
  - apply elem_of_cons. by left.
  - apply rtc_refl.
  - apply dependsOk_spec. vm_compute. reflexivity.
  - vm_compute. reflexivity.
Defined.

(** ** URLBuilder: where the extension is added as intended *)

Lemma indexOf_absent_iff needle s :
  JS.indexOf needle s = (-1)%Z ↔ String.index 0 needle s = None.
Proof.
  unfold JS.indexOf. destruct (String.index 0 needle s); [|done].
  split; [lia|done].
Qed.

Lemma prefix_js_append c s :
  String.prefix ".js" (String c s) = false →
  String.prefix ".js" (String c (s +:+ ".js")) = false.
Proof.
  destruct s as [|c2 [|c3 s]].
  - intros _. cbn [String.prefix].
    destruct (ascii_dec _ c); reflexivity.
  - intros _. cbn [String.prefix].
    destruct (ascii_dec _ c); [|done].
    change (String c2 "" +:+ ".js") with (String c2 ".js").
    cbn [String.prefix]. destruct (ascii_dec _ c2); reflexivity.
  - intros H.
    change (String c2 (String c3 s) +:+ ".js")
      with (String c2 (String c3 (s +:+ ".js"))).
    cbn [String.prefix] in *.
    repeat (destruct (ascii_dec _ _); [|done]).
    destruct s; discriminate H.
Qed.

Lemma index_js_suffix s :
  String.index 0 ".js" s = None →
  String.index 0 ".js" (s +:+ ".js") = Some (String.length s).
Proof.
  induction s as [|c s IH]; [done|].
  change (String c s +:+ ".js") with (String c (s +:+ ".js")).
  cbn [String.index String.length].
  destruct (String.prefix ".js" (String c s)) eqn:Hp; [done|].
  rewrite (prefix_js_append c s Hp).
  destruct (String.index 0 ".js" s); [done|]. intros _. by rewrite IH.
Qed.

Lemma length_append_js s :
  String.length (s +:+ ".js") = String.length s + 3.
Proof.
  induction s as [|c s IH]; [done|].
  change (String c s +:+ ".js") with (String c (s +:+ ".js")).
  cbn [String.length]. by rewrite IH.
Qed.

(** X27: for a module without [path], [_getModulePath] appends [".js"]
    to every name that does not contain [".js"] and is not two
    characters long, and leaves a name unchanged that ends in [".js"] and
    has no [".js"] before that. *)
Theorem getModulePath_extension_as_intended e :
  JS.truthyStr (path e) = false →
  (JS.indexOf ".js" (name e) = (-1)%Z → String.length (name e) ≠ 2 →
   URLBuilder._getModulePath e = name e +:+ ".js") ∧
  (∀ s, name e = s +:+ ".js" → JS.indexOf ".js" s = (-1)%Z →
        URLBuilder._getModulePath e = name e).
Proof.
  intros Hpath. unfold URLBuilder._getModulePath. rewrite Hpath. split.
  - intros Hidx Hlen. rewrite Hidx. unfold JS.strlen.
    destruct (Z.eqb_spec (-1) (Z.of_nat (String.length (name e)) - 3));
      [lia|done].
  - intros s Hs Hidx. apply indexOf_absent_iff in Hidx.
    rewrite Hs. unfold JS.indexOf, JS.strlen.
    rewrite (index_js_suffix s Hidx), length_append_js.
    destruct (Z.eqb_spec (Z.of_nat (String.length s))
                (Z.of_nat (String.length s + 3) - 3)); [done|lia].
Qed.

Lemma getModulePath_extension_as_intended_witness :
  URLBuilder._getModulePath (set_name "util/strings" (descriptor [] None))
  = "util/strings.js" ∧
  URLBuilder._getModulePath (set_name "jquery.js" (descriptor [] None))
  = "jquery.js".
Proof.
  split.
  - apply (getModulePath_extension_as_intended
             (set_name "util/strings" (descriptor [] None)) eq_refl).
    + reflexivity.
    + discriminate.
  - apply (proj2 (getModulePath_extension_as_intended
                    (set_name "jquery.js" (descriptor [] None)) eq_refl)
             "jquery"); reflexivity.
Defined.

(** ** Serial and chunked iteration *)

Section IterationFacts.
Context {T : Type}.
Variable process : T → Util.fate.

Lemma iterateSerially_fulfilled values :
  Forall (λ x, process x = Util.Fulfils) values →
  Util.iterateSerially process values = (values, Util.Fulfilled).
Proof.
  induction 1 as [|v values Hv _ IH]; [done|].
  cbn [Util.iterateSerially]. by rewrite Hv, IH.
Qed.

(** X28: [iterateSerially] starts the process on one value after the
    other, each only when the promise of the one before is fulfilled:
    when all are fulfilled every value has been processed, in order,
    and the returned promise is fulfilled; the first promise that is
    rejected or never settles is the last process started, and decides
    how the returned promise ends. *)
Theorem iterateSerially_stops_at_first_failure l1 v l2 :
  Forall (λ x, process x = Util.Fulfils) l1 →
  process v ≠ Util.Fulfils →
  Util.iterateSerially process (l1 ++ v :: l2)
  = (l1 ++ [v],
     if Util.rejects (process v) then Util.Rejected else Util.Pending) ∧
  Util.iterateSerially process l1 = (l1, Util.Fulfilled).
Proof.
  intros Hl1 Hv. split; [|by apply iterateSerially_fulfilled].
  induction Hl1 as [|x l1 Hx _ IH].
  - cbn [app Util.iterateSerially]. by destruct (process v).
  - cbn [app Util.iterateSerially]. by rewrite Hx, IH.
Qed.

Lemma all_fulfilled (chunk : list T) :
  Forall (λ x, process x = Util.Fulfils) chunk →
  Util.all (map process chunk) = Util.Fulfilled.
Proof.
  intros H. unfold Util.all.
  assert (H1 : existsb Util.rejects (map process chunk) = false
               ∧ forallb Util.fulfils (map process chunk) = true).
  { induction H as [|x l Hx _ [IH1 IH2]]; [done|].
    cbn [map existsb forallb]. by rewrite Hx, IH1, IH2. }
  destruct H1 as [-> ->]. done.
Qed.

Lemma chunkAt_take_drop (items : list T) (chunkSize chunkIndex : Z) :
  (0 < chunkSize)%Z → (0 ≤ chunkIndex)%Z →
  Util.chunkAt items chunkSize chunkIndex
  = take (Z.to_nat chunkSize)
         (drop (Z.to_nat (chunkIndex * chunkSize)) items).
Proof.
  intros Hc Hi. unfold Util.chunkAt, Util.slice.
  set (n := Z.of_nat (length items)).
  assert (Hfrom : (chunkIndex * chunkSize <? 0)%Z = false)
    by (apply Z.ltb_ge; nia).
  assert (Hto : (Z.min n ((chunkIndex + 1) * chunkSize) <? 0)%Z = false)
    by (apply Z.ltb_ge; unfold n; nia).
  rewrite Hfrom, Hto.
  destruct (decide (chunkIndex * chunkSize ≤ n)%Z) as [Hle|Hgt].
  - rewrite (Z.min_l (chunkIndex * chunkSize) n) by lia.
    rewrite (Z.min_l _ n) by lia.
    set (l := drop (Z.to_nat (chunkIndex * chunkSize)) items).
    assert (Hl : Z.of_nat (length l) = (n - chunkIndex * chunkSize)%Z).
    { unfold l. rewrite length_drop. unfold n. lia. }
    destruct (decide ((chunkIndex + 1) * chunkSize ≤ n)%Z).
    + rewrite Z.min_r by done. f_equal. lia.
    + rewrite Z.min_l by lia.
      rewrite !take_ge; [done|lia..].
  - assert (E1 : Z.min n ((chunkIndex + 1) * chunkSize) = n) by nia.
    assert (E2 : Z.min (chunkIndex * chunkSize) n = n) by lia.
    rewrite E1, E2, Z.min_id, Z.sub_diag. simpl.
    rewrite (drop_ge items (Z.to_nat (chunkIndex * chunkSize)));
      [by rewrite take_nil|]. unfold n in Hgt. lia.
Qed.

Lemma less_chunksCount (items : list T) (chunkSize i : Z) :
  (0 < chunkSize)%Z →
  Util.less i (Util.chunksCount items chunkSize)
  = bool_decide (i * chunkSize < Z.of_nat (length items))%Z.
Proof.
  intros Hc. unfold Util.chunksCount, Util.floorDiv.
  destruct (Z.eqb_spec chunkSize 0) as [?|_]; [lia|]. simpl.
  set (n := Z.of_nat (length items)).
  pose proof (Z.mul_div_le (n + chunkSize - 1) chunkSize Hc) as Hlow.
  pose proof (Z.mul_succ_div_gt (n + chunkSize - 1) chunkSize Hc) as Hup.
  destruct (Z.ltb_spec i ((n + chunkSize - 1) / chunkSize)) as [H|H];
    symmetry; [apply bool_decide_eq_true|apply bool_decide_eq_false]; nia.
Qed.

Lemma runInChunks_from (items : list T) (chunkSize : Z) fuel : ∀ i,
  (0 < chunkSize)%Z → (0 ≤ i)%Z →
  Forall (λ x, process x = Util.Fulfils) items →
  0 < fuel →
  (Z.of_nat (length items) - i * chunkSize < Z.of_nat fuel)%Z →
  ∃ chunks,
    Util.runInChunks process fuel items chunkSize i
      = Some (chunks, Util.Fulfilled) ∧
    concat chunks = drop (Z.to_nat (i * chunkSize)) items ∧
    Forall (λ c, (Z.of_nat (length c) ≤ chunkSize)%Z) chunks.
Proof.
  induction fuel as [|fuel IH]; intros i Hc Hi Hall Hpos Hfuel; [lia|].
  cbn [Util.runInChunks].
  rewrite (chunkAt_take_drop items chunkSize i Hc Hi).
  set (l := drop (Z.to_nat (i * chunkSize)) items).
  assert (Hl : Forall (λ x, process x = Util.Fulfils) l).
  { by apply Forall_drop. }
  rewrite (all_fulfilled (take (Z.to_nat chunkSize) l));
    [|by apply Forall_take].
  rewrite (less_chunksCount items chunkSize (i + 1) Hc).
  assert (Hlen : (Z.of_nat (length (take (Z.to_nat chunkSize) l))
                  ≤ chunkSize)%Z).
  { rewrite length_take. lia. }
  destruct (decide ((i + 1) * chunkSize < Z.of_nat (length items))%Z)
    as [Hmore|Hlast].
  - rewrite bool_decide_eq_true_2 by done.
    destruct (IH (i + 1)%Z Hc) as (chunks & -> & Hcat & Hsz);
      [lia|done|nia|nia|].
    eexists. split; [reflexivity|]. split; [|by constructor].
    cbn [concat]. rewrite Hcat.
    replace (Z.to_nat ((i + 1) * chunkSize))
      with (Z.to_nat (i * chunkSize) + Z.to_nat chunkSize) by nia.
    rewrite <- drop_drop. fold l. apply take_drop.
  - rewrite bool_decide_eq_false_2 by done.
    eexists. split; [reflexivity|]. split; [|by repeat constructor].
    cbn [concat]. rewrite app_nil_r. apply take_ge.
    unfold l. rewrite length_drop. nia.
Qed.

(** X29: with a chunk size of at least one, [runInChunks] started at
    chunk zero maps the callback over consecutive chunks of at most
    [chunkSize] items, a chunk only after every promise of the chunk
    before is fulfilled; when all are fulfilled the chunks, one after
    the other, are the items in their order, none left out and none
    twice, and the returned promise is fulfilled. *)
Theorem runInChunks_covers_items_in_order (items : list T) chunkSize :
  (0 < chunkSize)%Z →
  Forall (λ x, process x = Util.Fulfils) items →
  ∃ chunks,
    Util.runInChunks process (S (length items)) items chunkSize 0
      = Some (chunks, Util.Fulfilled) ∧
    concat chunks = items ∧
    Forall (λ c, (Z.of_nat (length c) ≤ chunkSize)%Z) chunks.
Proof.
  intros Hc Hall.
  destruct (runInChunks_from items chunkSize (S (length items)) 0 Hc)
    as (chunks & Heq & Hcat & Hsz); [done|done|lia|lia|].
  exists chunks. done.
Qed.

(** X30: a chunk size of zero.  Every chunk is empty, so the callback
    is applied to no item; with two items or more the number of chunks
    is infinite and the chain of promises never ends, with at most one
    item it ends at once, fulfilled, the item unprocessed. *)
Theorem runInChunks_zero_chunk_size (items : list T) (i : Z) :
  (2 ≤ length items →
   ∀ fuel, Util.runInChunks process fuel items 0 i = None) ∧
  (length items ≤ 1 →
   ∀ fuel, Util.runInChunks process (S fuel) items 0 i
           = Some ([[]], Util.Fulfilled)).
Proof.
  assert (Hchunk : ∀ j, Util.chunkAt items 0 j = []).
  { intros j. unfold Util.chunkAt, Util.slice.
    rewrite !Z.mul_0_r. rewrite Z.min_r by lia. simpl.
    rewrite Z.min_l by lia. done. }
  split.
  - intros Hlen fuel. revert i.
    induction fuel as [|fuel IH]; intros i; [done|].
    cbn [Util.runInChunks]. rewrite Hchunk. cbn [map].
    unfold Util.all. cbn [existsb forallb].
    unfold Util.chunksCount, Util.floorDiv. simpl.
    destruct (Z.ltb_spec 0 (Z.of_nat (length items) + 0 - 1)); [|lia].
    simpl. by rewrite IH.
  - intros Hlen fuel. cbn [Util.runInChunks]. rewrite Hchunk. cbn [map].
    unfold Util.all. cbn [existsb forallb].
    unfold Util.chunksCount, Util.floorDiv. simpl.
    destruct (Z.ltb_spec 0 (Z.of_nat (length items) + 0 - 1)); [lia|].
    by destruct (Z.ltb_spec (Z.of_nat (length items) + 0 - 1) 0).
Qed.
End IterationFacts.

Lemma iterateSerially_stops_at_first_failure_witness :
  Util.iterateSerially Examples.failsOnThree [1; 2; 3; 4]
  = ([1; 2; 3], Util.Rejected).
Proof.
  refine (proj1 (iterateSerially_stops_at_first_failure
                   Examples.failsOnThree [1; 2] 3 [4] _ _)).
  - by repeat constructor.
  - discriminate.
Defined.

Lemma runInChunks_covers_items_in_order_witness :
  ∃ chunks,
    Util.runInChunks Examples.succeeds 6 [1; 2; 3; 4; 5] 2 0
      = Some (chunks, Util.Fulfilled) ∧
    concat chunks = [1; 2; 3; 4; 5].
Proof.
  destruct (runInChunks_covers_items_in_order Examples.succeeds
              [1; 2; 3; 4; 5] 2) as (chunks & H1 & H2 & _).
  - reflexivity.
  - by repeat constructor.
  - exists chunks. split; [exact H1|exact H2].
Defined.

Lemma runInChunks_zero_chunk_size_witness :
  Util.runInChunks Examples.succeeds 1000 [1; 2] 0 0 = None ∧
  Util.runInChunks Examples.succeeds 1 [1] 0 0
  = Some ([[]], Util.Fulfilled).
Proof.
  split.
  - apply (proj1 (runInChunks_zero_chunk_size Examples.succeeds [1; 2] 0)).
    simpl. lia.
  - apply (proj2 (runInChunks_zero_chunk_size Examples.succeeds [1] 0)).
    simpl. lia.
Defined.
